(** * mermaid-to-excalidraw-mcp: a shallow embedding of the conversion pipeline

  The development follows the repository's pipeline: directive extraction,
  dialect detection, the three dialect parsers, style resolution, the layout
  engine and the scene synthesizer.  JavaScript strings are modelled as
  [string] (sequences of code units below 256), JavaScript [Map]s as
  insertion-ordered association lists, regular expressions by a backtracking
  matcher that follows the ECMAScript matching order. *)

From Stdlib Require Import Bool Arith List String Ascii ZArith QArith Qabs Lia.
From Stdlib Require Import DecimalString DecimalNat Sorted.
From Stdlib Require Import Lqa.
Import ListNotations.

Local Close Scope Q_scope.
Local Open Scope string_scope.
Local Open Scope nat_scope.
Local Open Scope list_scope.

(** String concatenation, JavaScript's [+] on strings. *)
Infix "+++" := String.append (at level 60, right associativity).

(* ================================================================== *)
(** * JavaScript strings *)
(* ================================================================== *)

Module JsString.

Definition code (c : ascii) : nat := nat_of_ascii c.

(** [\s] and [String.prototype.trim]: WhiteSpace and LineTerminator. *)
Definition is_space (c : ascii) : bool :=
  let n := code c in
  ((9 <=? n) && (n <=? 13)) || (n =? 32) || (n =? 160).

(** LineTerminator: LF and CR. *)
Definition is_line_terminator (c : ascii) : bool :=
  let n := code c in (n =? 10) || (n =? 13).

Definition is_upper (c : ascii) : bool :=
  let n := code c in (65 <=? n) && (n <=? 90).
Definition is_lower (c : ascii) : bool :=
  let n := code c in (97 <=? n) && (n <=? 122).
Definition is_digit (c : ascii) : bool :=
  let n := code c in (48 <=? n) && (n <=? 57).

(** [\w] *)
Definition is_word (c : ascii) : bool :=
  is_upper c || is_lower c || is_digit c || (code c =? 95).

Definition to_lower_char (c : ascii) : ascii :=
  if is_upper c then ascii_of_nat (code c + 32) else c.
Definition to_upper_char (c : ascii) : ascii :=
  if is_lower c then ascii_of_nat (code c - 32) else c.

Fixpoint toLowerCase (s : string) : string :=
  match s with
  | EmptyString => EmptyString
  | String c s' => String (to_lower_char c) (toLowerCase s')
  end.

Fixpoint toUpperCase (s : string) : string :=
  match s with
  | EmptyString => EmptyString
  | String c s' => String (to_upper_char c) (toUpperCase s')
  end.

Definition is_empty (s : string) : bool :=
  match s with EmptyString => true | _ => false end.

Fixpoint trimStart (s : string) : string :=
  match s with
  | EmptyString => EmptyString
  | String c s' => if is_space c then trimStart s' else s
  end.

Fixpoint trimEnd (s : string) : string :=
  match s with
  | EmptyString => EmptyString
  | String c s' =>
      let r := trimEnd s' in
      if is_empty r && is_space c then EmptyString else String c r
  end.

Definition trim (s : string) : string := trimEnd (trimStart s).

Fixpoint startsWith (s p : string) : bool :=
  match p, s with
  | EmptyString, _ => true
  | String a p', String b s' => Ascii.eqb a b && startsWith s' p'
  | String _ _, EmptyString => false
  end.

(** [s.includes(p)] *)
Fixpoint includes (s p : string) : bool :=
  startsWith s p ||
  match s with
  | EmptyString => false
  | String _ s' => includes s' p
  end.

(** [s.split(sep)] for a one-character separator: never the empty list. *)
Fixpoint split (sep : ascii) (s : string) : list string :=
  match s with
  | EmptyString => [EmptyString]
  | String c s' =>
      if Ascii.eqb c sep then EmptyString :: split sep s'
      else match split sep s' with
           | [] => [String c EmptyString]
           | x :: xs => String c x :: xs
           end
  end.

Fixpoint join (sep : string) (l : list string) : string :=
  match l with
  | [] => EmptyString
  | [x] => x
  | x :: xs => x +++ sep +++ join sep xs
  end.

(** [s.slice(n)] for [0 <= n]. *)
Fixpoint slice (n : nat) (s : string) : string :=
  match n, s with
  | 0, _ => s
  | S n', String _ s' => slice n' s'
  | S _, EmptyString => EmptyString
  end.

(** The first [n] code units. *)
Fixpoint take (n : nat) (s : string) : string :=
  match n, s with
  | S n', String c s' => String c (take n' s')
  | _, _ => EmptyString
  end.

Definition nl : string := String (ascii_of_nat 10) EmptyString.
Definition LF : ascii := ascii_of_nat 10.

(** Decimal rendering of a counter, as template literals do. *)
Definition of_nat (n : nat) : string := NilEmpty.string_of_uint (Nat.to_uint n).

(** List membership of a string: [arr.includes(x)]. *)
Definition mem (x : string) (l : list string) : bool :=
  existsb (String.eqb x) l.

End JsString.

(* ================================================================== *)
(** * Regular expressions: an ECMAScript-style backtracking matcher *)
(* ================================================================== *)

Module Regex.
Import JsString.

Inductive regex : Type :=
| Eps : regex
| Chr : ascii -> regex                 (* a literal character *)
| Cls : (ascii -> bool) -> regex       (* a character class *)
| Seq : regex -> regex -> regex
| Alt : regex -> regex -> regex
| Star : bool -> regex -> regex        (* [Star true r] is greedy, [Star false r] lazy *)
| Opt : regex -> regex                 (* r?, greedy *)
| Grp : nat -> regex -> regex          (* capturing group number n *)
| Bol : regex                          (* ^ *)
| Eol : regex                          (* $ *)
| WordB : regex.                       (* \b *)

Record flags : Type := { ignoreCase : bool; multiline : bool }.

Definition no_flags : flags := {| ignoreCase := false; multiline := false |}.
Definition flag_i : flags := {| ignoreCase := true; multiline := false |}.
Definition flag_im : flags := {| ignoreCase := true; multiline := true |}.

(** A position in the input: the code unit before it, the text after it,
    and the captures recorded so far (latest first). *)
Record mstate : Type :=
  { prev : option ascii; rest : string; caps : list (nat * string) }.

Definition advance (c : ascii) (s : string) (st : mstate) : mstate :=
  {| prev := Some c; rest := s; caps := caps st |}.

Definition char_eq (fl : flags) (a b : ascii) : bool :=
  if ignoreCase fl then Ascii.eqb (to_upper_char a) (to_upper_char b)
  else Ascii.eqb a b.

Definition word_before (st : mstate) : bool :=
  match prev st with Some c => is_word c | None => false end.
Definition word_after (st : mstate) : bool :=
  match rest st with String c _ => is_word c | EmptyString => false end.

Definition at_bol (fl : flags) (st : mstate) : bool :=
  match prev st with
  | None => true
  | Some c => multiline fl && is_line_terminator c
  end.
Definition at_eol (fl : flags) (st : mstate) : bool :=
  match rest st with
  | EmptyString => true
  | String c _ => multiline fl && is_line_terminator c
  end.

(** The text consumed between two positions of the same input. *)
Definition consumed (st st' : mstate) : string :=
  take (length (rest st) - length (rest st')) (rest st).

(** Continuation-passing matcher.  Alternatives are tried left to right,
    a greedy star tries one more iteration before stopping, a lazy star
    the other way round; an iteration of a star or of an optional part
    that consumes nothing is rejected. *)
Fixpoint mt (fl : flags) (r : regex) (st : mstate)
         (k : mstate -> option mstate) {struct r} : option mstate :=
  match r with
  | Eps => k st
  | Chr c =>
      match rest st with
      | String d s' => if char_eq fl c d then k (advance d s' st) else None
      | EmptyString => None
      end
  | Cls p =>
      match rest st with
      | String d s' => if p d then k (advance d s' st) else None
      | EmptyString => None
      end
  | Seq r1 r2 => mt fl r1 st (fun st1 => mt fl r2 st1 k)
  | Alt r1 r2 =>
      match mt fl r1 st k with
      | Some x => Some x
      | None => mt fl r2 st k
      end
  | Star greedy r1 =>
      (fix loop (n : nat) (st0 : mstate) {struct n} : option mstate :=
         match n with
         | 0 => k st0
         | S n' =>
             let again st1 :=
               if length (rest st1) <? length (rest st0) then loop n' st1 else None in
             if greedy then
               match mt fl r1 st0 again with
               | Some x => Some x
               | None => k st0
               end
             else
               match k st0 with
               | Some x => Some x
               | None => mt fl r1 st0 again
               end
         end) (S (length (rest st))) st
  | Opt r1 =>
      match mt fl r1 st
               (fun st1 => if length (rest st1) <? length (rest st) then k st1 else None) with
      | Some x => Some x
      | None => k st
      end
  | Grp n r1 =>
      mt fl r1 st (fun st1 =>
        k {| prev := prev st1; rest := rest st1;
             caps := (n, consumed st st1) :: caps st1 |})
  | Bol => if at_bol fl st then k st else None
  | Eol => if at_eol fl st then k st else None
  | WordB => if xorb (word_before st) (word_after st) then k st else None
  end.

(** Derived forms. *)
Definition Plus (greedy : bool) (r : regex) : regex := Seq r (Star greedy r).
Fixpoint Lit (s : string) : regex :=
  match s with
  | EmptyString => Eps
  | String c s' => Seq (Chr c) (Lit s')
  end.
Fixpoint Alts (l : list regex) : regex :=
  match l with
  | [] => Cls (fun _ => false)
  | [r] => r
  | r :: l' => Alt r (Alts l')
  end.
Fixpoint Seqs (l : list regex) : regex :=
  match l with
  | [] => Eps
  | [r] => r
  | r :: l' => Seq r (Seqs l')
  end.
Definition one_of (s : string) : regex :=
  Cls (fun c => existsb (Ascii.eqb c) (list_ascii_of_string s)).
Definition none_of (s : string) : regex :=
  Cls (fun c => negb (existsb (Ascii.eqb c) (list_ascii_of_string s))).

Definition space : regex := Cls is_space.                               (* \s *)
Definition nonspace : regex := Cls (fun c => negb (is_space c)).        (* \S *)
Definition word : regex := Cls is_word.                                 (* \w *)
Definition dot : regex := Cls (fun c => negb (is_line_terminator c)).   (* . *)
Definition any : regex := Cls (fun _ => true).                          (* [\s\S] *)
Definition ident_start : regex :=                                       (* [A-Za-z_] *)
  Cls (fun c => is_upper c || is_lower c || (code c =? 95)).

(** The result of a successful match. *)
Record found : Type :=
  { before : string;      (* the text before the match *)
    matched : string;     (* group 0 *)
    after : string;       (* the text after the match *)
    last : option ascii;  (* the code unit before [after] *)
    groups : list (nat * string) }.

Definition capture (n : nat) (f : found) : option string :=
  match find (fun p => fst p =? n) (groups f) with
  | Some p => Some (snd p)
  | None => None
  end.

Definition match_here (fl : flags) (r : regex) (p : option ascii) (s : string)
  : option mstate :=
  mt fl r {| prev := p; rest := s; caps := [] |} Some.

(** Leftmost match at or after the current position ([RegExp.prototype.exec]). *)
Fixpoint search (fl : flags) (r : regex) (p : option ascii) (s : string)
  : option found :=
  match match_here fl r p s with
  | Some st =>
      Some {| before := EmptyString;
              matched := take (length s - length (rest st)) s;
              after := rest st; last := prev st; groups := caps st |}
  | None =>
      match s with
      | EmptyString => None
      | String c s' =>
          match search fl r (Some c) s' with
          | Some f =>
              Some {| before := String c (before f); matched := matched f;
                      after := after f; last := last f; groups := groups f |}
          | None => None
          end
      end
  end.

Definition exec (fl : flags) (r : regex) (s : string) : option found :=
  search fl r None s.

Definition test (fl : flags) (r : regex) (s : string) : bool :=
  match exec fl r s with Some _ => true | None => false end.

(** [s.replace(re, rep)] without the global flag: the first match only. *)
Definition replace_first (fl : flags) (r : regex) (rep s : string) : string :=
  match exec fl r s with
  | Some f => before f +++ rep +++ after f
  | None => s
  end.

(** [s.replace(re, rep)] with the global flag.  The scan moves one code unit
    at a time; after a match it resumes behind the match (one code unit
    further when the match was empty). *)
Fixpoint replace_from (fl : flags) (r : regex) (rep : string) (fuel : nat)
         (p : option ascii) (s : string) : string :=
  match fuel with
  | 0 => s
  | S fuel' =>
      let step :=
        match s with
        | EmptyString => EmptyString
        | String c s' => String c (replace_from fl r rep fuel' (Some c) s')
        end in
      match match_here fl r p s with
      | Some st =>
          if length (rest st) <? length s
          then rep +++ replace_from fl r rep fuel' (prev st) (rest st)
          else rep +++ step
      | None => step
      end
  end.

Definition replace_all (fl : flags) (r : regex) (rep s : string) : string :=
  replace_from fl r rep (S (length s)) None s.

(** All successive matches of a global regex ([while ((m = re.exec(s)))]). *)
Fixpoint matches_from (fl : flags) (r : regex) (fuel : nat)
         (p : option ascii) (s : string) : list found :=
  match fuel with
  | 0 => []
  | S fuel' =>
      match search fl r p s with
      | None => []
      | Some f =>
          if is_empty (matched f) then
            match after f with
            | EmptyString => [f]
            | String c s' => f :: matches_from fl r fuel' (Some c) s'
            end
          else f :: matches_from fl r fuel' (last f) (after f)
      end
  end.

Definition match_all (fl : flags) (r : regex) (s : string) : list found :=
  matches_from fl r (S (length s)) None s.

End Regex.

(* ================================================================== *)
(** * Shared types (src/types/index.ts) *)
(* ================================================================== *)

Module Types.

Inductive StyleType : Type :=
| ui | api | db | cache | queue | gateway | external | agent | storage
| user | orchestrator | problem | solution | highlight | group.

Definition style_name (s : StyleType) : string :=
  match s with
  | ui => "ui" | api => "api" | db => "db" | cache => "cache"
  | queue => "queue" | gateway => "gateway" | external => "external"
  | agent => "agent" | storage => "storage" | user => "user"
  | orchestrator => "orchestrator" | problem => "problem"
  | solution => "solution" | highlight => "highlight" | group => "group"
  end.

Definition all_styles : list StyleType :=
  [ui; api; db; cache; queue; gateway; external; agent; storage; user;
   orchestrator; problem; solution; highlight; group].

Inductive NodeShape : Type :=
| rectangle | cylinder | stadium | hexagon | ellipse | diamond.

Definition shape_name (s : NodeShape) : string :=
  match s with
  | rectangle => "rectangle" | cylinder => "cylinder" | stadium => "stadium"
  | hexagon => "hexagon" | ellipse => "ellipse" | diamond => "diamond"
  end.

Inductive DiagramType : Type := flowchart | sequence | er | class.

Inductive Direction : Type := TD | TB | LR | RL | BT.

Inductive LineStyle : Type := solid | dashed | dotted.

Inductive ArrowType : Type := arrow_head | none_head | both_heads.

End Types.

(* ================================================================== *)
(** * Plain JavaScript objects used as string-keyed records *)
(* ================================================================== *)

(** An object literal [{}] inherits from [Object.prototype]: reading a key
  that is not an own property but names a member of the prototype yields
  that member (a function or object, hence truthy), not [undefined]. *)
Module JsObject.

Definition t (V : Type) : Type := list (string * V).

Definition prototype_keys : list string :=
  ["constructor"; "__defineGetter__"; "__defineSetter__"; "hasOwnProperty";
   "__lookupGetter__"; "__lookupSetter__"; "isPrototypeOf";
   "propertyIsEnumerable"; "toString"; "valueOf"; "__proto__";
   "toLocaleString"].

Inductive value (V : Type) : Type :=
| Own : V -> value V            (* an own property *)
| Inherited : string -> value V (* the prototype member of that name *)
| Undefined : value V.
Arguments Own {V} _.
Arguments Inherited {V} _.
Arguments Undefined {V}.

Fixpoint own {V} (o : t V) (k : string) : option V :=
  match o with
  | [] => None
  | (k', v) :: o' => if String.eqb k k' then Some v else own o' k
  end.

(** [o[k]] *)
Definition get {V} (o : t V) (k : string) : value V :=
  match own o k with
  | Some v => Own v
  | None => if JsString.mem k prototype_keys then Inherited k else Undefined
  end.

Fixpoint put {V} (o : t V) (k : string) (v : V) : t V :=
  match o with
  | [] => [(k, v)]
  | (k', v') :: o' =>
      if String.eqb k k' then (k, v) :: o' else (k', v') :: put o' k v
  end.

(** [o[k] = v] for a primitive [v]: the [__proto__] setter ignores it. *)
Definition set {V} (o : t V) (k : string) (v : V) : t V :=
  if String.eqb k "__proto__" then o else put o k v.

End JsObject.

(* ================================================================== *)
(** * Directive extractor (parser/directive.ts) *)
(* ================================================================== *)

Module Directive.
Import JsString Regex Types.

(** What a [StyleType | undefined] slot can hold at run time. *)
Inductive StyleVal : Type :=
| Style : StyleType -> StyleVal
| ProtoMember : string -> StyleVal.  (* a member of [Object.prototype] *)

Record ExcaliDirective : Type :=
  { theme : option string; styles : JsObject.t StyleType }.

(** [VALID_STYLES.has(name)], with the style it names. *)
Definition valid_style (name : string) : option StyleType :=
  find (fun s => String.eqb (style_name s) name) all_styles.

(** [/%%\{excali:\s*([\s\S]*?)\}%%/] *)
Definition re_directive : regex :=
  Seqs [Lit "%%{excali:"; Star true space; Grp 1 (Star false any); Lit "}%%"].

(** [/theme:\s*(\w+)/] *)
Definition re_theme : regex :=
  Seqs [Lit "theme:"; Star true space; Grp 1 (Plus true word)].

(** [/styles:\s*\{([^}]+)\}/] *)
Definition re_styles : regex :=
  Seqs [Lit "styles:"; Star true space; Chr "{"%char; Grp 1 (Plus true (none_of "}")); Chr "}"%char].

(** [/(\w+):\s*(\w+)/g] *)
Definition re_pair : regex :=
  Seqs [Grp 1 (Plus true word); Chr ":"%char; Star true space; Grp 2 (Plus true word)].

(** [/%%\{excali:[\s\S]*?\}%%\s*/g] *)
Definition re_strip : regex :=
  Seqs [Lit "%%{excali:"; Star false any; Lit "}%%"; Star true space].

(** [/%%\{excali:/] *)
Definition re_has : regex := Lit "%%{excali:".

Definition group_or_empty (n : nat) (f : found) : string :=
  match capture n f with Some s => s | None => EmptyString end.

Definition add_pair (o : JsObject.t StyleType) (f : found) : JsObject.t StyleType :=
  match valid_style (group_or_empty 2 f) with
  | Some st => JsObject.set o (group_or_empty 1 f) st
  | None => o
  end.

Definition parseExcaliDirective (mermaidSource : string) : ExcaliDirective :=
  match exec no_flags re_directive mermaidSource with
  | None => {| theme := None; styles := [] |}
  | Some directiveMatch =>
      let content := trim (group_or_empty 1 directiveMatch) in
      let th :=
        match exec no_flags re_theme content with
        | Some themeMatch => capture 1 themeMatch
        | None => None
        end in
      let st :=
        match exec no_flags re_styles content with
        | Some stylesMatch =>
            fold_left add_pair
              (match_all no_flags re_pair (group_or_empty 1 stylesMatch)) []
        | None => []
        end in
      {| theme := th; styles := st |}
  end.

Definition stripExcaliDirective (mermaidSource : string) : string :=
  trim (replace_all no_flags re_strip EmptyString mermaidSource).

Definition hasExcaliDirective (mermaidSource : string) : bool :=
  test no_flags re_has mermaidSource.

(** [directive.styles[id] || fallback] *)
Definition style_or (o : JsObject.t StyleType) (id : string)
           (fallback : option StyleVal) : option StyleVal :=
  match JsObject.get o id with
  | JsObject.Own s => Some (Style s)
  | JsObject.Inherited m => Some (ProtoMember m)
  | JsObject.Undefined => fallback
  end.

End Directive.

(* ================================================================== *)
(** * Style resolver (converter/styles.ts) *)
(* ================================================================== *)

Module Styles.
Import JsString Regex Types Directive.

Record StyleColors : Type :=
  { backgroundColor : string; strokeColor : string }.

Definition COLOR_PALETTE (s : StyleType) : StyleColors :=
  match s with
  | ui => {| backgroundColor := "#a5d8ff"; strokeColor := "#1971c2" |}
  | api => {| backgroundColor := "#d0bfff"; strokeColor := "#7048e8" |}
  | db => {| backgroundColor := "#b2f2bb"; strokeColor := "#2f9e44" |}
  | cache => {| backgroundColor := "#ffe8cc"; strokeColor := "#fd7e14" |}
  | queue => {| backgroundColor := "#fff3bf"; strokeColor := "#fab005" |}
  | gateway => {| backgroundColor := "#dee2e6"; strokeColor := "#495057" |}
  | external => {| backgroundColor := "#ffc9c9"; strokeColor := "#e03131" |}
  | agent => {| backgroundColor := "#e599f7"; strokeColor := "#9c36b5" |}
  | storage => {| backgroundColor := "#ffec99"; strokeColor := "#f08c00" |}
  | user => {| backgroundColor := "#e7f5ff"; strokeColor := "#1971c2" |}
  | orchestrator => {| backgroundColor := "#ffa8a8"; strokeColor := "#c92a2a" |}
  | problem => {| backgroundColor := "#ffc9c9"; strokeColor := "#c92a2a" |}
  | solution => {| backgroundColor := "#b2f2bb"; strokeColor := "#087f5b" |}
  | highlight => {| backgroundColor := "#e5dbff"; strokeColor := "#5f3dc4" |}
  | group => {| backgroundColor := "transparent"; strokeColor := "#868e96" |}
  end.

Definition DEFAULT_STYLE : StyleColors :=
  {| backgroundColor := "#e9ecef"; strokeColor := "#495057" |}.

(** [/\b(w1|w2|...)\b/i] *)
Definition keywords (alts : list regex) : regex :=
  Seqs [WordB; Grp 1 (Alts alts); WordB].

Definition SEMANTIC_PATTERNS : list (regex * StyleType) :=
  [ (keywords [Lit "database"; Lit "db"; Lit "postgres"; Lit "mysql";
               Lit "mongo"; Lit "sqlite"; Lit "dynamo"], db);
    (keywords [Lit "redis"; Lit "cache"; Lit "memcache"], cache);
    (keywords [Lit "queue"; Lit "kafka"; Lit "rabbit"; Lit "sqs"; Lit "pubsub"], queue);
    (keywords [Lit "api"; Lit "service"; Lit "backend"; Lit "server"], api);
    (keywords [Lit "ui"; Lit "frontend"; Lit "react"; Lit "vue";
               Lit "angular"; Lit "client"; Lit "app"], ui);
    (keywords [Lit "gateway"; Lit "router"; Lit "proxy"; Lit "nginx"; Lit "kong"], gateway);
    (keywords [Lit "external"; Seqs [Lit "third"; Opt dot; Lit "party"];
               Lit "vendor"], external);
    (keywords [Lit "ai"; Lit "ml"; Lit "agent"; Lit "llm"; Lit "gpt"; Lit "claude"], agent);
    (keywords [Lit "storage"; Lit "s3"; Lit "blob"; Lit "file"], storage);
    (keywords [Lit "user"; Lit "actor"; Lit "client"; Lit "customer"], user);
    (keywords [Lit "orchestrat"; Lit "workflow";
               Seqs [Lit "step"; Opt dot; Lit "function"]], orchestrator) ].

Definition SHAPE_STYLES : JsObject.t StyleType :=
  [("cylinder", db); ("stadium", cache); ("hexagon", orchestrator)].

Definition getStyleColors (styleType : option StyleVal) : StyleColors :=
  match styleType with
  | None => DEFAULT_STYLE
  | Some (Style s) => COLOR_PALETTE s
  | Some (ProtoMember _) => DEFAULT_STYLE   (* not a key of the palette *)
  end.

Definition inferStyleFromLabel (label : string) : option StyleType :=
  match find (fun ps => test flag_i (fst ps) label) SEMANTIC_PATTERNS with
  | Some ps => Some (snd ps)
  | None => None
  end.

(** [SHAPE_STYLES[shape]] as seen by the truthiness test that follows it. *)
Definition inferStyleFromShape (shape : string) : option StyleVal :=
  style_or SHAPE_STYLES shape None.

Definition resolveStyle (nodeId label shape : string)
           (explicitStyles : JsObject.t StyleType) : option StyleVal :=
  match style_or explicitStyles nodeId None with
  | Some v => Some v
  | None =>
      match inferStyleFromShape shape with
      | Some v => Some v
      | None =>
          match inferStyleFromLabel label with
          | Some s => Some (Style s)
          | None => None
          end
      end
  end.

End Styles.

(* ================================================================== *)
(** * Parsed diagrams (src/types/index.ts) *)
(* ================================================================== *)

Module Diagram.
Import Types Directive.

Record ParsedNode : Type :=
  { id : string; label : string; shape : NodeShape;
    styleType : option StyleVal }.

Record ParsedEdge : Type :=
  { source : string; target : string; edge_label : option string;
    arrowType : ArrowType; lineStyle : option LineStyle }.

Record ParsedSubgraph : Type :=
  { sg_id : string; sg_label : string; sg_nodes : list string;
    sg_styleType : option StyleVal }.

Record ParsedDiagram : Type :=
  { type : DiagramType; direction : Direction;
    nodes : list ParsedNode; edges : list ParsedEdge;
    subgraphs : list ParsedSubgraph;
    directive : ExcaliDirective; rawMermaid : string }.

End Diagram.

(* ================================================================== *)
(** * JavaScript [Map]: insertion-ordered, one entry per key *)
(* ================================================================== *)

Module JsMap.

Definition t (V : Type) : Type := list (string * V).

Fixpoint get {V} (m : t V) (k : string) : option V :=
  match m with
  | [] => None
  | (k', v) :: m' => if String.eqb k k' then Some v else get m' k
  end.

Definition has {V} (m : t V) (k : string) : bool :=
  match get m k with Some _ => true | None => false end.

(** [m.set(k, v)]: an existing key keeps its place, a new one goes last. *)
Fixpoint set {V} (m : t V) (k : string) (v : V) : t V :=
  match m with
  | [] => [(k, v)]
  | (k', v') :: m' =>
      if String.eqb k k' then (k, v) :: m' else (k', v') :: set m' k v
  end.

Definition keys {V} (m : t V) : list string := map fst m.
Definition values {V} (m : t V) : list V := map snd m.

End JsMap.

(* ================================================================== *)
(** * Sequence-diagram parser (parser/sequence.ts) *)
(* ================================================================== *)

Module Sequence.
Import JsString Regex Types Directive Diagram.

Inductive ParticipantType : Type := participant | actor.

Record SequenceParticipant : Type :=
  { p_id : string; p_alias : option string; p_label : string;
    p_type : ParticipantType }.

Inductive MessageType : Type := m_solid | m_dashed | m_solidOpen | m_dashedOpen.

Record SequenceMessage : Type :=
  { m_from : string; m_to : string; m_label : string; m_type : MessageType }.

(** [source.split('\n').map(l => l.trim()).filter(l => l && !l.startsWith('%%'))] *)
Definition significant_lines (source : string) : list string :=
  filter (fun l => negb (is_empty l) && negb (startsWith l "%%"))
         (map trim (split LF source)).

(** [/^(participant|actor)\s+(\w+)(?:\s+as\s+(.+))?$/] *)
Definition re_participant : regex :=
  Seqs [Bol; Grp 1 (Alt (Lit "participant") (Lit "actor")); Plus true space;
        Grp 2 (Plus true word);
        Opt (Seqs [Plus true space; Lit "as"; Plus true space; Grp 3 (Plus true dot)]);
        Eol].

(** [/^(\w+)\s*(--?>>?[+-]?|--?>[+-]?|--?x[+-]?)\s*(\w+)\s*:\s*(.* )$/]
    (the last group is [.] starred) *)
Definition re_message : regex :=
  Seqs [Bol; Grp 1 (Plus true word); Star true space;
        Grp 2 (Alts
          [Seqs [Chr "-"%char; Opt (Chr "-"%char); Chr ">"%char; Opt (Chr ">"%char); Opt (one_of "+-")];
           Seqs [Chr "-"%char; Opt (Chr "-"%char); Chr ">"%char; Opt (one_of "+-")];
           Seqs [Chr "-"%char; Opt (Chr "-"%char); Chr "x"%char; Opt (one_of "+-")]]);
        Star true space; Grp 3 (Plus true word); Star true space; Chr ":"%char;
        Star true space; Grp 4 (Star true dot); Eol].

Record state : Type :=
  { participants : list SequenceParticipant;
    messages : list SequenceMessage;
    participantOrder : list string }.

Definition init : state :=
  {| participants := []; messages := []; participantOrder := [] |}.

(** The implicit registration of a message endpoint. *)
Definition add_implicit (x : string) (st : state) : state :=
  if mem x (participantOrder st) then st
  else {| participants :=
            participants st ++
            [{| p_id := x; p_alias := None; p_label := x; p_type := participant |}];
          messages := messages st;
          participantOrder := participantOrder st ++ [x] |}.

(** One iteration of the line loop. *)
Definition step (st : state) (line : string) : state :=
  if startsWith line "sequenceDiagram" then st
  else
    match exec no_flags re_participant line with
    | Some pm =>
        let ty := if String.eqb (group_or_empty 1 pm) "actor" then actor else participant in
        let pid := group_or_empty 2 pm in
        let alias := option_map trim (capture 3 pm) in
        let lbl :=
          match alias with
          | Some a => if is_empty a then pid else a
          | None => pid
          end in
        {| participants :=
             participants st ++
             [{| p_id := pid; p_alias := alias; p_label := lbl; p_type := ty |}];
           messages := messages st;
           participantOrder :=
             if mem pid (participantOrder st) then participantOrder st
             else participantOrder st ++ [pid] |}
    | None =>
        match exec no_flags re_message line with
        | Some mm =>
            let from := group_or_empty 1 mm in
            let arrow := group_or_empty 2 mm in
            let to := group_or_empty 3 mm in
            let lbl := group_or_empty 4 mm in
            let st1 := add_implicit from st in
            let st2 := add_implicit to st1 in
            let isDashed := includes arrow "--" in
            let isOpen := negb (includes arrow ">>") in
            {| participants := participants st2;
               messages :=
                 messages st2 ++
                 [{| m_from := from; m_to := to; m_label := trim lbl;
                     m_type :=
                       if isDashed then (if isOpen then m_dashedOpen else m_dashed)
                       else (if isOpen then m_solidOpen else m_solid) |}];
               participantOrder := participantOrder st2 |}
        | None => st
        end
    end.

Definition inferParticipantStyle (label : string) : option StyleType :=
  let lower := toLowerCase label in
  if includes lower "user" || includes lower "client" || includes lower "actor" then Some user
  else if includes lower "api" || includes lower "service" || includes lower "backend" then Some api
  else if includes lower "db" || includes lower "database" then Some db
  else if includes lower "cache" || includes lower "redis" then Some cache
  else if includes lower "queue" || includes lower "kafka" then Some queue
  else if includes lower "gateway" || includes lower "proxy" then Some gateway
  else if includes lower "external" || includes lower "third" then Some external
  else None.

Definition node_of (d : ExcaliDirective) (p : SequenceParticipant) : ParsedNode :=
  {| id := p_id p; label := p_label p;
     shape := match p_type p with actor => ellipse | participant => rectangle end;
     styleType :=
       style_or (styles d) (p_id p) (option_map Style (inferParticipantStyle (p_label p))) |}.

Definition edge_of (m : SequenceMessage) : ParsedEdge :=
  {| source := m_from m; target := m_to m; edge_label := Some (m_label m);
     arrowType := arrow_head;
     lineStyle :=
       match m_type m with
       | m_dashed | m_dashedOpen => Some dashed
       | _ => Some solid
       end |}.

Definition parseSequenceDiagram (mermaidSource : string) : ParsedDiagram :=
  let d := parseExcaliDirective mermaidSource in
  let st := fold_left step (significant_lines mermaidSource) init in
  {| type := sequence; direction := LR;
     nodes := map (node_of d) (participants st);
     edges := map edge_of (messages st);
     subgraphs := [];
     directive := d; rawMermaid := mermaidSource |}.

End Sequence.

(* ================================================================== *)
(** * Entity-relationship parser (parser/er.ts) *)
(* ================================================================== *)

Module ER.
Import JsString Regex Types Directive Diagram.

Record Attribute : Type :=
  { a_type : string; a_name : string; a_keys : list string }.

Record EREntity : Type := { e_name : string; attributes : list Attribute }.

Record ERRelationship : Type :=
  { entity1 : string; entity2 : string;
    cardinality1 : string; cardinality2 : string;
    r_label : option string }.

(** [/^(\w+)\s*\{$/] *)
Definition re_entity_start : regex :=
  Seqs [Bol; Grp 1 (Plus true word); Star true space; Chr "{"%char; Eol].

(** [/^(\w+)\s+(\w+)(?:\s+(PK|FK|UK))?$/] *)
Definition re_attr : regex :=
  Seqs [Bol; Grp 1 (Plus true word); Plus true space; Grp 2 (Plus true word);
        Opt (Seqs [Plus true space; Grp 3 (Alts [Lit "PK"; Lit "FK"; Lit "UK"])]);
        Eol].

(** The relationship pattern with the two cardinality token sets. *)
Definition re_rel : regex :=
  Seqs [Bol; Grp 1 (Plus true word); Star true space;
        Grp 2 (Alts [Seq (Chr "|"%char) (one_of "|o"); Seq (Chr "o"%char) (one_of "|o");
                     Seq (Chr "}"%char) (one_of "|o"); Seq (Chr "|"%char) (one_of "{");
                     Seq (Chr "}"%char) (one_of "{"); Seq (Chr "o"%char) (one_of "{")]);
        Lit "--";
        Grp 3 (Alts [Seq (Chr "|"%char) (one_of "|o"); Seq (Chr "o"%char) (one_of "|o");
                     Seq (Chr "}"%char) (one_of "|o"); Seq (one_of "|") (one_of "}");
                     Seq (one_of "{") (one_of "|"); Seq (one_of "{") (Chr "o"%char)]);
        Star true space; Grp 4 (Plus true word);
        Opt (Seqs [Star true space; Chr ":"%char; Star true space; Grp 5 (Plus true dot)]);
        Eol].

(** [/^(\w+)\s+\S+\s+(\w+)(?:\s*:\s*(.+))?$/] *)
Definition re_simple_rel : regex :=
  Seqs [Bol; Grp 1 (Plus true word); Plus true space; Plus true nonspace;
        Plus true space; Grp 2 (Plus true word);
        Opt (Seqs [Star true space; Chr ":"%char; Star true space; Grp 3 (Plus true dot)]);
        Eol].

(** [currentEntity] is a reference to the object stored in [entities] under
    its name; it is modelled by that name, and a push onto its attribute
    list by an update of the map entry. *)
Record state : Type :=
  { entities : JsMap.t EREntity;
    relationships : list ERRelationship;
    currentEntity : option string;
    inEntityBlock : bool }.

Definition init : state :=
  {| entities := []; relationships := []; currentEntity := None;
     inEntityBlock := false |}.

Definition ensure (name : string) (m : JsMap.t EREntity) : JsMap.t EREntity :=
  if JsMap.has m name then m
  else JsMap.set m name {| e_name := name; attributes := [] |}.

Definition push_attribute (name : string) (a : Attribute) (m : JsMap.t EREntity)
  : JsMap.t EREntity :=
  match JsMap.get m name with
  | Some e => JsMap.set m name {| e_name := e_name e; attributes := attributes e ++ [a] |}
  | None => m
  end.

Definition add_relationship (st : state) (r : ERRelationship) : state :=
  {| entities := ensure (entity2 r) (ensure (entity1 r) (entities st));
     relationships := relationships st ++ [r];
     currentEntity := currentEntity st;
     inEntityBlock := inEntityBlock st |}.

Definition step (st : state) (line : string) : state :=
  if startsWith line "erDiagram" then st
  else
    match exec no_flags re_entity_start line with
    | Some m =>
        let name := group_or_empty 1 m in
        {| entities :=
             match JsMap.get (entities st) name with
             | Some e => JsMap.set (entities st) name e
             | None => JsMap.set (entities st) name {| e_name := name; attributes := [] |}
             end;
           relationships := relationships st;
           currentEntity := Some name;
           inEntityBlock := true |}
    | None =>
        if String.eqb line "}" then
          {| entities := entities st; relationships := relationships st;
             currentEntity := None; inEntityBlock := false |}
        else
          match inEntityBlock st, currentEntity st with
          | true, Some cur =>
              match exec no_flags re_attr line with
              | Some m =>
                  {| entities :=
                       push_attribute cur
                         {| a_type := group_or_empty 1 m; a_name := group_or_empty 2 m;
                            a_keys := match capture 3 m with
                                      | Some key => [key]
                                      | None => []
                                      end |}
                         (entities st);
                     relationships := relationships st;
                     currentEntity := currentEntity st;
                     inEntityBlock := inEntityBlock st |}
              | None => st
              end
          | _, _ =>
              match exec no_flags re_rel line with
              | Some m =>
                  add_relationship st
                    {| entity1 := group_or_empty 1 m; entity2 := group_or_empty 4 m;
                       cardinality1 := group_or_empty 2 m;
                       cardinality2 := group_or_empty 3 m;
                       r_label := option_map trim (capture 5 m) |}
              | None =>
                  match exec no_flags re_simple_rel line with
                  | Some m =>
                      add_relationship st
                        {| entity1 := group_or_empty 1 m; entity2 := group_or_empty 2 m;
                           cardinality1 := "||"; cardinality2 := "o{";
                           r_label := option_map trim (capture 3 m) |}
                  | None => st
                  end
              end
          end
    end.

Definition format_attribute (a : Attribute) : string :=
  let keyStr :=
    match a_keys a with
    | [] => EmptyString
    | ks => " [" +++ join "," ks +++ "]"
    end in
  "- " +++ a_name a +++ ": " +++ a_type a +++ keyStr.

Definition formatEntityLabel (e : EREntity) : string :=
  match attributes e with
  | [] => e_name e
  | attrs => e_name e +++ nl +++ join nl (map format_attribute attrs)
  end.

Definition cardMap (c : string) : option string :=
  if String.eqb c "||" then Some "1"
  else if String.eqb c "|o" then Some "0..1"
  else if String.eqb c "o|" then Some "0..1"
  else if String.eqb c "oo" then Some "0..1"
  else if String.eqb c "}|" then Some "n"
  else if String.eqb c "|{" then Some "n"
  else if String.eqb c "}{" then Some "n"
  else if String.eqb c "}o" then Some "0..n"
  else if String.eqb c "o{" then Some "0..n"
  else None.

Definition formatCardinality (card1 card2 : string) : string :=
  let left := match cardMap card1 with Some x => x | None => card1 end in
  let right := match cardMap card2 with Some x => x | None => card2 end in
  left +++ ":" +++ right.

Definition node_of (d : ExcaliDirective) (e : EREntity) : ParsedNode :=
  {| id := e_name e; label := formatEntityLabel e; shape := rectangle;
     styleType := style_or (styles d) (e_name e) (Some (Style db)) |}.

Definition edge_of (r : ERRelationship) : ParsedEdge :=
  {| source := entity1 r; target := entity2 r;
     edge_label :=
       Some (match r_label r with
             | Some l => if is_empty l then formatCardinality (cardinality1 r) (cardinality2 r) else l
             | None => formatCardinality (cardinality1 r) (cardinality2 r)
             end);
     arrowType := arrow_head; lineStyle := None |}.

Definition parseERDiagram (mermaidSource : string) : ParsedDiagram :=
  let d := parseExcaliDirective mermaidSource in
  let st := fold_left step (Sequence.significant_lines mermaidSource) init in
  {| type := er; direction := LR;
     nodes := map (node_of d) (JsMap.values (entities st));
     edges := map edge_of (relationships st);
     subgraphs := [];
     directive := d; rawMermaid := mermaidSource |}.

End ER.

(* ================================================================== *)
(** * Flowchart parser (parser/flowchart.ts) *)
(* ================================================================== *)

Module Flowchart.
Import JsString Regex Types Directive Diagram.

(** An identifier: [A-Za-z_] followed by any number of [A-Za-z0-9_]. *)
Definition ident : regex := Seq ident_start (Star true word).

(** A delimiter pair around a lazily matched, non-empty label:
    [open(.+?)close]. *)
Definition delimited (op cl : string) : regex :=
  Seqs [Lit op; Grp 1 (Plus false dot); Lit cl].

Definition SHAPE_PATTERNS : list (regex * NodeShape) :=
  [ (delimited "[(" ")]", cylinder);
    (delimited "([" "])", stadium);
    (delimited "{{" "}}", hexagon);
    (delimited "((" "))", ellipse);
    (delimited "{" "}", diamond);
    (delimited "[" "]", rectangle);
    (delimited "(" ")", ellipse) ].

Record RawNode : Type :=
  { rn_id : string; rn_label : string; rn_shape : NodeShape }.

Record RawEdge : Type :=
  { re_source : string; re_target : string; re_label : option string }.

Record RawSubgraph : Type :=
  { rs_id : string; rs_label : string; rs_nodes : list string }.

(** [/(?:flowchart|graph)\s+(TD|TB|LR|RL|BT)/i] *)
Definition re_direction : regex :=
  Seqs [Alt (Lit "flowchart") (Lit "graph"); Plus true space;
        Grp 1 (Alts [Lit "TD"; Lit "TB"; Lit "LR"; Lit "RL"; Lit "BT"])].

Definition parseDirection (headerLine : string) : Direction :=
  match exec flag_i re_direction headerLine with
  | Some m =>
      let d := toUpperCase (group_or_empty 1 m) in
      if String.eqb d "TB" then TB
      else if String.eqb d "LR" then LR
      else if String.eqb d "RL" then RL
      else if String.eqb d "BT" then BT
      else TD
  | None => TD
  end.

(** [/\b(ident)\s*(?:\[|\(|\{|$|-->|---)/g], with [ident] as above *)
Definition re_node_id : regex :=
  Seqs [WordB; Grp 1 ident; Star true space;
        Alts [Chr "["; Chr "("; Chr "{"; Eol; Lit "-->"; Lit "---"]].

Definition keywords : list string :=
  ["subgraph"; "end"; "flowchart"; "graph"; "direction"].

Definition extractNodeIds (line : string) : list string :=
  filter (fun i => negb (mem (toLowerCase i) keywords))
         (map (group_or_empty 1) (match_all no_flags re_node_id line)).

(** [/^subgraph\s+(\w+)(?:\s*\[(.+?)\])?/] *)
Definition re_subgraph : regex :=
  Seqs [Bol; Lit "subgraph"; Plus true space; Grp 1 (Plus true word);
        Opt (Seqs [Star true space; Chr "["; Grp 2 (Plus false dot); Chr "]"])].

Record sg_state : Type :=
  { done : list RawSubgraph; currentSubgraph : option RawSubgraph; depth : Z }.

Definition push_new (ids : list string) (i : string) : list string :=
  if mem i ids then ids else ids ++ [i].

Definition sg_step (st : sg_state) (line : string) : sg_state :=
  let trimmed := trim line in
  match exec no_flags re_subgraph trimmed with
  | Some m =>
      {| done := done st;
         currentSubgraph :=
           if (depth st =? 0)%Z then
             Some {| rs_id := group_or_empty 1 m;
                     rs_label := if is_empty (group_or_empty 2 m)
                                 then group_or_empty 1 m else group_or_empty 2 m;
                     rs_nodes := [] |}
           else currentSubgraph st;
         depth := (depth st + 1)%Z |}
  | None =>
      if String.eqb trimmed "end" then
        let d := (depth st - 1)%Z in
        match (d =? 0)%Z, currentSubgraph st with
        | true, Some sg =>
            {| done := done st ++ [sg]; currentSubgraph := None; depth := d |}
        | _, _ =>
            {| done := done st; currentSubgraph := currentSubgraph st; depth := d |}
        end
      else
        match currentSubgraph st, (depth st =? 1)%Z with
        | Some sg, true =>
            {| done := done st;
               currentSubgraph :=
                 Some {| rs_id := rs_id sg; rs_label := rs_label sg;
                         rs_nodes := fold_left push_new (extractNodeIds trimmed) (rs_nodes sg) |};
               depth := depth st |}
        | _, _ => st
        end
  end.

Definition parseSubgraphs (source : string) : list RawSubgraph :=
  done (fold_left sg_step (split LF source)
                  {| done := []; currentSubgraph := None; depth := 0%Z |}).

(** [/^(ident)\s*/] *)
Definition re_id_prefix : regex := Seqs [Bol; Grp 1 ident; Star true space].

(** [/^(ident)$/] *)
Definition re_plain : regex := Seqs [Bol; Grp 1 ident; Eol].

Fixpoint try_shapes (nid rest : string) (ps : list (regex * NodeShape)) : option RawNode :=
  match ps with
  | [] => None
  | (pattern, shape) :: ps' =>
      match exec no_flags pattern rest with
      | Some m =>
          Some {| rn_id := nid; rn_label := trim (group_or_empty 1 m); rn_shape := shape |}
      | None => try_shapes nid rest ps'
      end
  end.

Definition parseNodeDefinition (text : string) : option RawNode :=
  let shaped :=
    match exec no_flags re_id_prefix text with
    | Some m => try_shapes (group_or_empty 1 m) (slice (length (matched m)) text) SHAPE_PATTERNS
    | None => None
    end in
  match shaped with
  | Some n => Some n
  | None =>
      match exec no_flags re_plain text with
      | Some m =>
          Some {| rn_id := group_or_empty 1 m; rn_label := group_or_empty 1 m;
                  rn_shape := rectangle |}
      | None => None
      end
  end.

(** [(\s*(?:\[.*?\]|\(.*?\)|\{.*?\})?)?] as capturing group [n]. *)
Definition inline_shape (n : nat) : regex :=
  Opt (Grp n (Seq (Star true space)
                  (Opt (Alts [Seqs [Chr "["; Star false dot; Chr "]"];
                              Seqs [Chr "("; Star false dot; Chr ")"];
                              Seqs [Chr "{"; Star false dot; Chr "}"]])))).

(** The edge-line pattern: source id, optional inline shape, [-->] or [---],
    optional [|label|], target id, optional inline shape. *)
Definition re_edge : regex :=
  Seqs [Bol; Grp 1 ident; inline_shape 2; Star true space;
        Grp 3 (Alt (Lit "-->") (Lit "---"));
        Opt (Seqs [Chr "|"; Grp 4 (Plus false dot); Chr "|"]);
        Star true space; Grp 5 ident; inline_shape 6; Eol].

Record EdgeResult : Type :=
  { sourceNode : option RawNode; targetNode : option RawNode; edge : RawEdge }.

Definition endpoint (nid : string) (shape : option string) : option RawNode :=
  match shape with
  | Some sh =>
      if is_empty sh
      then Some {| rn_id := nid; rn_label := nid; rn_shape := rectangle |}
      else parseNodeDefinition (nid +++ sh)
  | None => Some {| rn_id := nid; rn_label := nid; rn_shape := rectangle |}
  end.

Definition parseEdgeLine (line : string) : option EdgeResult :=
  match exec no_flags re_edge line with
  | None => None
  | Some m =>
      let sourceId := group_or_empty 1 m in
      let targetId := group_or_empty 5 m in
      Some {| sourceNode := endpoint sourceId (capture 2 m);
              targetNode := endpoint targetId (capture 6 m);
              edge := {| re_source := sourceId; re_target := targetId;
                         re_label := option_map trim (capture 4 m) |} |}
  end.

Definition add_node (n : option RawNode) (m : JsMap.t RawNode) : JsMap.t RawNode :=
  match n with
  | Some node => if JsMap.has m (rn_id node) then m else JsMap.set m (rn_id node) node
  | None => m
  end.

Record state : Type := { nodesMap : JsMap.t RawNode; raw_edges : list RawEdge }.

Definition step (st : state) (line : string) : state :=
  if startsWith line "subgraph" || String.eqb line "end" then st
  else
    match parseEdgeLine line with
    | Some r =>
        {| nodesMap := add_node (targetNode r) (add_node (sourceNode r) (nodesMap st));
           raw_edges := raw_edges st ++ [edge r] |}
    | None =>
        {| nodesMap := add_node (parseNodeDefinition line) (nodesMap st);
           raw_edges := raw_edges st |}
    end.

Definition node_of (d : ExcaliDirective) (n : RawNode) : ParsedNode :=
  {| id := rn_id n; label := rn_label n; shape := rn_shape n;
     styleType :=
       Styles.resolveStyle (rn_id n) (rn_label n) (shape_name (rn_shape n)) (styles d) |}.

Definition edge_of (e : RawEdge) : ParsedEdge :=
  {| source := re_source e; target := re_target e; edge_label := re_label e;
     arrowType := arrow_head; lineStyle := None |}.

Definition subgraph_of (d : ExcaliDirective) (sg : RawSubgraph) : ParsedSubgraph :=
  {| sg_id := rs_id sg; sg_label := rs_label sg; sg_nodes := rs_nodes sg;
     sg_styleType := style_or (styles d) (rs_id sg) (Some (Style group)) |}.

Definition parseFlowchart (mermaidSource : string) : ParsedDiagram :=
  let d := parseExcaliDirective mermaidSource in
  let cleanSource := stripExcaliDirective mermaidSource in
  let lines := Sequence.significant_lines cleanSource in
  let headerLine := match lines with l :: _ => l | [] => EmptyString end in
  let st := fold_left step (tl lines) {| nodesMap := []; raw_edges := [] |} in
  {| type := flowchart; direction := parseDirection headerLine;
     nodes := map (node_of d) (JsMap.values (nodesMap st));
     edges := map edge_of (raw_edges st);
     subgraphs := map (subgraph_of d) (parseSubgraphs cleanSource);
     directive := d; rawMermaid := mermaidSource |}.

End Flowchart.

(* ================================================================== *)
(** * Layout engine (converter/layout.ts) *)
(* ================================================================== *)

(** JavaScript numbers are modelled as rationals: every layout quantity is an
  integer or a half-integer. *)
Module Layout.
Import JsString Types Diagram.
Local Open Scope Q_scope.

Definition num : Type := Q.
Definition of_nat (n : nat) : num := inject_Z (Z.of_nat n).
Definition max (a b : num) : num := if Qle_bool a b then b else a.
Definition min (a b : num) : num := if Qle_bool a b then a else b.
Definition abs (a : num) : num := Qabs.Qabs a.
Definition lt (a b : num) : bool := negb (Qle_bool b a).

(** [Math.max(...l)] and [Math.min(...l)] for a non-empty [x :: l]. *)
Definition max_list (x : num) (l : list num) : num := fold_left max l x.
Definition min_list (x : num) (l : list num) : num := fold_left min l x.

Record LayoutNode : Type :=
  { ln_id : string; x : num; y : num; width : num; height : num }.

Record Point : Type := { px : num; py : num }.

Record LayoutEdge : Type :=
  { le_source : string; le_target : string; points : list Point;
    le_label : option string; le_lineStyle : option LineStyle }.

Record LayoutSubgraph : Type :=
  { ls_id : string; ls_x : num; ls_y : num; ls_width : num; ls_height : num;
    ls_label : string }.

(** The [width] and [height] of the whole drawing are not modelled: the
    synthesizer never reads them. *)
Record LayoutResult : Type :=
  { l_nodes : JsMap.t LayoutNode; l_edges : list LayoutEdge;
    l_subgraphs : list LayoutSubgraph }.

Definition DEFAULT_NODE_WIDTH : num := 160.
Definition DEFAULT_NODE_HEIGHT : num := 60.
Definition HORIZONTAL_GAP : num := 80.
Definition VERTICAL_GAP : num := 100.
Definition SUBGRAPH_PADDING : num := 40.
Definition LABEL_HEIGHT : num := 30.
Definition SEQUENCE_MESSAGE_GAP : num := 60.

Definition max_nat_list (l : list nat) : nat := fold_left Nat.max l 0%nat.

Definition calculateNodeSize (label : string) : num * num :=
  let lines := split LF label in
  let maxLineLength := max_nat_list (map String.length lines) in
  (max DEFAULT_NODE_WIDTH (of_nat maxLineLength * 9 + 20),
   max DEFAULT_NODE_HEIGHT (of_nat (List.length lines) * 20 + 20)).

(** ** Sequence diagrams *)

Definition place_participant (acc : JsMap.t LayoutNode * num) (node : ParsedNode)
  : JsMap.t LayoutNode * num :=
  let '(nodePositions, x0) := acc in
  let size := calculateNodeSize (label node) in
  (JsMap.set nodePositions (id node)
     {| ln_id := id node; x := x0; y := 0;
        width := max (fst size) 120; height := snd size |},
   x0 + (max (fst size) 120 + HORIZONTAL_GAP + 40)).

Definition place_message (nodePositions : JsMap.t LayoutNode)
           (acc : list LayoutEdge * num) (e : ParsedEdge) : list LayoutEdge * num :=
  let '(layoutEdges, messageY) := acc in
  match JsMap.get nodePositions (source e), JsMap.get nodePositions (target e) with
  | Some s, Some t =>
      (layoutEdges ++
         [{| le_source := source e; le_target := target e;
             points := [{| px := x s + width s / 2; py := messageY |};
                        {| px := x t + width t / 2; py := messageY |}];
             le_label := edge_label e; le_lineStyle := None |}],
       messageY + SEQUENCE_MESSAGE_GAP)
  | _, _ => acc
  end.

Definition layoutSequenceDiagram (diagram : ParsedDiagram) : LayoutResult :=
  let nodePositions := fst (fold_left place_participant (nodes diagram) ([], 0)) in
  let layoutEdges :=
    fst (fold_left (place_message nodePositions) (edges diagram)
                   ([], DEFAULT_NODE_HEIGHT + 60)) in
  {| l_nodes := nodePositions; l_edges := layoutEdges; l_subgraphs := [] |}.

(** ** Generic edge routing *)

(** [(index % 3 - 1) * 15] *)
Definition edge_offset (index : nat) : num := (of_nat (index mod 3) - 1) * 15.

Definition layoutEdgeGenericWithOffset (e : ParsedEdge)
           (nodePositions : JsMap.t LayoutNode) (index : nat) : LayoutEdge :=
  match JsMap.get nodePositions (source e), JsMap.get nodePositions (target e) with
  | Some s, Some t =>
      let offset := edge_offset index in
      let sourceCenterX := x s + width s / 2 in
      let sourceCenterY := y s + height s / 2 in
      let targetCenterX := x t + width t / 2 in
      let targetCenterY := y t + height t / 2 in
      let dx := targetCenterX - sourceCenterX in
      let dy := targetCenterY - sourceCenterY in
      let '(start, finish) :=
        if lt (abs dy) (abs dx) then
          if lt 0 dx
          then ({| px := x s + width s; py := sourceCenterY + offset |},
                {| px := x t; py := targetCenterY + offset |})
          else ({| px := x s; py := sourceCenterY + offset |},
                {| px := x t + width t; py := targetCenterY + offset |})
        else
          if lt 0 dy
          then ({| px := sourceCenterX + offset; py := y s + height s |},
                {| px := targetCenterX + offset; py := y t |})
          else ({| px := sourceCenterX + offset; py := y s |},
                {| px := targetCenterX + offset; py := y t + height t |}) in
      {| le_source := source e; le_target := target e; points := [start; finish];
         le_label := edge_label e; le_lineStyle := None |}
  | _, _ =>
      {| le_source := source e; le_target := target e; points := [];
         le_label := edge_label e; le_lineStyle := None |}
  end.

(** [edges.map((edge, index) => f(edge, index))] *)
Fixpoint mapi_from {A B} (f : A -> nat -> B) (i : nat) (l : list A) : list B :=
  match l with
  | [] => []
  | a :: l' => f a i :: mapi_from f (S i) l'
  end.

(** ** Entity-relationship diagrams *)

(** [Math.min(4, Math.ceil(Math.sqrt(n) * 1.5))]: the least [k] with
    [4 k^2 >= 9 n], capped at 4. *)
Definition er_cols (n : nat) : nat :=
  if (9 * n <=? 0)%nat then 0%nat
  else if (9 * n <=? 4)%nat then 1%nat
  else if (9 * n <=? 16)%nat then 2%nat
  else if (9 * n <=? 36)%nat then 3%nat
  else 4%nat.

Record er_cursor : Type :=
  { er_positions : JsMap.t LayoutNode; er_maxRowHeight : num;
    er_x : num; er_y : num; er_col : nat }.

Definition er_place (cols : nat) (sizes : JsMap.t (num * num))
           (c : er_cursor) (node : ParsedNode) : er_cursor :=
  let size := match JsMap.get sizes (id node) with
              | Some sz => sz
              | None => calculateNodeSize (label node)  (* every id was just stored *)
              end in
  let positions :=
    JsMap.set (er_positions c) (id node)
      {| ln_id := id node; x := er_x c; y := er_y c;
         width := fst size; height := snd size |} in
  let maxRowHeight := max (er_maxRowHeight c) (snd size) in
  let col := S (er_col c) in
  if (cols <=? col)%nat then
    {| er_positions := positions; er_maxRowHeight := 0; er_x := 0;
       er_y := er_y c + (maxRowHeight + (VERTICAL_GAP + 40)); er_col := 0 |}
  else
    {| er_positions := positions; er_maxRowHeight := maxRowHeight;
       er_x := er_x c + (fst size + (HORIZONTAL_GAP + 60));
       er_y := er_y c; er_col := col |}.

Definition layoutERDiagram (diagram : ParsedDiagram) : LayoutResult :=
  let sizes :=
    fold_left (fun m node => JsMap.set m (id node) (calculateNodeSize (label node)))
              (nodes diagram) [] in
  let cols := er_cols (List.length (nodes diagram)) in
  let nodePositions :=
    er_positions
      (fold_left (er_place cols sizes) (nodes diagram)
         {| er_positions := []; er_maxRowHeight := 0; er_x := 0; er_y := 0;
            er_col := 0 |}) in
  {| l_nodes := nodePositions;
     l_edges := mapi_from (fun e i => layoutEdgeGenericWithOffset e nodePositions i)
                          0 (edges diagram);
     l_subgraphs := [] |}.

(** ** Flowcharts *)

Record Adjacent : Type := { incoming : list string; outgoing : list string }.

Definition add_outgoing (k t : string) (m : JsMap.t Adjacent) : JsMap.t Adjacent :=
  match JsMap.get m k with
  | Some a => JsMap.set m k {| incoming := incoming a; outgoing := outgoing a ++ [t] |}
  | None => m
  end.

Definition add_incoming (k s : string) (m : JsMap.t Adjacent) : JsMap.t Adjacent :=
  match JsMap.get m k with
  | Some a => JsMap.set m k {| incoming := incoming a ++ [s]; outgoing := outgoing a |}
  | None => m
  end.

Definition buildAdjacency (nodes : list ParsedNode) (edges : list ParsedEdge)
  : JsMap.t Adjacent :=
  let empty :=
    fold_left (fun m node => JsMap.set m (id node) {| incoming := []; outgoing := [] |})
              nodes [] in
  fold_left (fun m e => add_incoming (target e) (source e)
                          (add_outgoing (source e) (target e) m))
            edges empty.

Definition is_root (adjacency : JsMap.t Adjacent) (n : ParsedNode) : bool :=
  match JsMap.get adjacency (id n) with
  | Some adj => (List.length (incoming adj) =? 0)%nat
  | None => true
  end.

(** The [while (queue.length > 0)] loop; each iteration uses one unit of
    fuel, and [None] means the fuel ran out before the queue was empty. *)
Fixpoint bfs (fuel : nat) (adjacency : JsMap.t Adjacent)
         (queue : list (string * nat)) (visited : list string)
         (depths : JsMap.t nat) : option (JsMap.t nat) :=
  match queue with
  | [] => Some depths
  | (i, depth) :: queue' =>
      match fuel with
      | O => None
      | S fuel' =>
          if mem i visited then
            let currentDepth := match JsMap.get depths i with Some d => d | None => 0%nat end in
            bfs fuel' adjacency queue' visited
                (if (currentDepth <? depth)%nat then JsMap.set depths i depth else depths)
          else
            let pushed :=
              match JsMap.get adjacency i with
              | Some adj => map (fun targetId => (targetId, S depth)) (outgoing adj)
              | None => []
              end in
            bfs fuel' adjacency (queue' ++ pushed) (i :: visited)
                (JsMap.set depths i depth)
      end
  end.

(** Every entry whose key is still unvisited may push its successors once. *)
Definition pending (adjacency : JsMap.t Adjacent) (visited : list string) : nat :=
  list_sum (map (fun kv => if mem (fst kv) visited then 0%nat
                           else List.length (outgoing (snd kv))) adjacency).

Definition default_depths (nodes : list ParsedNode) (depths : JsMap.t nat) : JsMap.t nat :=
  fold_left (fun d node => if JsMap.has d (id node) then d else JsMap.set d (id node) 0%nat)
            nodes depths.

Definition calculateDepths (nodes : list ParsedNode) (adjacency : JsMap.t Adjacent)
  : option (JsMap.t nat) :=
  let roots := filter (is_root adjacency) nodes in
  let queue := map (fun r => (id r, 0%nat)) roots in
  match bfs (List.length queue + pending adjacency []) adjacency queue [] [] with
  | Some depths => Some (default_depths nodes depths)
  | None => None
  end.

(** [groups[depth].push(node)]; out of range the access is [undefined] and
    the call throws, which is [None] here. *)
Fixpoint push_at {A} (groups : list (list A)) (depth : nat) (a : A)
  : option (list (list A)) :=
  match groups, depth with
  | [], _ => None
  | g :: gs, O => Some ((g ++ [a]) :: gs)
  | g :: gs, S d =>
      match push_at gs d a with
      | Some gs' => Some (g :: gs')
      | None => None
      end
  end.

Fixpoint push_all (depths : JsMap.t nat) (nodes : list ParsedNode)
         (groups : list (list ParsedNode)) : option (list (list ParsedNode)) :=
  match nodes with
  | [] => Some groups
  | node :: nodes' =>
      let depth := match JsMap.get depths (id node) with Some d => d | None => 0%nat end in
      match push_at groups depth node with
      | Some groups' => push_all depths nodes' groups'
      | None => None
      end
  end.

(** [Math.max(...depths.values())] is [-Infinity] for an empty map, and
    [Array.from({ length: -Infinity })] is empty. *)
Definition groupByDepth (nodes : list ParsedNode) (depths : JsMap.t nat)
  : option (list (list ParsedNode)) :=
  let groups :=
    match JsMap.values depths with
    | [] => []
    | _ => repeat [] (S (max_nat_list (JsMap.values depths)))
    end in
  push_all depths nodes groups.

Definition place_node (isHorizontal isReverse : bool) (rows : nat)
           (startOffset : num) (depthIndex : nat)
           (m : JsMap.t LayoutNode) (node : ParsedNode) (colIndex : nat)
  : JsMap.t LayoutNode :=
  let x0 := if isHorizontal
            then of_nat depthIndex * (DEFAULT_NODE_WIDTH + HORIZONTAL_GAP)
            else startOffset + of_nat colIndex * (DEFAULT_NODE_WIDTH + HORIZONTAL_GAP) in
  let y0 := if isHorizontal
            then startOffset + of_nat colIndex * (DEFAULT_NODE_HEIGHT + VERTICAL_GAP)
            else of_nat depthIndex * (DEFAULT_NODE_HEIGHT + VERTICAL_GAP) in
  let maxDepth := of_nat rows - 1 in
  let x1 := if isReverse && isHorizontal
            then (maxDepth - of_nat depthIndex) * (DEFAULT_NODE_WIDTH + HORIZONTAL_GAP)
            else x0 in
  let y1 := if isReverse && negb isHorizontal
            then (maxDepth - of_nat depthIndex) * (DEFAULT_NODE_HEIGHT + VERTICAL_GAP)
            else y0 in
  JsMap.set m (id node)
    {| ln_id := id node; x := x1; y := y1;
       width := DEFAULT_NODE_WIDTH; height := DEFAULT_NODE_HEIGHT |}.

Fixpoint place_row (f : JsMap.t LayoutNode -> ParsedNode -> nat -> JsMap.t LayoutNode)
         (colIndex : nat) (rowNodes : list ParsedNode) (m : JsMap.t LayoutNode)
  : JsMap.t LayoutNode :=
  match rowNodes with
  | [] => m
  | node :: rest => place_row f (S colIndex) rest (f m node colIndex)
  end.

Fixpoint place_rows (isHorizontal isReverse : bool) (rows maxNodesInRow : nat)
         (depthIndex : nat) (nodesByDepth : list (list ParsedNode))
         (m : JsMap.t LayoutNode) : JsMap.t LayoutNode :=
  match nodesByDepth with
  | [] => m
  | rowNodes :: more =>
      let unit := DEFAULT_NODE_WIDTH + HORIZONTAL_GAP in
      let rowWidth := of_nat (List.length rowNodes) * unit - HORIZONTAL_GAP in
      let startOffset := ((of_nat maxNodesInRow * unit - HORIZONTAL_GAP) - rowWidth) / 2 in
      place_rows isHorizontal isReverse rows maxNodesInRow (S depthIndex) more
        (place_row (place_node isHorizontal isReverse rows startOffset depthIndex)
                   0 rowNodes m)
  end.

Definition layoutSubgraph (sg : ParsedSubgraph) (nodePositions : JsMap.t LayoutNode)
  : LayoutSubgraph :=
  let nodeLayouts :=
    flat_map (fun i => match JsMap.get nodePositions i with
                       | Some n => [n]
                       | None => []
                       end) (sg_nodes sg) in
  match nodeLayouts with
  | [] =>
      {| ls_id := sg_id sg; ls_x := 0; ls_y := 0;
         ls_width := DEFAULT_NODE_WIDTH + SUBGRAPH_PADDING * 2;
         ls_height := DEFAULT_NODE_HEIGHT + SUBGRAPH_PADDING * 2 + LABEL_HEIGHT;
         ls_label := sg_label sg |}
  | n :: ns =>
      let minX := min_list (x n) (map x ns) in
      let minY := min_list (y n) (map y ns) in
      let maxX := max_list (x n + width n) (map (fun n => x n + width n) ns) in
      let maxY := max_list (y n + height n) (map (fun n => y n + height n) ns) in
      {| ls_id := sg_id sg;
         ls_x := minX - SUBGRAPH_PADDING;
         ls_y := minY - SUBGRAPH_PADDING - LABEL_HEIGHT;
         ls_width := maxX - minX + SUBGRAPH_PADDING * 2;
         ls_height := maxY - minY + SUBGRAPH_PADDING * 2 + LABEL_HEIGHT;
         ls_label := sg_label sg |}
  end.

Definition layoutEdge (e : ParsedEdge) (nodePositions : JsMap.t LayoutNode)
           (isHorizontal : bool) : LayoutEdge :=
  match JsMap.get nodePositions (source e), JsMap.get nodePositions (target e) with
  | Some s, Some t =>
      let '(start, finish) :=
        if isHorizontal then
          if lt (x s) (x t)
          then ({| px := x s + width s; py := y s + height s / 2 |},
                {| px := x t; py := y t + height t / 2 |})
          else ({| px := x s; py := y s + height s / 2 |},
                {| px := x t + width t; py := y t + height t / 2 |})
        else
          if lt (y s) (y t)
          then ({| px := x s + width s / 2; py := y s + height s |},
                {| px := x t + width t / 2; py := y t |})
          else ({| px := x s + width s / 2; py := y s |},
                {| px := x t + width t / 2; py := y t + height t |}) in
      {| le_source := source e; le_target := target e; points := [start; finish];
         le_label := edge_label e; le_lineStyle := lineStyle e |}
  | _, _ =>
      {| le_source := source e; le_target := target e; points := [];
         le_label := edge_label e; le_lineStyle := lineStyle e |}
  end.

Definition is_horizontal (d : Direction) : bool :=
  match d with LR | RL => true | _ => false end.
Definition is_reverse (d : Direction) : bool :=
  match d with RL | BT => true | _ => false end.

Definition layoutFlowchart (diagram : ParsedDiagram) : option LayoutResult :=
  let isHorizontal := is_horizontal (direction diagram) in
  let isReverse := is_reverse (direction diagram) in
  let adjacency := buildAdjacency (nodes diagram) (edges diagram) in
  match calculateDepths (nodes diagram) adjacency with
  | None => None
  | Some depths =>
      match groupByDepth (nodes diagram) depths with
      | None => None
      | Some nodesByDepth =>
          let maxNodesInRow := max_nat_list (map (@List.length _) nodesByDepth) in
          let nodePositions :=
            place_rows isHorizontal isReverse (List.length nodesByDepth)
                       maxNodesInRow 0 nodesByDepth [] in
          Some {| l_nodes := nodePositions;
                  l_edges := map (fun e => layoutEdge e nodePositions isHorizontal)
                                 (edges diagram);
                  l_subgraphs := map (fun sg => layoutSubgraph sg nodePositions)
                                     (subgraphs diagram) |}
      end
  end.

(** The dispatcher; [None] when the layout does not return. *)
Definition layoutDiagram (diagram : ParsedDiagram) : option LayoutResult :=
  match type diagram with
  | sequence => Some (layoutSequenceDiagram diagram)
  | er => Some (layoutERDiagram diagram)
  | _ => layoutFlowchart diagram
  end.

End Layout.

(* ================================================================== *)
(** * Draw primitives (converter/elements.ts) *)
(* ================================================================== *)

Module Elements.
Import JsString Types Directive Diagram Layout Styles.
Local Open Scope Q_scope.

Inductive ElementType : Type := t_rectangle | t_ellipse | t_arrow | t_line | t_text.

Record Binding : Type :=
  { elementId : string; focus : num; gap : num }.   (* [fixedPoint] is always null *)

Record ArrowBindings : Type :=
  { ab_start : option Binding; ab_end : option Binding }.

(** The fields of an [ExcalidrawElement] that vary; the constant ones
    (angle, fill style, roughness, opacity, ...) and the time stamp are left
    out.  A binding that is [null] or absent is [None]. *)
Record Element : Type :=
  { e_id : string; e_type : ElementType;
    e_x : num; e_y : num; e_width : num; e_height : num;
    e_strokeColor : string; e_backgroundColor : string;
    e_strokeWidth : num; e_strokeStyle : LineStyle;
    index : string; rounded : bool; seed : nat;
    boundElements : list (string * ElementType);
    e_text : option string; fontSize : option num;
    textAlign : option string; verticalAlign : option string;
    e_points : option (list (num * num));
    startBinding : option Binding; endBinding : option Binding;
    endArrowhead : option string }.

(** The process-wide state: the seed counter, and the identifiers that
    [Math.random] will produce, one per call of [generateId]. *)
Record World : Type := { seedCounter : nat; random_ids : nat -> string }.

Definition M (A : Type) : Type := World -> A * World.
Definition ret {A} (a : A) : M A := fun w => (a, w).
Definition bind {A B} (m : M A) (f : A -> M B) : M B :=
  fun w => let '(a, w') := m w in f a w'.

Notation "x <- m ;; k" := (bind m (fun x => k))
  (at level 61, m at next level, right associativity).

Fixpoint foldM {A S} (f : S -> A -> M S) (l : list A) (s : S) : M S :=
  match l with
  | [] => ret s
  | a :: l' => s' <- f s a ;; foldM f l' s'
  end.

Definition generateSeed : M nat :=
  fun w => (seedCounter w,
            {| seedCounter := S (seedCounter w); random_ids := random_ids w |}).

Definition generateId : M string :=
  fun w => (random_ids w 0%nat,
            {| seedCounter := seedCounter w;
               random_ids := fun n => random_ids w (S n) |}).

Definition is_arrow_type (t : ElementType) : bool :=
  match t with t_arrow => true | _ => false end.

Definition createBaseElement (ty : ElementType) (x y width height : num)
           (idx : string) : M Element :=
  sd <- generateSeed ;;
  i <- generateId ;;
  ret {| e_id := i; e_type := ty; e_x := x; e_y := y;
         e_width := width; e_height := height;
         e_strokeColor := "#1e1e1e"; e_backgroundColor := "transparent";
         e_strokeWidth := 1; e_strokeStyle := solid;
         index := idx; rounded := is_arrow_type ty; seed := sd;
         boundElements := [];
         e_text := None; fontSize := None; textAlign := None; verticalAlign := None;
         e_points := None; startBinding := None; endBinding := None;
         endArrowhead := None |}.

Definition with_colors (e : Element) (stroke background : string) : Element :=
  {| e_id := e_id e; e_type := e_type e; e_x := e_x e; e_y := e_y e;
     e_width := e_width e; e_height := e_height e;
     e_strokeColor := stroke; e_backgroundColor := background;
     e_strokeWidth := e_strokeWidth e; e_strokeStyle := e_strokeStyle e;
     index := index e; rounded := rounded e; seed := seed e;
     boundElements := boundElements e;
     e_text := e_text e; fontSize := fontSize e; textAlign := textAlign e;
     verticalAlign := verticalAlign e; e_points := e_points e;
     startBinding := startBinding e; endBinding := endBinding e;
     endArrowhead := endArrowhead e |}.

Definition with_stroke (e : Element) (style : LineStyle) (w : num) : Element :=
  {| e_id := e_id e; e_type := e_type e; e_x := e_x e; e_y := e_y e;
     e_width := e_width e; e_height := e_height e;
     e_strokeColor := e_strokeColor e; e_backgroundColor := e_backgroundColor e;
     e_strokeWidth := w; e_strokeStyle := style;
     index := index e; rounded := rounded e; seed := seed e;
     boundElements := boundElements e;
     e_text := e_text e; fontSize := fontSize e; textAlign := textAlign e;
     verticalAlign := verticalAlign e; e_points := e_points e;
     startBinding := startBinding e; endBinding := endBinding e;
     endArrowhead := endArrowhead e |}.

Definition with_boundElements (e : Element) (b : list (string * ElementType)) : Element :=
  {| e_id := e_id e; e_type := e_type e; e_x := e_x e; e_y := e_y e;
     e_width := e_width e; e_height := e_height e;
     e_strokeColor := e_strokeColor e; e_backgroundColor := e_backgroundColor e;
     e_strokeWidth := e_strokeWidth e; e_strokeStyle := e_strokeStyle e;
     index := index e; rounded := rounded e; seed := seed e;
     boundElements := b;
     e_text := e_text e; fontSize := fontSize e; textAlign := textAlign e;
     verticalAlign := verticalAlign e; e_points := e_points e;
     startBinding := startBinding e; endBinding := endBinding e;
     endArrowhead := endArrowhead e |}.

Definition createRectangle (layout : LayoutNode) (node : ParsedNode) (idx : string)
  : M Element :=
  let colors := getStyleColors (styleType node) in
  base <- createBaseElement t_rectangle (x layout) (y layout) (width layout)
                            (height layout) idx ;;
  ret (with_colors base (strokeColor colors) (backgroundColor colors)).

Definition createEllipse (layout : LayoutNode) (node : ParsedNode) (idx : string)
  : M Element :=
  let colors := getStyleColors (styleType node) in
  base <- createBaseElement t_ellipse (x layout) (y layout) (width layout)
                            (height layout) idx ;;
  ret (with_colors base (strokeColor colors) (backgroundColor colors)).

Record TextOptions : Type :=
  { o_fontSize : option num; o_textAlign : option string;
    o_verticalAlign : option string; o_strokeColor : option string }.

Definition or_default {A} (o : option A) (d : A) : A :=
  match o with Some a => a | None => d end.

(** [Math.max(...lines.map(l => l.length))] *)
Definition max_line_length (text : string) : nat :=
  max_nat_list (map String.length (split LF text)).
Definition line_count (text : string) : nat := List.length (split LF text).

Definition createText (x y : num) (text idx : string) (options : TextOptions)
  : M Element :=
  let fs := or_default (o_fontSize options) 16 in
  let lineHeight := 5 # 4 in
  let w := of_nat (max_line_length text) * fs * (11 # 20) in
  let h := of_nat (line_count text) * fs * lineHeight in
  base <- createBaseElement t_text x y w h idx ;;
  i <- generateId ;;
  ret {| e_id := i; e_type := t_text; e_x := e_x base; e_y := e_y base;
         e_width := e_width base; e_height := e_height base;
         e_strokeColor := or_default (o_strokeColor options) "#1e1e1e";
         e_backgroundColor := e_backgroundColor base;
         e_strokeWidth := e_strokeWidth base; e_strokeStyle := e_strokeStyle base;
         index := index base; rounded := rounded base; seed := seed base;
         boundElements := boundElements base;
         e_text := Some text; fontSize := Some fs;
         textAlign := Some (or_default (o_textAlign options) "center");
         verticalAlign := Some (or_default (o_verticalAlign options) "middle");
         e_points := None; startBinding := None; endBinding := None;
         endArrowhead := None |}.

Record ArrowOptions : Type :=
  { bindings : ArrowBindings; ao_strokeStyle : LineStyle }.

Definition createArrow (edge : LayoutEdge) (idx : string) (options : ArrowOptions)
  : M Element :=
  match points edge with
  | startPoint :: _ :: _ =>
      let endPoint := List.last (points edge) startPoint in
      let relativePoints :=
        map (fun p => (px p - px startPoint, py p - py startPoint)) (points edge) in
      base <- createBaseElement t_arrow (px startPoint) (py startPoint)
                (abs (px endPoint - px startPoint))
                (abs (py endPoint - py startPoint)) idx ;;
      ret {| e_id := e_id base; e_type := t_arrow; e_x := e_x base; e_y := e_y base;
             e_width := e_width base; e_height := e_height base;
             e_strokeColor := "#1e1e1e";
             e_backgroundColor := e_backgroundColor base;
             e_strokeWidth := e_strokeWidth base;
             e_strokeStyle := ao_strokeStyle options;
             index := index base; rounded := rounded base; seed := seed base;
             boundElements := boundElements base;
             e_text := None; fontSize := None; textAlign := None;
             verticalAlign := None;
             e_points := Some relativePoints;
             startBinding := ab_start (bindings options);
             endBinding := ab_end (bindings options);
             endArrowhead := Some "arrow" |}
  | _ =>
      (* Fallback for empty edges *)
      createBaseElement t_arrow 0 0 0 0 idx
  end.

Record LineOptions : Type :=
  { lo_strokeColor : option string; lo_strokeStyle : option LineStyle;
    lo_strokeWidth : option num }.

Definition createLine (x1 y1 x2 y2 : num) (idx : string) (options : LineOptions)
  : M Element :=
  base <- createBaseElement t_line x1 y1 (abs (x2 - x1)) (abs (y2 - y1)) idx ;;
  ret {| e_id := e_id base; e_type := t_line; e_x := e_x base; e_y := e_y base;
         e_width := e_width base; e_height := e_height base;
         e_strokeColor := or_default (lo_strokeColor options) "#1e1e1e";
         e_backgroundColor := e_backgroundColor base;
         e_strokeWidth := or_default (lo_strokeWidth options) 1;
         e_strokeStyle := or_default (lo_strokeStyle options) solid;
         index := index base; rounded := rounded base; seed := seed base;
         boundElements := boundElements base;
         e_text := None; fontSize := None; textAlign := None; verticalAlign := None;
         e_points := Some [(0, 0); (x2 - x1, y2 - y1)];
         startBinding := None; endBinding := None; endArrowhead := None |}.

Definition createSubgraphRect (layout : LayoutSubgraph) (subgraph : ParsedSubgraph)
           (idx : string) : M Element :=
  let colors := getStyleColors (sg_styleType subgraph) in
  base <- createBaseElement t_rectangle (ls_x layout) (ls_y layout)
                            (ls_width layout) (ls_height layout) idx ;;
  ret (with_stroke (with_colors base (strokeColor colors) "transparent") dashed 2).

Definition nodeShapeToElement (layout : LayoutNode) (node : ParsedNode) (idx : string)
  : M Element :=
  match shape node with
  | ellipse | cylinder => createEllipse layout node idx
  | _ => createRectangle layout node idx
  end.

Record TextElementInfo : Type :=
  { ti_element : Element; ti_id : string; ti_text : string }.

Definition createNodeWithLabel (layout : LayoutNode) (node : ParsedNode)
           (shapeIndex textIndex : string) : M (Element * TextElementInfo) :=
  sh <- nodeShapeToElement layout node shapeIndex ;;
  let fs := 16 in
  let lineHeight := 5 # 4 in
  let textWidth := of_nat (max_line_length (label node)) * fs * (11 # 20) in
  let textHeight := of_nat (line_count (label node)) * fs * lineHeight in
  let textX := x layout + (width layout - textWidth) / 2 in
  let textY := y layout + (height layout - textHeight) / 2 in
  let align := if (1 <? line_count (label node))%nat then "left" else "center" in
  textElement <- createText textX textY (label node) textIndex
                   {| o_fontSize := None; o_textAlign := Some align;
                      o_verticalAlign := Some "top"; o_strokeColor := None |} ;;
  ret (sh, {| ti_element := textElement; ti_id := e_id textElement;
              ti_text := label node |}).

End Elements.

(* ================================================================== *)
(** * Scene synthesizer (converter/index.ts) *)
(* ================================================================== *)

Module Convert.
Import JsString Types Directive Diagram Layout Elements.
Local Open Scope Q_scope.

(** The local state of one conversion. *)
Record Scene : Type :=
  { elements : list Element;
    textInfos : list TextElementInfo;
    indexCounter : nat;
    nodeElementIds : JsMap.t string;
    arrowElements : list Element }.

Definition empty_scene : Scene :=
  {| elements := []; textInfos := []; indexCounter := 0;
     nodeElementIds := []; arrowElements := [] |}.

(** The token that [nextIndex()] returns when the counter stands at [n]. *)
Definition index_token (n : nat) : string := "a" +++ JsString.of_nat n.

Definition is_shape (e : Element) : bool :=
  match e_type e with t_rectangle | t_ellipse => true | _ => false end.
Definition is_arrow (e : Element) : bool := is_arrow_type (e_type e).

(** [elements.push(e)] for an element created with the next index token. *)
Definition push (sc : Scene) (e : Element) : Scene :=
  {| elements := elements sc ++ [e]; textInfos := textInfos sc;
     indexCounter := S (indexCounter sc);
     nodeElementIds := nodeElementIds sc; arrowElements := arrowElements sc |}.

Definition push_text (sc : Scene) (e : Element) (text : string) : Scene :=
  {| elements := elements sc ++ [e];
     textInfos := textInfos sc ++ [{| ti_element := e; ti_id := e_id e; ti_text := text |}];
     indexCounter := S (indexCounter sc);
     nodeElementIds := nodeElementIds sc; arrowElements := arrowElements sc |}.

Definition emit_subgraph (layout : LayoutResult) (sc : Scene) (sg : ParsedSubgraph)
  : M Scene :=
  match find (fun l => String.eqb (ls_id l) (sg_id sg)) (l_subgraphs layout) with
  | Some layoutSg =>
      sgRect <- createSubgraphRect layoutSg sg (index_token (indexCounter sc)) ;;
      let sc1 := push sc sgRect in
      labelText <- createText (ls_x layoutSg + 10) (ls_y layoutSg + 5) (ls_label layoutSg)
                     (index_token (indexCounter sc1))
                     {| o_fontSize := Some 14; o_textAlign := Some "left";
                        o_verticalAlign := None; o_strokeColor := Some "#495057" |} ;;
      ret (push_text sc1 labelText (ls_label layoutSg))
  | None => ret sc
  end.

Definition is_er (t : DiagramType) : bool :=
  match t with er => true | _ => false end.
Definition is_sequence (t : DiagramType) : bool :=
  match t with sequence => true | _ => false end.

Definition emit_node (diagram : ParsedDiagram) (layout : LayoutResult)
           (sc : Scene) (node : ParsedNode) : M Scene :=
  match JsMap.get (l_nodes layout) (id node) with
  | None => ret sc
  | Some layoutNode =>
      st <- createNodeWithLabel layoutNode node
              (index_token (indexCounter sc)) (index_token (S (indexCounter sc))) ;;
      let '(sh, text) := st in
      let sc1 :=
        {| elements := elements sc ++ [sh; ti_element text];
           textInfos := textInfos sc ++ [text];
           indexCounter := S (S (indexCounter sc));
           nodeElementIds := JsMap.set (nodeElementIds sc) (id node) (e_id sh);
           arrowElements := arrowElements sc |} in
      if is_er (type diagram) && includes (label node) nl then
        let lines := line_count (label node) in
        let firstLineHeight := 16 * (5 # 4) in
        let separatorY :=
          y layoutNode + (height layoutNode - of_nat lines * firstLineHeight) / 2
          + firstLineHeight + 2 in
        separatorLine <- createLine (x layoutNode + 8) separatorY
                           (x layoutNode + width layoutNode - 8) separatorY
                           (index_token (indexCounter sc1))
                           {| lo_strokeColor := Some "#868e96"; lo_strokeStyle := None;
                              lo_strokeWidth := Some 1 |} ;;
        ret (push sc1 separatorLine)
      else ret sc1
  end.

Definition emit_lifeline (layout : LayoutResult) (lifelineEndY : num)
           (sc : Scene) (node : ParsedNode) : M Scene :=
  match JsMap.get (l_nodes layout) (id node) with
  | None => ret sc
  | Some layoutNode =>
      let centerX := x layoutNode + width layoutNode / 2 in
      let startY := y layoutNode + height layoutNode in
      lifeline <- createLine centerX startY centerX lifelineEndY
                    (index_token (indexCounter sc))
                    {| lo_strokeColor := Some "#868e96"; lo_strokeStyle := Some dashed;
                       lo_strokeWidth := Some 1 |} ;;
      ret (push sc lifeline)
  end.

Definition edge_key (s t : string) : string := s +++ "->" +++ t.

(** A non-empty string is truthy. *)
Definition truthy (o : option string) : option string :=
  match o with
  | Some s => if is_empty s then None else Some s
  | None => None
  end.

Definition binding_to (i : option string) : option Binding :=
  match truthy i with
  | Some eid => Some {| elementId := eid; focus := 0; gap := 1 |}
  | None => None
  end.

Definition emit_edge (parsedEdgeMap : JsMap.t ParsedEdge)
           (sc : Scene) (layoutEdge : LayoutEdge) : M Scene :=
  let sourceElementId := JsMap.get (nodeElementIds sc) (le_source layoutEdge) in
  let targetElementId := JsMap.get (nodeElementIds sc) (le_target layoutEdge) in
  let b := {| ab_start := binding_to sourceElementId;
              ab_end := binding_to targetElementId |} in
  let parsedEdge :=
    JsMap.get parsedEdgeMap (edge_key (le_source layoutEdge) (le_target layoutEdge)) in
  let style :=
    match parsedEdge with
    | Some pe =>
        match lineStyle pe with
        | Some s => s
        | None => or_default (le_lineStyle layoutEdge) solid
        end
    | None => or_default (le_lineStyle layoutEdge) solid
    end in
  arrow <- createArrow layoutEdge (index_token (indexCounter sc))
             {| bindings := b; ao_strokeStyle := style |} ;;
  let sc1 :=
    {| elements := elements sc ++ [arrow]; textInfos := textInfos sc;
       indexCounter := S (indexCounter sc);
       nodeElementIds := nodeElementIds sc;
       arrowElements := arrowElements sc ++ [arrow] |} in
  match truthy (le_label layoutEdge), points layoutEdge with
  | Some lbl, p0 :: p1 :: _ =>
      let midX := (px p0 + px p1) / 2 in
      let midY := (py p0 + py p1) / 2 in
      labelText <- createText
                     (midX - (of_nat (String.length lbl) * 12 * (11 # 20)) / 2)
                     (midY - 10) lbl (index_token (indexCounter sc1))
                     {| o_fontSize := Some 12; o_textAlign := None;
                        o_verticalAlign := None; o_strokeColor := None |} ;;
      ret (push_text sc1 labelText lbl)
  | _, _ => ret sc1
  end.

Definition binds (shapeId : string) (arrow : Element) : bool :=
  match startBinding arrow with
  | Some b => String.eqb (elementId b) shapeId
  | None => false
  end
  ||
  match endBinding arrow with
  | Some b => String.eqb (elementId b) shapeId
  | None => false
  end.

(** The finishing pass over [elements]. *)
Definition reconcile (arrows : list Element) (element : Element) : Element :=
  if is_shape element then
    let boundArrows :=
      map (fun a => (e_id a, t_arrow)) (filter (binds (e_id element)) arrows) in
    match boundArrows with
    | [] => element
    | _ => with_boundElements element boundArrows
    end
  else element.

Record ConversionResult : Type :=
  { r_elements : list Element; r_textInfos : list TextElementInfo }.

(** The body of [convertToExcalidraw] once the layout is known. *)
Definition synthesize (diagram : ParsedDiagram) (layout : LayoutResult)
  : M ConversionResult :=
  sc1 <- foldM (emit_subgraph layout) (subgraphs diagram) empty_scene ;;
  sc2 <- foldM (emit_node diagram layout) (nodes diagram) sc1 ;;
  sc3 <- (if is_sequence (type diagram) then
            let maxMessageY :=
              fold_left (fun m e => fold_left (fun m p => max m (py p)) (points e) m)
                        (l_edges layout) 0 in
            foldM (emit_lifeline layout (maxMessageY + 80)) (nodes diagram) sc2
          else ret sc2) ;;
  let parsedEdgeMap :=
    fold_left (fun m e => JsMap.set m (edge_key (source e) (target e)) e)
              (edges diagram) [] in
  sc4 <- foldM (emit_edge parsedEdgeMap) (l_edges layout) sc3 ;;
  ret {| r_elements := map (reconcile (arrowElements sc4)) (elements sc4);
         r_textInfos := textInfos sc4 |}.

(** [convertToExcalidraw]; [None] when the layout does not return.  The
    text [obsidianContent], which the formatter renders from the elements,
    the text list and the raw source, is not modelled. *)
Definition convertToExcalidraw (diagram : ParsedDiagram) (w : World)
  : option (ConversionResult * World) :=
  match layoutDiagram diagram with
  | Some layout => Some (synthesize diagram layout w)
  | None => None
  end.

End Convert.

(* ================================================================== *)
(** * Dialect detection and the convert tool (src/index.ts) *)
(* ================================================================== *)

Module Server.
Import JsString Regex Types Directive Diagram.

(** [/^\s*%%\{excali/] *)
Definition re_leading_directive : regex :=
  Seqs [Bol; Star true space; Lit "%%{excali"].

(** [/%%\{excali:[\s\S]*?\}%%\s*/], without the global flag. *)
Definition re_directive_block : regex := re_strip.

(** [/^(flowchart|graph)\s/im] *)
Definition re_flowchart : regex :=
  Seqs [Bol; Grp 1 (Alt (Lit "flowchart") (Lit "graph")); space].

(** [/^sequenceDiagram/im] *)
Definition re_sequence : regex := Seq Bol (Lit "sequenceDiagram").

(** [/^erDiagram/im] *)
Definition re_er : regex := Seq Bol (Lit "erDiagram").

(** The classification of a text that does not start with a directive. *)
Definition classify (trimmed : string) : option DiagramType :=
  if test flag_im re_flowchart trimmed then Some flowchart
  else if test flag_im re_sequence trimmed then Some sequence
  else if test flag_im re_er trimmed then Some er
  else None.

(** [detectDiagramType] calls itself after removing a leading directive;
    [fuel] bounds the depth of that recursion and the outer [None] means
    that the bound was reached.  The inner [None] is JavaScript's [null]. *)
Fixpoint detectDiagramType (fuel : nat) (source : string)
  : option (option DiagramType) :=
  match fuel with
  | O => None
  | S fuel' =>
      let trimmed := trim source in
      if test no_flags re_leading_directive trimmed then
        detectDiagramType fuel'
          (replace_first no_flags re_directive_block EmptyString trimmed)
      else Some (classify trimmed)
  end.

Definition parseDiagram (source : string) (t : DiagramType) : ParsedDiagram :=
  match t with
  | sequence => Sequence.parseSequenceDiagram source
  | er => ER.parseERDiagram source
  | _ => Flowchart.parseFlowchart source
  end.

(** The replies of the [convert] tool. *)
Inductive Response : Type :=
| MissingSource : Response          (* "Error: mermaid source is required" *)
| UndetectedType : Response         (* "Error: Could not detect diagram type." *)
| ConversionError : Response        (* an exception caught by the handler *)
| Converted : ParsedDiagram -> Convert.ConversionResult -> Response
                                    (* the text [result.obsidianContent] *)
| Written : string -> Response.     (* the message after a write *)

(** The file system as the handler meets it: the paths for which
    [writeFile] fails, and the writes that went through, in order.  What is
    written is [result.obsidianContent], the document that the formatter
    renders from the conversion result and the raw source of the parsed
    diagram; the log holds the two in its place. *)
Record Disk : Type :=
  { refuses : string -> bool;
    writes : list (string * (ParsedDiagram * Convert.ConversionResult)) }.

(** [await writeFile(outputPath, result.obsidianContent, 'utf-8')]; [None]
    when the promise is rejected. *)
Definition writeFile (outputPath : string) (parsed : ParsedDiagram)
           (result : Convert.ConversionResult) (d : Disk) : option Disk :=
  if refuses d outputPath then None
  else Some {| refuses := refuses d;
               writes := writes d ++ [(outputPath, (parsed, result))] |}.

Definition type_name (t : DiagramType) : string :=
  match t with
  | flowchart => "flowchart" | sequence => "sequence" | er => "er" | class => "class"
  end.

(** The text of the reply after a write. *)
Definition written_message (outputPath : string) (diagramType : DiagramType)
           (parsed : ParsedDiagram) : string :=
  "Successfully wrote Excalidraw file to: " +++ outputPath +++ nl +++ nl +++
  "Type: " +++ type_name diagramType +++ nl +++
  "Nodes: " +++ JsString.of_nat (List.length (nodes parsed)) +++ nl +++
  "Edges: " +++ JsString.of_nat (List.length (edges parsed)) +++
  (if (0 <? List.length (subgraphs parsed))%nat
   then nl +++ "Subgraphs: " +++ JsString.of_nat (List.length (subgraphs parsed))
   else EmptyString).

(** The [convert] branch of the tool handler; [outputPath] is [None] when
    the argument is absent, and an empty path counts as absent.  Each
    recursive call of the detector that removes a block shortens the text,
    so a detection that returns at all returns within [length + 1] calls.
    Whatever is thrown inside the [try], by the detector, the converter or
    [writeFile], is answered by the [catch]. *)
Definition convert_tool (mermaidSource : string) (outputPath : option string)
           (w : Elements.World) (d : Disk)
  : Response * Elements.World * Disk :=
  if is_empty mermaidSource then (MissingSource, w, d)
  else
    match detectDiagramType (S (String.length mermaidSource)) mermaidSource with
    | None => (ConversionError, w, d)
    | Some None => (UndetectedType, w, d)
    | Some (Some diagramType) =>
        let parsed := parseDiagram mermaidSource diagramType in
        match Convert.convertToExcalidraw parsed w with
        | Some (result, w') =>
            match Convert.truthy outputPath with
            | Some path =>
                match writeFile path parsed result d with
                | Some d' => (Written (written_message path diagramType parsed), w', d')
                | None => (ConversionError, w', d)
                end
            | None => (Converted parsed result, w', d)
            end
        | None => (ConversionError, w, d)
        end
    end.

End Server.

(* ================================================================== *)
(** * Notions used to state the properties *)
(* ================================================================== *)

Module Notions.
Import JsString Regex Types Directive Diagram Layout Elements Convert Server.

(** ** Texts *)

(** A text that does not begin with white space. *)
Definition starts_clean (s : string) : Prop :=
  match s with
  | EmptyString => True
  | String c _ => is_space c = false
  end.

(** Removing a block can join the text around it into a new block. *)
Definition spliced : string := "%%{exc%%{excali:}%%ali:x}%%".

(** A flowchart that opens with a directive block. *)
Definition styled_flowchart : string :=
  "%%{excali: styles: {A: db}}%%
flowchart TD
  A --> B  ".

(** ** Parsers *)

(** Every entity is stored under its own name. *)
Definition named (m : JsMap.t ER.EREntity) : Prop :=
  Forall (fun kv => ER.e_name (snd kv) = fst kv) m.

(** Every raw node is stored under its own id. *)
Definition keyed (m : JsMap.t Flowchart.RawNode) : Prop :=
  Forall (fun kv => Flowchart.rn_id (snd kv) = fst kv) m.

(** A sequence diagram that declares [Alice] before and after her first
    message. *)
Definition declared_twice : string :=
  "sequenceDiagram
  participant Alice
  Alice->>Bob: Hello
  participant Alice".

(** A sequence diagram that declares [A], [B] and [A] again. *)
Definition redeclared : string :=
  "sequenceDiagram
  participant A
  participant B
  participant A".

(** The abscissa of a participant's column. *)
Definition column_x (l : Layout.LayoutResult) (i : string) : option Q :=
  option_map (fun n => Qred (Layout.x n)) (JsMap.get (Layout.l_nodes l) i).

(** An entity named like a member of [Object.prototype]. *)
Definition er_constructor : string :=
  "erDiagram
  constructor ||--|| ORDER : builds".

(** ** Layout *)

(** A path of [n] edges from [a] to [b]. *)
Inductive path (edges : list ParsedEdge) : string -> string -> nat -> Prop :=
| path_nil : forall a, path edges a a 0
| path_snoc : forall a b c n e,
    path edges a b n -> In e edges -> source e = b -> target e = c ->
    path edges a c (S n).

(** [A] reaches [D] by the edge pair [A-B-D] and by the chain [A-C-B-D]. *)
Definition two_routes : string :=
  "flowchart TD
A-->B
A-->C
C-->B
B-->D".

(** The ids of the nodes, row by row. *)
Definition row_ids (rows : option (list (list ParsedNode))) : option (list (list string)) :=
  option_map (map (map id)) rows.

(** [depths.get(node.id) ?? 0] *)
Definition depth_of (depths : JsMap.t nat) (n : ParsedNode) : nat :=
  match JsMap.get depths (id n) with Some d => d | None => 0 end.

(** Both endpoints of the edge are ids of nodes of the diagram. *)
Definition resolves (diagram : ParsedDiagram) (e : ParsedEdge) : bool :=
  mem (source e) (map id (nodes diagram)) && mem (target e) (map id (nodes diagram)).

(** ** Scenes *)

(** [bound_in sc new b]: the binding [b] refers to a shape that the id table
    of [sc] knows, or to a shape among [new]. *)
Definition bound_in (sc : Scene) (new : list Element) (b : Binding) : Prop :=
  (exists k, JsMap.get (nodeElementIds sc) k = Some (elementId b)) \/
  (exists s, In s new /\ is_shape s = true /\ e_id s = elementId b).

(** [b] is the start or the end binding of [e]. *)
Definition has_binding (e : Element) (b : Binding) : Prop :=
  startBinding e = Some b \/ endBinding e = Some b.

(** [sc'] extends [sc] by the primitives [new], among them [ns] shapes and
    [na] arrows. *)
Record extends_by (new : list Element) (ns na : nat) (sc sc' : Scene) : Prop :=
  { ext_elements : elements sc' = elements sc ++ new;
    ext_counter : indexCounter sc' = indexCounter sc + List.length new;
    ext_tokens :
      map index new = map index_token (seq (indexCounter sc) (List.length new));
    ext_arrows : arrowElements sc' = arrowElements sc ++ filter is_arrow new;
    ext_unbound : Forall (fun e => boundElements e = []) new;
    ext_bindings :
      Forall (fun e => forall b, has_binding e b ->
                                 is_arrow e = true /\ bound_in sc new b) new;
    ext_ids :
      forall k v, JsMap.get (nodeElementIds sc') k = Some v ->
                  JsMap.get (nodeElementIds sc) k = Some v \/
                  exists s, In s new /\ is_shape s = true /\ e_id s = v;
    ext_shapes : List.length (filter is_shape new) = ns;
    ext_arrow_count : List.length (filter is_arrow new) = na }.

(** [sc'] extends [sc] by some primitives, [ns] shapes and [na] arrows
    among them. *)
Definition step_ok (ns na : nat) (sc sc' : Scene) : Prop :=
  exists new, extends_by new ns na sc sc'.

(** A primitive that carries no binding and no back-reference. *)
Definition plain (e : Element) : Prop :=
  boundElements e = [] /\ startBinding e = None /\ endBinding e = None.

(** [layout.subgraphs.find(l => l.id === sg.id)] succeeds. *)
Definition found_subgraph (layout : LayoutResult) (sg : ParsedSubgraph) : bool :=
  match find (fun l => String.eqb (ls_id l) (sg_id sg)) (l_subgraphs layout) with
  | Some _ => true
  | None => false
  end.

(** [layout.nodes.get(node.id)] succeeds. *)
Definition placed (layout : LayoutResult) (node : ParsedNode) : bool :=
  JsMap.has (l_nodes layout) (id node).

(** How many entries of the list satisfy [p]. *)
Definition count {A} (p : A -> bool) (l : list A) : nat := List.length (filter p l).

(** The edge is routed as the layouts route it: it keeps its label, and it
    has two waypoints when both of its ends are ids of nodes, none
    otherwise. *)
Definition routes (diagram : ParsedDiagram) (e : ParsedEdge) (le : LayoutEdge) : Prop :=
  le_label le = edge_label e /\
  List.length (points le) = (if resolves diagram e then 2 else 0)%nat.

(** The fallback arrow: no waypoints, no bindings, an empty box at the
    origin. *)
Definition fallback_arrow (a : Element) : Prop :=
  e_type a = t_arrow /\ e_points a = None /\
  startBinding a = None /\ endBinding a = None /\
  (e_x a, e_y a, e_width a, e_height a) = (0, 0, 0, 0)%Q.

(** The arrow of a routed connector: it stands at the first waypoint and
    carries the waypoints relative to it. *)
Definition routed_arrow (le : LayoutEdge) (a : Element) : Prop :=
  e_type a = t_arrow /\
  match points le with
  | p0 :: _ =>
      e_x a = px p0 /\ e_y a = py p0 /\
      e_points a = Some (map (fun p => (px p - px p0, py p - py p0)%Q) (points le))
  | [] => False
  end.

(** A text primitive with the given text. *)
Definition label_text (lbl : string) (t : Element) : Prop :=
  e_type t = t_text /\ e_text t = Some lbl.

(** What one connector of the layout adds to the scene: with two waypoints
    or more its arrow, followed by the text of its label if it has one;
    with fewer the fallback arrow alone. *)
Definition edge_part (le : LayoutEdge) (part : list Element) : Prop :=
  if (2 <=? List.length (points le))%nat then
    exists a, routed_arrow le a /\
      match truthy (le_label le) with
      | Some lbl => exists t, label_text lbl t /\ part = [a; t]
      | None => part = [a]
      end
  else exists a, fallback_arrow a /\ part = [a].

(** What one parsed edge adds to the scene: when both of its ends are ids
    of nodes, an arrow with two waypoints, followed by the text of its
    label if it has one; otherwise the fallback arrow alone. *)
Definition drawn (diagram : ParsedDiagram) (e : ParsedEdge) (part : list Element) : Prop :=
  if resolves diagram e then
    exists a pts,
      e_type a = t_arrow /\ e_points a = Some pts /\ List.length pts = 2%nat /\
      match truthy (edge_label e) with
      | Some lbl => exists t, label_text lbl t /\ part = [a; t]
      | None => part = [a]
      end
  else exists a, fallback_arrow a /\ part = [a].

(** The edges that the layout of the diagram routes: in a sequence diagram
    those with both ends among the participants, otherwise all. *)
Definition connectors (diagram : ParsedDiagram) : list ParsedEdge :=
  if is_sequence (type diagram) then filter (resolves diagram) (edges diagram)
  else edges diagram.

(** A flowchart whose only edge starts at an id that is no node: the blank
    before the arrow is taken for an inline shape of the source, which
    [parseNodeDefinition] rejects. *)
Definition unresolved_source : string :=
  "flowchart TD
  A --> B".

(** A world in which the k-th call of [generateId] returns [id<k>]. *)
Definition sample_world : World :=
  {| seedCounter := 1000; random_ids := fun n => "id" +++ JsString.of_nat n |}.

(** A disk on which nothing under [/readonly/] can be written. *)
Definition sample_disk : Disk :=
  {| refuses := fun path => startsWith path "/readonly/"; writes := [] |}.

(** Order tokens are strings, and strings are compared code unit by code
    unit: [a10] comes before [a9]. *)
Definition token_lt (a b : string) : bool := String.ltb a b.

(** ** Detection *)

(** The position behind the literal [kw], if the text continues with it. *)
Fixpoint skip_lit (fl : flags) (kw : string) (st : mstate) : option mstate :=
  match kw with
  | EmptyString => Some st
  | String c kw' =>
      match rest st with
      | String d s' => if char_eq fl c d then skip_lit fl kw' (advance d s' st) else None
      | EmptyString => None
      end
  end.

(** [strip_prefix_ci kw s]: what follows [kw] at the head of [s], letter
    case ignored. *)
Fixpoint strip_prefix_ci (kw s : string) : option string :=
  match kw with
  | EmptyString => Some s
  | String c kw' =>
      match s with
      | String d s' =>
          if Ascii.eqb (to_upper_char c) (to_upper_char d)
          then strip_prefix_ci kw' s' else None
      | EmptyString => None
      end
  end.

(** The option holds a value. *)
Definition is_some {A} (o : option A) : bool :=
  match o with Some _ => true | None => false end.

(** Some line of the text satisfies [holds]; [bol] tells whether the text
    itself starts a line. *)
Fixpoint some_line (holds : string -> bool) (bol : bool) (s : string) : bool :=
  (bol && holds s) ||
  match s with
  | String c s' => some_line holds (is_line_terminator c) s'
  | EmptyString => false
  end.

(** A position preceded by [p] is the start of a line. *)
Definition starts_line (p : option ascii) : bool :=
  match p with None => true | Some c => is_line_terminator c end.

(** The text begins with the keyword, letter case ignored. *)
Definition header (kw s : string) : bool := is_some (strip_prefix_ci kw s).

(** The text begins with the keyword followed by a white-space character
    (which may be the end of the line). *)
Definition header_space (kw s : string) : bool :=
  match strip_prefix_ci kw s with
  | Some (String d _) => is_space d
  | _ => false
  end.

(** The classification read off the lines of the text: the first family
    with a line that starts with its keyword. *)
Definition classify_lines (text : string) : option DiagramType :=
  if some_line (fun s => header_space "flowchart" s || header_space "graph" s) true text
  then Some flowchart
  else if some_line (header "sequenceDiagram") true text then Some sequence
  else if some_line (header "erDiagram") true text then Some er
  else None.

(** No [}%%] begins inside [body] when [}%%] is appended to it. *)
Fixpoint closes_first (body : string) : bool :=
  match body with
  | EmptyString => true
  | String c body' =>
      negb (startsWith (body +++ "}%%") "}%%") && closes_first body'
  end.









End Notions.

(* ================================================================== *)
(** * Further notions: graphs, geometry, letter case, traces *)
(* ================================================================== *)

Module Vocabulary.
Import JsString Regex Types Directive Diagram Layout Elements Convert Server.
Import Notions.

(** ** Graphs *)

(** Both ends of the edge are ids of nodes in the list. *)
Definition joins (ns : list ParsedNode) (e : ParsedEdge) : Prop :=
  In (source e) (map id ns) /\ In (target e) (map id ns).

(** A node and an edge without label, shape or style of their own. *)
Definition plain_node (i : string) : ParsedNode :=
  {| id := i; label := i; shape := rectangle; styleType := None |}.
Definition plain_edge (s t : string) : ParsedEdge :=
  {| source := s; target := t; edge_label := None; arrowType := arrow_head;
     lineStyle := None |}.

(** The relationships recorded so far join entities that are stored. *)
Definition ER_joined (st : ER.state) : Prop :=
  Forall (fun r => In (ER.entity1 r) (JsMap.keys (ER.entities st)) /\
                   In (ER.entity2 r) (JsMap.keys (ER.entities st)))
         (ER.relationships st).

(** Every id of [participantOrder] is the id of a participant, and both
    ends of every message are in [participantOrder]. *)
Definition Sequence_joined (st : Sequence.state) : Prop :=
  incl (Sequence.participantOrder st) (map Sequence.p_id (Sequence.participants st)) /\
  Forall (fun m => In (Sequence.m_from m) (Sequence.participantOrder st) /\
                   In (Sequence.m_to m) (Sequence.participantOrder st))
         (Sequence.messages st).

(** The two ends of an edge, of a parsed edge and of a routed one. *)
Definition ends (e : ParsedEdge) : string * string := (source e, target e).
Definition routed_ends (e : LayoutEdge) : string * string := (le_source e, le_target e).

(** A member list without repetition and without keyword. *)
Definition members_ok (ids : list string) : Prop :=
  NoDup ids /\
  Forall (fun i => mem (toLowerCase i) Flowchart.keywords = false) ids.

(** The subgraphs collected so far, and the one being read, have proper
    member lists. *)
Definition subgraphs_ok (st : Flowchart.sg_state) : Prop :=
  Forall (fun sg => members_ok (Flowchart.rs_nodes sg)) (Flowchart.done st) /\
  match Flowchart.currentSubgraph st with
  | Some sg => members_ok (Flowchart.rs_nodes sg)
  | None => True
  end.

(** ** Texts *)

(** A flowchart without directive, with blank space around it. *)
Definition plain_graph : string :=
  "  graph LR
  A --> B
".

(** A sequence diagram of two participants and two messages. *)
Definition order_flow : string :=
  "sequenceDiagram
  Client->>API: Request
  API-->>Client: Response".

(** A flowchart behind a block that starts like a directive but is none:
    the marker [%%{excali] is there, the colon after it is not. *)
Definition unfinished_marker : string :=
  "%%{excalidraw}%%
flowchart TD
  A-->B".

(** The character before a position that lies behind [run], where [pv]
    is the character before [run]. *)
Fixpoint prev_after (run : string) (pv : option ascii) : option ascii :=
  match run with
  | EmptyString => pv
  | String c run' => prev_after run' (Some c)
  end.

(** Every character of the text satisfies [p]. *)
Fixpoint all_chars (p : ascii -> bool) (s : string) : bool :=
  match s with
  | EmptyString => true
  | String c s' => p c && all_chars p s'
  end.

(** The text does not go on with a character that satisfies [p]. *)
Definition stops (p : ascii -> bool) (s : string) : bool :=
  match s with
  | EmptyString => true
  | String c _ => negb (p c)
  end.

(** The text of a style override, of a list of overrides, and of a
    directive block that carries the list. *)
Definition render_pair (kv : string * StyleType) : string :=
  fst kv +++ ": " +++ style_name (snd kv).
Definition render_styles (ps : list (string * StyleType)) : string :=
  join ", " (map render_pair ps).
Definition directive_text (ps : list (string * StyleType)) : string :=
  "%%{excali: styles: {" +++ render_styles ps +++ "}}%%".

(** A node id that can be written in a directive: a non-empty word other
    than [__proto__]. *)
Definition is_key (k : string) : bool :=
  negb (is_empty k) && all_chars is_word k && negb (String.eqb k "__proto__").

(** Neither [%] nor a closing brace. *)
Definition calm (c : ascii) : bool :=
  negb (Ascii.eqb c "%") && negb (Ascii.eqb c "}").

(** [o[k] = v] for each pair of the list, in order. *)
Definition set_all (ps : list (string * StyleType)) (o : JsObject.t StyleType)
  : JsObject.t StyleType :=
  fold_left (fun o kv => JsObject.set o (fst kv) (snd kv)) ps o.

(** ** Letter case *)

(** The same character, up to the case of an ASCII letter. *)
Definition same_letter (a b : ascii) : bool :=
  Ascii.eqb (to_upper_char a) (to_upper_char b).

(** The same text, up to the case of its ASCII letters. *)
Fixpoint same_letters (a b : string) : bool :=
  match a, b with
  | EmptyString, EmptyString => true
  | String x a', String y b' => same_letter x y && same_letters a' b'
  | _, _ => false
  end.

(** Every character class of the pattern is blind to letter case. *)
Fixpoint case_blind (r : regex) : Prop :=
  match r with
  | Cls p => forall a b, same_letter a b = true -> p a = p b
  | Seq r1 r2 | Alt r1 r2 => case_blind r1 /\ case_blind r2
  | Star _ r1 | Opt r1 | Grp _ r1 => case_blind r1
  | Eps | Chr _ | Bol | Eol | WordB => True
  end.

(** Two positions with the same text ahead and the same character behind,
    up to letter case. *)
Definition alike (st st' : mstate) : Prop :=
  same_letters (rest st) (rest st') = true /\
  match prev st, prev st' with
  | Some a, Some b => same_letter a b = true
  | None, None => True
  | _, _ => False
  end.

(** Two continuations that succeed on the same positions, up to letter
    case. *)
Definition alike_next (k k' : mstate -> option mstate) : Prop :=
  forall st st', alike st st' -> is_some (k st) = is_some (k' st').

(** ** Geometry *)

(** Two boxes that share no inner point: one lies left of, right of, above
    or below the other. *)
Definition apart (a b : LayoutNode) : Prop :=
  (x a + width a <= x b)%Q \/ (x b + width b <= x a)%Q \/
  (y a + height a <= y b)%Q \/ (y b + height b <= y a)%Q.

(** Every value stored in the map satisfies [P]. *)
Definition every {V} (P : V -> Prop) (m : JsMap.t V) : Prop :=
  forall i a, JsMap.get m i = Some a -> P a.

(** The boxes stored under different ids are apart. *)
Definition boxes_apart (m : JsMap.t LayoutNode) : Prop :=
  forall i j a b,
    i <> j -> JsMap.get m i = Some a -> JsMap.get m j = Some b -> apart a b.

(** A box of the fixed flowchart size. *)
Definition default_size (a : LayoutNode) : Prop :=
  width a = DEFAULT_NODE_WIDTH /\ height a = DEFAULT_NODE_HEIGHT.

(** The coordinate of a flowchart box along the flow and across it. *)
Definition along (isHorizontal : bool) (a : LayoutNode) : Q :=
  if isHorizontal then x a else y a.
Definition across (isHorizontal : bool) (a : LayoutNode) : Q :=
  if isHorizontal then y a else x a.

(** The distance between two ranks and between two places of a rank. *)
Definition rank_step (isHorizontal : bool) : Q :=
  if isHorizontal then DEFAULT_NODE_WIDTH + HORIZONTAL_GAP
  else DEFAULT_NODE_HEIGHT + VERTICAL_GAP.
Definition place_step (isHorizontal : bool) : Q :=
  if isHorizontal then DEFAULT_NODE_HEIGHT + VERTICAL_GAP
  else DEFAULT_NODE_WIDTH + HORIZONTAL_GAP.

(** The position of rank [d] along the flow. *)
Definition rank_pos (isHorizontal isReverse : bool) (rows d : nat) : Q :=
  ((if isReverse then Layout.of_nat rows - 1 - Layout.of_nat d else Layout.of_nat d)
   * rank_step isHorizontal)%Q.

(** A box placed before the place [c] of rank [d] was reached: on an
    earlier rank, or on rank [d] at an earlier place. *)
Definition placed_before (isHorizontal isReverse : bool) (rows : nat) (off : Q)
           (d c : nat) (a : LayoutNode) : Prop :=
  default_size a /\
  ((exists d', (d' < d)%nat /\
               (along isHorizontal a == rank_pos isHorizontal isReverse rows d')%Q) \/
   ((along isHorizontal a == rank_pos isHorizontal isReverse rows d)%Q /\
    exists c', (c' < c)%nat /\
               (across isHorizontal a == off + Layout.of_nat c' * place_step isHorizontal)%Q)).

(** A box of the fixed size that stands on one of the ranks below [d]. *)
Definition on_rank_below (isHorizontal isReverse : bool) (rows d : nat)
           (a : LayoutNode) : Prop :=
  default_size a /\
  exists d', (d' < d)%nat /\
             (along isHorizontal a == rank_pos isHorizontal isReverse rows d')%Q.

(** A box of the fixed size on the rank of its node: the node has a depth
    below the number of ranks, and the box stands at the position of that
    rank along the flow. *)
Definition at_depth (isHorizontal isReverse : bool) (rows : nat) (depths : JsMap.t nat)
           (i : string) (a : LayoutNode) : Prop :=
  default_size a /\
  exists d, JsMap.get depths i = Some d /\ (d < rows)%nat /\
            (along isHorizontal a == rank_pos isHorizontal isReverse rows d)%Q.

(** Every node of the [k]-th row has the depth [first + k]. *)
Definition ranked (depths : JsMap.t nat) (first : nat) (groups : list (list ParsedNode))
  : Prop :=
  forall k row n, nth_error groups k = Some row -> In n row ->
                  depth_of depths n = (first + k)%nat.

(** Every box of the map satisfies [P] with its key. *)
Definition every_box (P : string -> LayoutNode -> Prop) (m : JsMap.t LayoutNode) : Prop :=
  forall i a, JsMap.get m i = Some a -> P i a.

(** A box of an entity placed before the cursor: in an earlier row, or in
    the current row left of the cursor. *)
Definition er_before (c : er_cursor) (a : LayoutNode) : Prop :=
  (y a + height a <= er_y c)%Q \/
  ((y a == er_y c)%Q /\ (x a + width a <= er_x c)%Q /\
   (height a <= er_maxRowHeight c)%Q).

(** The frame leaves the padding around the box, and room for the frame's
    label above it. *)
Definition encloses (frame : LayoutSubgraph) (n : LayoutNode) : Prop :=
  (ls_x frame + SUBGRAPH_PADDING <= x n)%Q /\
  (ls_y frame + SUBGRAPH_PADDING + LABEL_HEIGHT <= y n)%Q /\
  (x n + width n + SUBGRAPH_PADDING <= ls_x frame + ls_width frame)%Q /\
  (y n + height n + SUBGRAPH_PADDING <= ls_y frame + ls_height frame)%Q.

(** A subgraph of two members, one of them without a box, and the boxes of
    a small layout. *)
Definition sample_subgraph : ParsedSubgraph :=
  {| sg_id := "backend"; sg_label := "Backend"; sg_nodes := ["API"; "Ghost"; "DB"];
     sg_styleType := None |}.
Definition sample_boxes : JsMap.t LayoutNode :=
  [ ("FE", {| ln_id := "FE"; x := 0; y := 0; width := 160; height := 60 |});
    ("API", {| ln_id := "API"; x := 0; y := 160; width := 160; height := 60 |});
    ("DB", {| ln_id := "DB"; x := 240; y := 320; width := 160; height := 60 |}) ]%Q.

(** The [k]-th routed message: a level arrow between the two lifelines,
    [60 k] below the first one. *)
Definition message_row (nodePositions : JsMap.t LayoutNode) (k : nat)
           (e : LayoutEdge) : Prop :=
  exists s t level,
    JsMap.get nodePositions (le_source e) = Some s /\
    JsMap.get nodePositions (le_target e) = Some t /\
    points e = [ {| px := (x s + width s / 2)%Q; py := level |};
                 {| px := (x t + width t / 2)%Q; py := level |} ] /\
    (level == 120 + 60 * Layout.of_nat k)%Q.

(** ** Ranks *)

(** The entry of [k] lists only sources of edges into [k] as incoming and
    only targets of edges as outgoing. *)
Definition adjacent_ok (es : list ParsedEdge) (kv : string * Adjacent) : Prop :=
  (forall s, In s (incoming (snd kv)) -> exists e, In e es /\ target e = fst kv) /\
  (forall t, In t (outgoing (snd kv)) -> exists e, In e es /\ target e = t).

(** The state of the breadth-first loop as seen from a node [r] that no
    edge enters: [r] is queued with depth 0 only, and it either has depth 0
    already or still waits in the queue, unvisited. *)
Definition source_waits (r : string) (queue : list (string * nat))
           (visited : list string) (depths : JsMap.t nat) : Prop :=
  (forall d, In (r, d) queue -> d = 0%nat) /\
  (JsMap.get depths r = Some 0%nat \/
   (In (r, 0%nat) queue /\ mem r visited = false)).

(** A size with no negative side. *)
Definition proper_size (sz : Q * Q) : Prop := (0 <= fst sz)%Q /\ (0 <= snd sz)%Q.

(** ** Traces of the synthesizer *)

Definition is_text (e : Element) : bool :=
  match e_type e with t_text => true | _ => false end.

(** A dashed rectangle or ellipse: the frame of a subgraph. *)
Definition is_frame (e : Element) : bool :=
  is_shape e && match e_strokeStyle e with dashed => true | _ => false end.

(** What the three parts of a scene are made of: frames with their labels;
    node shapes with their labels and the lines; arrows with their labels. *)
Definition frame_part (e : Element) : bool := is_frame e || is_text e.
Definition node_part (e : Element) : bool := negb (is_arrow e) && negb (is_frame e).
Definition link_part (e : Element) : bool := is_arrow e || is_text e.

(** The entry of [textInfos] that belongs to a text primitive. *)
Definition info_of (e : Element) : TextElementInfo :=
  {| ti_element := e; ti_id := e_id e;
     ti_text := match e_text e with Some t => t | None => EmptyString end |}.

(** [produces kind w sc r new draws c]: started in the world [w] on the
    scene [sc], a step ends in [r]; it appends the primitives [new], all of
    them of the given kind, with consecutive seeds; it calls [generateId]
    [c] times, and the ids of [new] are the results of the calls numbered
    [draws]. *)
Record produces (kind : Element -> bool) (w : World) (sc : Scene) (r : Scene * World)
       (new : list Element) (draws : list nat) (c : nat) : Prop :=
  { pr_elements : elements (fst r) = elements sc ++ new;
    pr_texts : textInfos (fst r) = textInfos sc ++ map info_of (filter is_text new);
    pr_kind : forallb kind new = true;
    pr_seeds : map seed new = seq (seedCounter w) (List.length new);
    pr_counter : seedCounter (snd r) = seedCounter w + List.length new;
    pr_ids : map e_id new = map (random_ids w) draws;
    pr_sorted : StronglySorted Nat.lt draws;
    pr_bound : Forall (fun p => p < c) draws;
    pr_stream : forall n, random_ids (snd r) n = random_ids w (c + n) }.

Definition emits (kind : Element -> bool) (w : World) (sc : Scene) (r : Scene * World)
  : Prop :=
  exists new draws c, produces kind w sc r new draws c.

(** The first relative point is the origin, and the box reaches from there
    to the last one. *)
Definition spans (e : Element) (first final : Q * Q) : bool :=
  Qeq_bool (fst first) 0 && Qeq_bool (snd first) 0 &&
  Qeq_bool (e_width e) (Qabs.Qabs (fst final)) &&
  Qeq_bool (e_height e) (Qabs.Qabs (snd final)).

(** A line carries two relative points and an arrow two or more, which
    span its box; an arrow may also carry none, and then its box is empty
    (the fallback arrow); rectangles, ellipses and texts carry no points. *)
Definition well_spanned (e : Element) : bool :=
  match e_type e, e_points e with
  | t_line, Some [first; final] => spans e first final
  | t_arrow, Some (first :: next :: more) => spans e first (List.last (next :: more) first)
  | t_arrow, None => Qeq_bool (e_width e) 0 && Qeq_bool (e_height e) 0
  | (t_rectangle | t_ellipse | t_text), None => true
  | _, _ => false
  end.

(** The arrow of a connector: routed when the connector has two waypoints
    or more, the fallback arrow otherwise. *)
Definition arrow_of (le : LayoutEdge) (a : Element) : Prop :=
  if (2 <=? List.length (points le))%nat then routed_arrow le a else fallback_arrow a.

(** A step that may append primitives of any kind. *)
Definition any_part (e : Element) : bool := true.

(** No two calls of [generateId] return the same identifier. *)
Definition collision_free (w : World) : Prop :=
  forall i j, random_ids w i = random_ids w j -> i = j.

End Vocabulary.

(* ================================================================== *)
(** * Properties *)
(* ================================================================== *)

(** ** Style resolution *)

Module StylesFacts.
Import JsString Regex Types Directive Styles.
Import Notions.

Lemma style_or_own (o : JsObject.t StyleType) (k : string) (s : StyleType)
      (fallback : option StyleVal) :
  JsObject.own o k = Some s -> style_or o k fallback = Some (Style s).
Proof.
  intros Hown. unfold style_or, JsObject.get. now rewrite Hown.
Qed.

(** Without the override, the label of the scenario selects the frontend
    category. *)
Example react_app_is_ui :
  resolveStyle "A" "React App" "rectangle" [] = Some (Style ui).
Proof. vm_compute. reflexivity. Qed.

(** C5: an entry of the override map for the node id decides the style,
    whatever the label and the shape are. *)
Theorem resolveStyle_override_wins
        (nodeId label shape : string) (explicitStyles : JsObject.t StyleType)
        (s : StyleType) :
  JsObject.own explicitStyles nodeId = Some s ->
  resolveStyle nodeId label shape explicitStyles = Some (Style s).
Proof.
  intros Hown. unfold resolveStyle.
  now rewrite (style_or_own _ _ _ None Hown).
Qed.

Lemma resolveStyle_override_wins_witness :
  JsObject.own [("A", db)] "A" = Some db /\
  resolveStyle "A" "React App" "cylinder" [("A", db)] = Some (Style db).
Proof.
  split; [reflexivity | apply (resolveStyle_override_wins "A" "React App" "cylinder"); reflexivity].
Defined.

End StylesFacts.

(** ** Directive stripping *)

Module DirectiveFacts.
Import JsString Regex Types Directive.
Import Notions.

Lemma trimEnd_idempotent (s : string) : trimEnd (trimEnd s) = trimEnd s.
Proof.
  induction s as [|c s IH]; simpl; [reflexivity|].
  destruct (is_empty (trimEnd s) && is_space c) eqn:E; simpl; [reflexivity|].
  rewrite IH, E. reflexivity.
Qed.

Lemma trimStart_clean (s : string) : starts_clean (trimStart s).
Proof.
  induction s as [|c s IH]; simpl; [exact I|].
  destruct (is_space c) eqn:E; [exact IH | simpl; exact E].
Qed.

Lemma trimStart_of_clean (s : string) : starts_clean s -> trimStart s = s.
Proof.
  destruct s as [|c s]; simpl; [reflexivity|]. intros ->. reflexivity.
Qed.

Lemma trimEnd_clean (s : string) : starts_clean s -> starts_clean (trimEnd s).
Proof.
  destruct s as [|c s]; simpl; [trivial|]. intros Hc.
  rewrite Hc, andb_false_r. simpl. exact Hc.
Qed.

Lemma trim_idempotent (s : string) : trim (trim s) = trim s.
Proof.
  unfold trim.
  rewrite (trimStart_of_clean (trimEnd (trimStart s))).
  - apply trimEnd_idempotent.
  - apply trimEnd_clean, trimStart_clean.
Qed.

(** A global replacement that finds no match leaves the text as it is. *)
Lemma replace_from_no_match (fl : flags) (r : regex) (rep : string) (fuel : nat) :
  forall (p : option ascii) (s : string),
    search fl r p s = None -> replace_from fl r rep fuel p s = s.
Proof.
  induction fuel as [|fuel IH]; intros p s Hs; simpl; [reflexivity|].
  destruct s as [|c s]; simpl in Hs.
  - destruct (match_here fl r p EmptyString); [discriminate | reflexivity].
  - destruct (match_here fl r p (String c s)); [discriminate|].
    destruct (search fl r (Some c) s) eqn:E; [discriminate|].
    now rewrite (IH _ _ E).
Qed.

Lemma replace_all_no_match (fl : flags) (r : regex) (rep s : string) :
  test fl r s = false -> replace_all fl r rep s = s.
Proof.
  unfold test, exec, replace_all. intros H.
  apply replace_from_no_match.
  destruct (search fl r None s); [discriminate | reflexivity].
Qed.

Lemma strip_clean_text (s : string) :
  test no_flags re_strip s = false -> stripExcaliDirective s = trim s.
Proof.
  intros H. unfold stripExcaliDirective. now rewrite replace_all_no_match.
Qed.

Lemma strip_is_trimmed (s : string) :
  trim (stripExcaliDirective s) = stripExcaliDirective s.
Proof. unfold stripExcaliDirective. apply trim_idempotent. Qed.

(** C8, as stated: stripping twice differs from stripping once on [spliced]. *)
Lemma strip_not_idempotent :
  stripExcaliDirective spliced = "%%{excali:x}%%" /\
  stripExcaliDirective (stripExcaliDirective spliced) = EmptyString /\
  stripExcaliDirective (stripExcaliDirective spliced) <> stripExcaliDirective spliced.
Proof.
  repeat split; try (vm_compute; reflexivity).
  vm_compute. discriminate.
Qed.

(** C8, amended: a text without a directive block is only trimmed, and a
    second strip changes nothing whenever the stripped text holds no
    directive block. *)
Theorem strip_idempotent_on_clean_result (s : string) :
  (test no_flags re_strip s = false -> stripExcaliDirective s = trim s) /\
  (test no_flags re_strip (stripExcaliDirective s) = false ->
   stripExcaliDirective (stripExcaliDirective s) = stripExcaliDirective s).
Proof.
  split.
  - apply strip_clean_text.
  - intros H. rewrite (strip_clean_text _ H). apply strip_is_trimmed.
Qed.

Lemma strip_idempotent_on_clean_result_witness :
  stripExcaliDirective "  graph LR
  A --> B
" = trim "  graph LR
  A --> B
" /\
  stripExcaliDirective (stripExcaliDirective styled_flowchart)
  = stripExcaliDirective styled_flowchart.
Proof.
  split.
  - apply (proj1 (strip_idempotent_on_clean_result _)). vm_compute. reflexivity.
  - apply (proj2 (strip_idempotent_on_clean_result styled_flowchart)).
    vm_compute. reflexivity.
Defined.

End DirectiveFacts.

(** ** JavaScript maps keep one entry per key *)

Module JsMapFacts.

Lemma keys_set_in {V} (m : JsMap.t V) (k : string) (v : V) (k' : string) :
  In k' (JsMap.keys (JsMap.set m k v)) <-> k' = k \/ In k' (JsMap.keys m).
Proof.
  induction m as [|[k0 v0] m IH]; simpl.
  - intuition congruence.
  - destruct (String.eqb k k0) eqn:E; simpl.
    + apply String.eqb_eq in E. subst k0. intuition congruence.
    + rewrite IH. intuition congruence.
Qed.

Lemma get_set_same {V} (m : JsMap.t V) (k : string) (v : V) :
  JsMap.get (JsMap.set m k v) k = Some v.
Proof.
  induction m as [|[k0 v0] m IH]; simpl.
  - now rewrite String.eqb_refl.
  - destruct (String.eqb k k0) eqn:E; simpl.
    + now rewrite String.eqb_refl.
    + now rewrite E.
Qed.

Lemma get_set_other {V} (m : JsMap.t V) (k k' : string) (v : V) :
  k' <> k -> JsMap.get (JsMap.set m k v) k' = JsMap.get m k'.
Proof.
  intros Hne. induction m as [|[k0 v0] m IH]; simpl.
  - apply String.eqb_neq in Hne. now rewrite Hne.
  - destruct (String.eqb k k0) eqn:E; simpl.
    + apply String.eqb_eq in E. subst k0.
      apply String.eqb_neq in Hne. now rewrite Hne.
    + destruct (String.eqb k' k0); [reflexivity | exact IH].
Qed.

Lemma keys_set_nodup {V} (m : JsMap.t V) (k : string) (v : V) :
  NoDup (JsMap.keys m) -> NoDup (JsMap.keys (JsMap.set m k v)).
Proof.
  induction m as [|[k0 v0] m IH]; simpl; intros Hnd.
  - constructor; [intros [] | constructor].
  - inversion Hnd as [|? ? Hnotin Hnd']; subst.
    destruct (String.eqb k k0) eqn:E; simpl.
    + apply String.eqb_eq in E. subst k0. constructor; assumption.
    + constructor; [|apply IH; assumption].
      intros Hin. apply (keys_set_in m k v k0) in Hin.
      apply String.eqb_neq in E. destruct Hin as [->|Hin]; [congruence | contradiction].
Qed.

End JsMapFacts.

(** ** Parsers *)

Module ParserFacts.
Import JsString Regex Types Directive Diagram JsMapFacts.
Import Notions.

(** *** Entity-relationship diagrams: one node per entity name *)

Lemma ER_ensure_nodup (name : string) (m : JsMap.t ER.EREntity) :
  NoDup (JsMap.keys m) -> NoDup (JsMap.keys (ER.ensure name m)).
Proof.
  intros H. unfold ER.ensure. destruct (JsMap.has m name); [exact H|].
  now apply keys_set_nodup.
Qed.

Lemma ER_step_nodup (st : ER.state) (line : string) :
  NoDup (JsMap.keys (ER.entities st)) ->
  NoDup (JsMap.keys (ER.entities (ER.step st line))).
Proof.
  intros H. unfold ER.step.
  destruct (startsWith line "erDiagram"); [exact H|].
  destruct (exec no_flags ER.re_entity_start line); simpl.
  { destruct (JsMap.get (ER.entities st) _); now apply keys_set_nodup. }
  destruct (String.eqb line "}"); simpl; [exact H|].
  assert (Hrel : NoDup (JsMap.keys (ER.entities
            match exec no_flags ER.re_rel line with
            | Some m =>
                ER.add_relationship st
                  {| ER.entity1 := group_or_empty 1 m; ER.entity2 := group_or_empty 4 m;
                     ER.cardinality1 := group_or_empty 2 m;
                     ER.cardinality2 := group_or_empty 3 m;
                     ER.r_label := option_map trim (capture 5 m) |}
            | None =>
                match exec no_flags ER.re_simple_rel line with
                | Some m =>
                    ER.add_relationship st
                      {| ER.entity1 := group_or_empty 1 m; ER.entity2 := group_or_empty 2 m;
                         ER.cardinality1 := "||"; ER.cardinality2 := "o{";
                         ER.r_label := option_map trim (capture 3 m) |}
                | None => st
                end
            end))).
  { destruct (exec no_flags ER.re_rel line); simpl.
    - now apply ER_ensure_nodup, ER_ensure_nodup.
    - destruct (exec no_flags ER.re_simple_rel line); simpl; [|exact H].
      now apply ER_ensure_nodup, ER_ensure_nodup. }
  destruct (ER.inEntityBlock st); [|exact Hrel].
  destruct (ER.currentEntity st) as [cur|]; [|exact Hrel].
  destruct (exec no_flags ER.re_attr line); simpl; [|exact H].
  unfold ER.push_attribute. destruct (JsMap.get (ER.entities st) cur); [|exact H].
  now apply keys_set_nodup.
Qed.

Lemma named_set (m : JsMap.t ER.EREntity) (k : string) (e : ER.EREntity) :
  named m -> ER.e_name e = k -> named (JsMap.set m k e).
Proof.
  intros Hm He. induction m as [|[k0 v0] m IH]; simpl.
  - repeat constructor. exact He.
  - apply Forall_cons_iff in Hm as [Hh Ht].
    destruct (String.eqb k k0); constructor; simpl; auto.
    apply IH, Ht.
Qed.

Lemma named_get (m : JsMap.t ER.EREntity) (k : string) (e : ER.EREntity) :
  named m -> JsMap.get m k = Some e -> ER.e_name e = k.
Proof.
  intros Hm. induction m as [|[k0 v0] m IH]; simpl; [discriminate|].
  apply Forall_cons_iff in Hm as [Hh Ht]. destruct (String.eqb k k0) eqn:E.
  - intros Hget. apply String.eqb_eq in E. injection Hget as Hv.
    subst. simpl in *. assumption.
  - now apply IH.
Qed.

Lemma ER_ensure_named (name : string) (m : JsMap.t ER.EREntity) :
  named m -> named (ER.ensure name m).
Proof.
  intros H. unfold ER.ensure. destruct (JsMap.has m name); [exact H|].
  now apply named_set.
Qed.

Lemma ER_step_named (st : ER.state) (line : string) :
  named (ER.entities st) -> named (ER.entities (ER.step st line)).
Proof.
  intros H. unfold ER.step.
  destruct (startsWith line "erDiagram"); [exact H|].
  destruct (exec no_flags ER.re_entity_start line); simpl.
  { destruct (JsMap.get (ER.entities st) _) eqn:G; apply named_set; auto.
    eapply named_get; eauto. }
  destruct (String.eqb line "}"); simpl; [exact H|].
  destruct (ER.inEntityBlock st), (ER.currentEntity st) as [cur|];
    repeat match goal with
           | |- context [exec ?f ?r ?l] => destruct (exec f r l); simpl
           end;
    try exact H;
    try (now apply ER_ensure_named, ER_ensure_named).
  unfold ER.push_attribute. destruct (JsMap.get (ER.entities st) cur) eqn:G; [|exact H].
  apply named_set; [exact H|]. simpl. eapply named_get; eauto.
Qed.

Lemma fold_left_invariant {S A} (P : S -> Prop) (f : S -> A -> S) (l : list A) :
  (forall s a, P s -> P (f s a)) -> forall s, P s -> P (fold_left f l s).
Proof.
  intros Hf. induction l as [|a l IH]; simpl; intros s Hs; [exact Hs|].
  apply IH, Hf, Hs.
Qed.

(** The entity-relationship parser never repeats a node id. *)
Lemma parseERDiagram_ids_unique (source : string) :
  NoDup (map id (nodes (ER.parseERDiagram source))).
Proof.
  unfold ER.parseERDiagram. simpl.
  set (st := fold_left ER.step _ ER.init).
  assert (Hinv : NoDup (JsMap.keys (ER.entities st)) /\ named (ER.entities st)).
  { subst st.
    apply (fold_left_invariant
             (fun st => NoDup (JsMap.keys (ER.entities st)) /\ named (ER.entities st))).
    - intros s a [H1 H2]. split; [now apply ER_step_nodup | now apply ER_step_named].
    - split; constructor. }
  destruct Hinv as [Hnd Hnamed].
  unfold JsMap.values. rewrite map_map, map_map. simpl.
  replace (map (fun x => ER.e_name (snd x)) (ER.entities st))
    with (JsMap.keys (ER.entities st)); [exact Hnd|].
  unfold JsMap.keys. apply map_ext_in. intros kv Hin.
  unfold named in Hnamed. rewrite Forall_forall in Hnamed. symmetry. now apply Hnamed.
Qed.

(** *** Flowcharts: one node per node id *)

Lemma keyed_set (m : JsMap.t Flowchart.RawNode) (n : Flowchart.RawNode) :
  keyed m -> keyed (JsMap.set m (Flowchart.rn_id n) n).
Proof.
  intros Hm. induction m as [|[k0 v0] m IH]; simpl.
  - repeat constructor.
  - apply Forall_cons_iff in Hm as [Hh Ht].
    destruct (String.eqb (Flowchart.rn_id n) k0); constructor; simpl; auto.
    apply IH, Ht.
Qed.

Lemma add_node_invariant (n : option Flowchart.RawNode) (m : JsMap.t Flowchart.RawNode) :
  NoDup (JsMap.keys m) /\ keyed m ->
  NoDup (JsMap.keys (Flowchart.add_node n m)) /\ keyed (Flowchart.add_node n m).
Proof.
  intros [H1 H2]. unfold Flowchart.add_node. destruct n as [node|]; [|now split].
  destruct (JsMap.has m (Flowchart.rn_id node)); [now split|].
  split; [now apply keys_set_nodup | now apply keyed_set].
Qed.

(** The flowchart parser never repeats a node id. *)
Lemma parseFlowchart_ids_unique (source : string) :
  NoDup (map id (nodes (Flowchart.parseFlowchart source))).
Proof.
  unfold Flowchart.parseFlowchart. simpl.
  set (st := fold_left Flowchart.step _ _).
  assert (Hinv : NoDup (JsMap.keys (Flowchart.nodesMap st)) /\ keyed (Flowchart.nodesMap st)).
  { subst st.
    apply (fold_left_invariant
             (fun st => NoDup (JsMap.keys (Flowchart.nodesMap st))
                        /\ keyed (Flowchart.nodesMap st))).
    - intros s a H. unfold Flowchart.step.
      destruct (startsWith a "subgraph" || String.eqb a "end"); [exact H|].
      destruct (Flowchart.parseEdgeLine a); simpl.
      + now apply add_node_invariant, add_node_invariant.
      + now apply add_node_invariant.
    - split; constructor. }
  destruct Hinv as [Hnd Hkeyed].
  unfold JsMap.values. rewrite map_map, map_map. simpl.
  replace (map (fun x => Flowchart.rn_id (snd x)) (Flowchart.nodesMap st))
    with (JsMap.keys (Flowchart.nodesMap st)); [exact Hnd|].
  unfold JsMap.keys. apply map_ext_in. intros kv Hin.
  unfold keyed in Hkeyed. rewrite Forall_forall in Hkeyed. symmetry. now apply Hkeyed.
Qed.

(** *** Sequence diagrams *)

(** C7 at a sequence diagram that declares [Alice] twice: the node list
    holds the id [Alice] twice, although the parser's own
    [participantOrder] list holds it once. *)
Theorem parseSequenceDiagram_repeats_id :
  map id (nodes (Sequence.parseSequenceDiagram declared_twice))
  = ["Alice"; "Bob"; "Alice"] /\
  Sequence.participantOrder
    (fold_left Sequence.step (Sequence.significant_lines declared_twice) Sequence.init)
  = ["Alice"; "Bob"] /\
  ~ NoDup (map id (nodes (Sequence.parseSequenceDiagram declared_twice))).
Proof.
  assert (E : map id (nodes (Sequence.parseSequenceDiagram declared_twice))
              = ["Alice"; "Bob"; "Alice"]) by (vm_compute; reflexivity).
  split; [exact E | split; [vm_compute; reflexivity |]].
  rewrite E. intros H. inversion H as [|? ? Hnotin _]; subst.
  apply Hnotin. right. left. reflexivity.
Qed.

(** C4 at a sequence diagram that declares [A], then [B], then [A] again:
    [A] appears first in the text, but its column lies to the right of
    the column of [B]. *)
Theorem redeclared_participant_moves_right :
  let diagram := Sequence.parseSequenceDiagram redeclared in
  let layout := Layout.layoutSequenceDiagram diagram in
  map id (nodes diagram) = ["A"; "B"; "A"] /\
  column_x layout "A" = Some (560 # 1)%Q /\
  column_x layout "B" = Some (280 # 1)%Q.
Proof. vm_compute. repeat split; reflexivity. Qed.

(** *** Entity-relationship styles *)

(** C10 at an entity named [constructor]: the directive holds no override,
    yet the entity's style is the inherited [Object.prototype.constructor]
    instead of [db], and its colours are the neutral default. *)
Theorem er_entity_named_constructor :
  let diagram := ER.parseERDiagram er_constructor in
  styles (directive diagram) = [] /\
  map (fun n => (id n, styleType n)) (nodes diagram)
  = [("constructor", Some (ProtoMember "constructor")); ("ORDER", Some (Style db))] /\
  map (fun n => Styles.getStyleColors (styleType n)) (nodes diagram)
  = [Styles.DEFAULT_STYLE; Styles.COLOR_PALETTE db].
Proof. vm_compute. repeat split; reflexivity. Qed.

(** Entities whose name is not a member of [Object.prototype] do get [db]. *)
Lemma er_node_default_db (d : ExcaliDirective) (e : ER.EREntity) :
  JsObject.own (styles d) (ER.e_name e) = None ->
  mem (ER.e_name e) JsObject.prototype_keys = false ->
  styleType (ER.node_of d e) = Some (Style db).
Proof.
  intros Hown Hproto.
  change (styleType (ER.node_of d e))
    with (style_or (styles d) (ER.e_name e) (Some (Style db))).
  unfold style_or, JsObject.get. now rewrite Hown, Hproto.
Qed.

End ParserFacts.

(** ** Flowchart ranks *)

Module RankFacts.
Import JsString Types Directive Diagram Layout.
Import Notions.

(** C1 at [two_routes]: [A] is the only root and [D] lies three edges away
    from it, yet [D] is given rank 2 and shares its row with its own
    predecessor [B]. *)
Theorem rank_is_not_longest_path :
  let diagram := Flowchart.parseFlowchart two_routes in
  let adjacency := buildAdjacency (nodes diagram) (edges diagram) in
  map id (filter (is_root adjacency) (nodes diagram)) = ["A"] /\
  path (edges diagram) "A" "D" 3 /\
  calculateDepths (nodes diagram) adjacency
  = Some [("A", 0); ("B", 2); ("C", 1); ("D", 2)] /\
  row_ids (match calculateDepths (nodes diagram) adjacency with
           | Some depths => groupByDepth (nodes diagram) depths
           | None => None
           end)
  = Some [["A"]; ["C"]; ["B"; "D"]].
Proof.
  cbv zeta. split; [vm_compute; reflexivity|].
  split; [|split; vm_compute; reflexivity].
  assert (E : edges (Flowchart.parseFlowchart two_routes)
              = map (fun st => {| source := fst st; target := snd st; edge_label := None;
                                  arrowType := arrow_head; lineStyle := None |})
                    [("A", "B"); ("A", "C"); ("C", "B"); ("B", "D")])
    by (vm_compute; reflexivity).
  rewrite E.
  eapply path_snoc with (b := "B"); [| right; right; right; left; reflexivity | reflexivity | reflexivity].
  eapply path_snoc with (b := "C"); [| right; right; left; reflexivity | reflexivity | reflexivity].
  eapply path_snoc with (b := "A"); [| right; left; reflexivity | reflexivity | reflexivity].
  apply path_nil.
Qed.

End RankFacts.

(** ** The layout engine returns, and places every node *)

Module LayoutFacts.
Import JsString Types Directive Diagram Layout JsMapFacts.
Import Notions.

(** *** The breadth-first loop terminates *)

Lemma pending_cons (kv : string * Adjacent) (adjacency : JsMap.t Adjacent)
      (visited : list string) :
  pending (kv :: adjacency) visited
  = (if mem (fst kv) visited then 0 else List.length (outgoing (snd kv)))
    + pending adjacency visited.
Proof. reflexivity. Qed.

Lemma mem_cons (x i : string) (l : list string) :
  mem x (i :: l) = String.eqb x i || mem x l.
Proof. reflexivity. Qed.

Lemma pending_antitone (adjacency : JsMap.t Adjacent) (i : string)
      (visited : list string) :
  pending adjacency (i :: visited) <= pending adjacency visited.
Proof.
  induction adjacency as [|kv adjacency IH]; [apply Nat.le_refl|].
  rewrite !pending_cons, mem_cons.
  destruct (String.eqb (fst kv) i), (mem (fst kv) visited); simpl; lia.
Qed.

(** Visiting [i] pays for everything that [i] pushes onto the queue. *)
Lemma pending_visit (adjacency : JsMap.t Adjacent) (i : string)
      (visited : list string) :
  mem i visited = false ->
  match JsMap.get adjacency i with
  | Some adj => List.length (outgoing adj)
  | None => 0
  end + pending adjacency (i :: visited) <= pending adjacency visited.
Proof.
  intros Hi. induction adjacency as [|[k v] adjacency IH]; [apply Nat.le_refl|].
  rewrite !pending_cons, mem_cons. simpl JsMap.get. simpl fst. simpl snd.
  destruct (String.eqb i k) eqn:E.
  - apply String.eqb_eq in E. subst k. rewrite String.eqb_refl, Hi. simpl.
    pose proof (pending_antitone adjacency i visited). lia.
  - rewrite String.eqb_sym, E. simpl. lia.
Qed.

Lemma bfs_terminates (adjacency : JsMap.t Adjacent) (fuel : nat) :
  forall queue visited depths,
    List.length queue + pending adjacency visited <= fuel ->
    exists result, bfs fuel adjacency queue visited depths = Some result.
Proof.
  induction fuel as [|fuel IH]; intros queue visited depths Hfuel.
  - destruct queue as [|[i depth] queue]; simpl in *; [eauto | lia].
  - destruct queue as [|[i depth] queue]; simpl; [eauto|].
    destruct (mem i visited) eqn:Hi.
    + apply IH. simpl in Hfuel. lia.
    + apply IH. rewrite length_app.
      assert (Hp : List.length (match JsMap.get adjacency i with Some adj => map (fun targetId => (targetId, S depth)) (outgoing adj) | None => [] end) = match JsMap.get adjacency i with Some adj => List.length (outgoing adj) | None => 0 end) by (destruct (JsMap.get adjacency i); [apply length_map | reflexivity]).
      rewrite Hp.
      pose proof (pending_visit adjacency i visited Hi). simpl in Hfuel.
      destruct (JsMap.get adjacency i); simpl in *; lia.
Qed.

Lemma calculateDepths_total (nodes : list ParsedNode) (adjacency : JsMap.t Adjacent) :
  exists depths, calculateDepths nodes adjacency = Some depths.
Proof.
  unfold calculateDepths.
  destruct (bfs_terminates adjacency
              (List.length (map (fun r => (id r, 0)) (filter (is_root adjacency) nodes))
               + pending adjacency [])
              (map (fun r => (id r, 0)) (filter (is_root adjacency) nodes)) [] [])
    as [depths ->]; [apply Nat.le_refl | eauto].
Qed.

(** *** Every node has a depth, and a row *)

Lemma has_set {V} (m : JsMap.t V) (k k' : string) (v : V) :
  JsMap.has (JsMap.set m k v) k' = String.eqb k' k || JsMap.has m k'.
Proof.
  unfold JsMap.has. destruct (String.eqb k' k) eqn:E.
  - apply String.eqb_eq in E. subst. now rewrite get_set_same.
  - apply String.eqb_neq in E. now rewrite get_set_other.
Qed.

Lemma default_depths_keeps (nodes : list ParsedNode) :
  forall depths k, JsMap.has depths k = true ->
                   JsMap.has (default_depths nodes depths) k = true.
Proof.
  unfold default_depths.
  induction nodes as [|n nodes IH]; simpl; intros depths k Hk; [exact Hk|].
  apply IH. destruct (JsMap.has depths (id n)); [exact Hk|].
  rewrite has_set, Hk. apply orb_true_r.
Qed.

Lemma default_depths_has (nodes : list ParsedNode) :
  forall depths n, In n nodes -> JsMap.has (default_depths nodes depths) (id n) = true.
Proof.
  induction nodes as [|n0 nodes IH]; intros depths n Hin; [destruct Hin|].
  destruct Hin as [->|Hin].
  - unfold default_depths. simpl. apply default_depths_keeps.
    destruct (JsMap.has depths (id n)) eqn:E; [exact E|].
    rewrite has_set, String.eqb_refl. reflexivity.
  - unfold default_depths. simpl. apply IH, Hin.
Qed.

Lemma max_nat_list_from (l : list nat) (a : nat) :
  a <= fold_left Nat.max l a /\ Forall (fun x => x <= fold_left Nat.max l a) l.
Proof.
  revert a. induction l as [|x l IH]; intros a; simpl; [split; [lia | constructor]|].
  destruct (IH (Nat.max a x)) as [H1 H2]. split; [lia|].
  constructor; [lia | exact H2].
Qed.

Lemma get_le_max (depths : JsMap.t nat) (k : string) (d : nat) :
  JsMap.get depths k = Some d -> d <= max_nat_list (JsMap.values depths).
Proof.
  intros Hget. unfold max_nat_list.
  destruct (max_nat_list_from (JsMap.values depths) 0) as [_ Hall].
  rewrite Forall_forall in Hall. apply Hall.
  clear Hall. induction depths as [|[k0 v0] depths IH]; simpl in *; [discriminate|].
  destruct (String.eqb k k0); [injection Hget as ->; now left | right; now apply IH].
Qed.

Lemma push_at_in_range {A} (groups : list (list A)) :
  forall depth a,
    depth < List.length groups ->
    exists groups',
      push_at groups depth a = Some groups' /\
      List.length groups' = List.length groups /\
      (forall x, In x (List.concat groups') <-> x = a \/ In x (List.concat groups)).
Proof.
  induction groups as [|g groups IH]; intros depth a Hlt; simpl in Hlt; [lia|].
  destruct depth as [|depth]; simpl.
  - eexists. split; [reflexivity|]. split; [reflexivity|].
    intros x. simpl. rewrite !in_app_iff. simpl. intuition congruence.
  - destruct (IH depth a) as (groups' & -> & Hlen & Hin); [lia|].
    eexists. split; [reflexivity|]. split; [simpl; now rewrite Hlen|].
    intros x. simpl. rewrite !in_app_iff, Hin. tauto.
Qed.

Lemma push_all_in_range (depths : JsMap.t nat) (nodes : list ParsedNode) :
  forall groups,
    Forall (fun n => depth_of depths n < List.length groups) nodes ->
    exists rows,
      push_all depths nodes groups = Some rows /\
      (forall x, In x (List.concat rows) <-> In x nodes \/ In x (List.concat groups)).
Proof.
  induction nodes as [|n nodes IH]; intros groups Hall; simpl.
  - eexists. split; [reflexivity|]. tauto.
  - apply Forall_cons_iff in Hall as [Hn Hall].
    destruct (push_at_in_range groups (depth_of depths n) n Hn)
      as (groups' & Hpush & Hlen & Hin).
    unfold depth_of in Hpush. rewrite Hpush.
    destruct (IH groups') as (rows & -> & Hrows); [now rewrite Hlen|].
    eexists. split; [reflexivity|].
    intros x. rewrite Hrows, Hin. simpl. intuition congruence.
Qed.

Lemma concat_repeat_nil {A} (n : nat) : List.concat (repeat (@nil A) n) = [].
Proof. induction n; simpl; auto. Qed.

(** With a depth for every node, [groupByDepth] never indexes out of range,
    and its rows hold exactly the nodes. *)
Lemma groupByDepth_total (nodes : list ParsedNode) (depths : JsMap.t nat) :
  (forall n, In n nodes -> JsMap.has depths (id n) = true) ->
  exists rows,
    groupByDepth nodes depths = Some rows /\
    (forall x, In x (List.concat rows) <-> In x nodes).
Proof.
  intros Hhas. unfold groupByDepth.
  set (groups := match JsMap.values depths with
                 | [] => []
                 | _ => repeat [] (S (max_nat_list (JsMap.values depths)))
                 end).
  assert (Hgroups : List.concat groups = []).
  { subst groups. destruct (JsMap.values depths); [reflexivity | apply concat_repeat_nil]. }
  destruct (push_all_in_range depths nodes groups) as (rows & Hrows & Hin).
  - rewrite Forall_forall. intros n Hn. specialize (Hhas n Hn).
    unfold JsMap.has in Hhas. unfold depth_of.
    destruct (JsMap.get depths (id n)) as [d|] eqn:G; [|discriminate].
    pose proof (get_le_max depths (id n) d G) as Hle.
    subst groups. destruct depths as [|kv depths]; [discriminate|].
    simpl JsMap.values. cbv iota. rewrite repeat_length. simpl JsMap.values in Hle. lia.
  - exists rows. split; [exact Hrows|].
    intros x. rewrite Hin, Hgroups. simpl. tauto.
Qed.

(** *** Every node gets a position *)

Lemma place_row_keeps f colIndex rowNodes :
  (forall m node c k, JsMap.has m k = true -> JsMap.has (f m node c) k = true) ->
  forall m k, JsMap.has m k = true ->
              JsMap.has (place_row f colIndex rowNodes m) k = true.
Proof.
  intros Hf. revert colIndex. induction rowNodes as [|n rowNodes IH];
    intros colIndex m k Hk; simpl; [exact Hk|].
  apply IH, Hf, Hk.
Qed.

Lemma place_row_covers f colIndex rowNodes :
  (forall m node c k, JsMap.has m k = true -> JsMap.has (f m node c) k = true) ->
  (forall m node c, JsMap.has (f m node c) (id node) = true) ->
  forall m n, In n rowNodes ->
              JsMap.has (place_row f colIndex rowNodes m) (id n) = true.
Proof.
  intros Hkeep Hset. revert colIndex.
  induction rowNodes as [|n0 rowNodes IH]; intros colIndex m n Hin; [destruct Hin|].
  destruct Hin as [->|Hin]; simpl.
  - apply place_row_keeps; [exact Hkeep | apply Hset].
  - now apply IH.
Qed.

Lemma place_node_keeps h r rows off d m node c k :
  JsMap.has m k = true -> JsMap.has (place_node h r rows off d m node c) k = true.
Proof. intros Hk. unfold place_node. rewrite has_set, Hk. apply orb_true_r. Qed.

Lemma place_node_sets h r rows off d m node c :
  JsMap.has (place_node h r rows off d m node c) (id node) = true.
Proof. unfold place_node. now rewrite has_set, String.eqb_refl. Qed.

Lemma place_rows_keeps h r rows mx nodesByDepth :
  forall d m k, JsMap.has m k = true ->
                JsMap.has (place_rows h r rows mx d nodesByDepth m) k = true.
Proof.
  induction nodesByDepth as [|row more IH]; intros d m k Hk; simpl; [exact Hk|].
  apply IH, place_row_keeps; [|exact Hk].
  intros; now apply place_node_keeps.
Qed.

Lemma place_rows_covers h r rows mx nodesByDepth :
  forall d m n, In n (List.concat nodesByDepth) ->
                JsMap.has (place_rows h r rows mx d nodesByDepth m) (id n) = true.
Proof.
  induction nodesByDepth as [|row more IH]; intros d m n Hin; simpl in *; [contradiction|].
  apply in_app_iff in Hin as [Hin|Hin].
  - apply place_rows_keeps, place_row_covers; [| |exact Hin].
    + intros; now apply place_node_keeps.
    + intros; apply place_node_sets.
  - now apply IH.
Qed.

(** Positions stored by a left fold whose step sets the node's key. *)
Lemma fold_covers {S} (proj : S -> JsMap.t LayoutNode) (f : S -> ParsedNode -> S)
      (nodes : list ParsedNode) :
  (forall s node k, JsMap.has (proj s) k = true -> JsMap.has (proj (f s node)) k = true) ->
  (forall s node, JsMap.has (proj (f s node)) (id node) = true) ->
  forall s n, In n nodes -> JsMap.has (proj (fold_left f nodes s)) (id n) = true.
Proof.
  intros Hkeep Hset.
  assert (Hkeeps : forall l s k, JsMap.has (proj s) k = true ->
                                 JsMap.has (proj (fold_left f l s)) k = true).
  { induction l as [|a l IH]; simpl; intros s k Hk; [exact Hk | apply IH, Hkeep, Hk]. }
  induction nodes as [|n0 nodes IH]; intros s n Hin; [destruct Hin|].
  destruct Hin as [->|Hin]; simpl.
  - apply Hkeeps, Hset.
  - now apply IH.
Qed.

Lemma layoutSequenceDiagram_covers (diagram : ParsedDiagram) (n : ParsedNode) :
  In n (nodes diagram) ->
  JsMap.has (l_nodes (layoutSequenceDiagram diagram)) (id n) = true.
Proof.
  intros Hin. unfold layoutSequenceDiagram. simpl.
  apply (fold_covers fst place_participant); [| |exact Hin].
  - intros [m x0] node k Hk. simpl in *. rewrite has_set, Hk. apply orb_true_r.
  - intros [m x0] node. simpl. now rewrite has_set, String.eqb_refl.
Qed.

Lemma layoutERDiagram_covers (diagram : ParsedDiagram) (n : ParsedNode) :
  In n (nodes diagram) ->
  JsMap.has (l_nodes (layoutERDiagram diagram)) (id n) = true.
Proof.
  intros Hin. unfold layoutERDiagram. simpl.
  apply (fold_covers er_positions (er_place _ _)); [| |exact Hin].
  - intros s node k Hk. unfold er_place.
    destruct (_ <=? _)%nat; simpl; rewrite has_set, Hk; apply orb_true_r.
  - intros s node. unfold er_place.
    destruct (_ <=? _)%nat; simpl; now rewrite has_set, String.eqb_refl.
Qed.

Lemma layoutFlowchart_total (diagram : ParsedDiagram) :
  exists layout,
    layoutFlowchart diagram = Some layout /\
    (forall n, In n (nodes diagram) -> JsMap.has (l_nodes layout) (id n) = true) /\
    l_edges layout
    = map (fun e => layoutEdge e (l_nodes layout) (is_horizontal (direction diagram)))
          (edges diagram) /\
    l_subgraphs layout
    = map (fun sg => layoutSubgraph sg (l_nodes layout)) (subgraphs diagram).
Proof.
  unfold layoutFlowchart.
  destruct (calculateDepths_total (nodes diagram)
              (buildAdjacency (nodes diagram) (edges diagram))) as [depths Hd].
  rewrite Hd.
  destruct (groupByDepth_total (nodes diagram) depths) as (rows & -> & Hrows).
  - intros n Hn. unfold calculateDepths in Hd.
    destruct (bfs _ _ _ _ _); [|discriminate]. injection Hd as <-.
    now apply default_depths_has.
  - eexists. split; [reflexivity|]. simpl. split; [|split; reflexivity].
    intros n Hn. apply place_rows_covers, Hrows, Hn.
Qed.

(** The dispatcher always returns, with a position for every node. *)
Lemma layoutDiagram_total (diagram : ParsedDiagram) :
  exists layout,
    layoutDiagram diagram = Some layout /\
    (forall n, In n (nodes diagram) -> JsMap.has (l_nodes layout) (id n) = true).
Proof.
  unfold layoutDiagram.
  destruct (type diagram).
  - destruct (layoutFlowchart_total diagram) as (l & -> & H & _). eauto.
  - eexists. split; [reflexivity|]. intros; now apply layoutSequenceDiagram_covers.
  - eexists. split; [reflexivity|]. intros; now apply layoutERDiagram_covers.
  - destruct (layoutFlowchart_total diagram) as (l & -> & H & _). eauto.
Qed.

(** *** How many connectors each layout returns *)

Lemma mapi_from_length {A B} (f : A -> nat -> B) (l : list A) :
  forall i, List.length (mapi_from f i l) = List.length l.
Proof. induction l as [|a l IH]; intros i; simpl; [reflexivity | now rewrite IH]. Qed.

Lemma layoutERDiagram_edges (diagram : ParsedDiagram) :
  List.length (l_edges (layoutERDiagram diagram)) = List.length (edges diagram) /\
  l_subgraphs (layoutERDiagram diagram) = [].
Proof. split; [apply mapi_from_length | reflexivity]. Qed.

Lemma place_participant_keys (nodes : list ParsedNode) :
  forall acc k,
    JsMap.has (fst (fold_left place_participant nodes acc)) k
    = JsMap.has (fst acc) k || mem k (map id nodes).
Proof.
  induction nodes as [|n nodes IH]; intros [m x0] k; simpl.
  - now rewrite orb_false_r.
  - rewrite IH. simpl. rewrite has_set.
    destruct (String.eqb k (id n)), (JsMap.has m k); reflexivity.
Qed.

Lemma place_message_length (nodePositions : JsMap.t LayoutNode) (edges : list ParsedEdge) :
  forall acc,
    List.length (fst (fold_left (place_message nodePositions) edges acc))
    = List.length (fst acc)
      + List.length (filter (fun e => JsMap.has nodePositions (source e)
                                      && JsMap.has nodePositions (target e)) edges).
Proof.
  induction edges as [|e edges IH]; intros [layoutEdges messageY]; simpl; [lia|].
  rewrite IH. unfold place_message, JsMap.has.
  destruct (JsMap.get nodePositions (source e)), (JsMap.get nodePositions (target e));
    simpl; rewrite ?length_app; simpl; lia.
Qed.

Lemma layoutSequenceDiagram_edges (diagram : ParsedDiagram) :
  List.length (l_edges (layoutSequenceDiagram diagram))
  = List.length (filter (resolves diagram) (edges diagram)) /\
  l_subgraphs (layoutSequenceDiagram diagram) = [].
Proof.
  split; [|reflexivity]. unfold layoutSequenceDiagram. simpl l_edges.
  rewrite place_message_length. simpl. f_equal. apply filter_ext.
  intros e. unfold resolves. now rewrite !place_participant_keys.
Qed.

Lemma find_layoutSubgraph (nodePositions : JsMap.t LayoutNode)
      (subgraphs : list ParsedSubgraph) (sg : ParsedSubgraph) :
  In sg subgraphs ->
  find (fun l => String.eqb (ls_id l) (sg_id sg))
       (map (fun sg => layoutSubgraph sg nodePositions) subgraphs) <> None.
Proof.
  intros Hin. induction subgraphs as [|sg0 subgraphs IH]; [destruct Hin|].
  simpl.
  assert (Hid : ls_id (layoutSubgraph sg0 nodePositions) = sg_id sg0).
  { unfold layoutSubgraph. destruct (flat_map _ _); reflexivity. }
  rewrite Hid. destruct (String.eqb (sg_id sg0) (sg_id sg)) eqn:E; [discriminate|].
  destruct Hin as [->|Hin]; [now rewrite String.eqb_refl in E | now apply IH].
Qed.

(** *** The boxes and the connectors of a layout *)

Lemma mem_id (k : string) (nodes : list ParsedNode) :
  mem k (map id nodes) = true <-> exists n, In n nodes /\ id n = k.
Proof.
  unfold mem. rewrite existsb_exists. split.
  - intros (i & Hi & E). apply String.eqb_eq in E. subst i.
    apply in_map_iff in Hi as (n & Hn & Hin). eauto.
  - intros (n & Hin & <-). exists (id n). split; [now apply in_map | apply String.eqb_refl].
Qed.

Lemma place_row_only f rowNodes :
  (forall m node c k, JsMap.has (f m node c) k = true ->
                      k = id node \/ JsMap.has m k = true) ->
  forall c m k, JsMap.has (place_row f c rowNodes m) k = true ->
                JsMap.has m k = true \/ exists n, In n rowNodes /\ id n = k.
Proof.
  intros Hf. induction rowNodes as [|n rowNodes IH]; intros c m k H; simpl in H.
  - now left.
  - apply IH in H as [H|(n' & Hn' & E)].
    + apply Hf in H as [->|H]; [right; exists n; simpl; auto | now left].
    + right. exists n'. simpl. auto.
Qed.

Lemma place_rows_only h r rows mx nodesByDepth :
  forall d m k, JsMap.has (place_rows h r rows mx d nodesByDepth m) k = true ->
                JsMap.has m k = true \/ exists n, In n (List.concat nodesByDepth) /\ id n = k.
Proof.
  induction nodesByDepth as [|rowNodes more IH]; intros d m k H; simpl in H.
  - now left.
  - apply IH in H as [H|(n & Hn & E)].
    + apply place_row_only in H as [H|(n & Hn & E)].
      * now left.
      * right. exists n. simpl. rewrite in_app_iff. auto.
      * intros m0 node c k0 H0. unfold place_node in H0. rewrite has_set in H0.
        apply orb_true_iff in H0 as [E|H0]; [left; now apply String.eqb_eq | now right].
    + right. exists n. simpl. rewrite in_app_iff. auto.
Qed.

Lemma fold_only {S} (proj : S -> JsMap.t LayoutNode) (f : S -> ParsedNode -> S)
      (nodes : list ParsedNode) :
  (forall s node k, JsMap.has (proj (f s node)) k = true ->
                    k = id node \/ JsMap.has (proj s) k = true) ->
  forall s k, JsMap.has (proj (fold_left f nodes s)) k = true ->
              JsMap.has (proj s) k = true \/ exists n, In n nodes /\ id n = k.
Proof.
  intros Hf. induction nodes as [|n nodes IH]; intros s k H; simpl in H.
  - now left.
  - apply IH in H as [H|(n' & Hn' & E)].
    + apply Hf in H as [->|H]; [right; exists n; simpl; auto | now left].
    + right. exists n'. simpl. auto.
Qed.

(** The boxes of a layout are the boxes of the nodes of the diagram. *)
Lemma layout_keys (diagram : ParsedDiagram) (layout : LayoutResult) (k : string) :
  layoutDiagram diagram = Some layout ->
  JsMap.has (l_nodes layout) k = mem k (map id (nodes diagram)).
Proof.
  intros Hl.
  assert (Hcov : forall n, In n (nodes diagram) -> JsMap.has (l_nodes layout) (id n) = true).
  { destruct (layoutDiagram_total diagram) as (layout' & Hl' & H).
    rewrite Hl in Hl'. now injection Hl' as <-. }
  assert (Honly : JsMap.has (l_nodes layout) k = true ->
                  exists n, In n (nodes diagram) /\ id n = k).
  { unfold layoutDiagram in Hl.
    assert (Hflow : layoutFlowchart diagram = Some layout ->
                    JsMap.has (l_nodes layout) k = true ->
                    exists n, In n (nodes diagram) /\ id n = k).
    { clear Hl. intros Hl H. unfold layoutFlowchart in Hl.
      destruct (calculateDepths _ _) as [depths|] eqn:Ed; [|discriminate].
      destruct (groupByDepth _ _) as [nodesByDepth|] eqn:Eg; [|discriminate].
      injection Hl as <-. cbn [l_nodes] in H.
      apply place_rows_only in H as [H|(n & Hn & E)]; [discriminate|].
      exists n. split; [|exact E].
      unfold calculateDepths in Ed.
      destruct (bfs _ _ _ _ _) as [depths0|]; [|discriminate]. injection Ed as <-.
      destruct (groupByDepth_total (nodes diagram) (default_depths (nodes diagram) depths0))
        as (rows & Hrows & Hin); [intros n0 Hn0; now apply default_depths_has|].
      rewrite Eg in Hrows. injection Hrows as <-. now apply Hin. }
    revert Hl. destruct (type diagram); intros Hl; [now apply Hflow | | | now apply Hflow].
    - injection Hl as <-. intros H. cbn [l_nodes layoutSequenceDiagram] in H.
      rewrite place_participant_keys in H. cbn [fst] in H.
      apply orb_true_iff in H as [H|H]; [discriminate | now apply mem_id].
    - injection Hl as <-. intros H. cbn [l_nodes layoutERDiagram] in H.
      apply (fold_only er_positions) in H as [H|H]; [discriminate | exact H |].
      intros s node k0 H0. unfold er_place in H0.
      destruct (_ <=? _); cbn [er_positions] in H0; rewrite has_set in H0;
        apply orb_true_iff in H0 as [E|H0];
        try (left; now apply String.eqb_eq); now right. }
  destruct (mem k (map id (nodes diagram))) eqn:E.
  - apply mem_id in E as (n & Hn & <-). now apply Hcov.
  - destruct (JsMap.has (l_nodes layout) k) eqn:H; [|reflexivity].
    apply mem_id in Honly; [congruence | reflexivity].
Qed.

Lemma routes_of_gets (diagram : ParsedDiagram) (layout : LayoutResult)
      (e : ParsedEdge) (le : LayoutEdge) :
  layoutDiagram diagram = Some layout ->
  le_label le = edge_label e ->
  List.length (points le)
  = match JsMap.get (l_nodes layout) (source e), JsMap.get (l_nodes layout) (target e) with
    | Some _, Some _ => 2
    | _, _ => 0
    end ->
  routes diagram e le.
Proof.
  intros Hl Hlabel Hpoints. split; [exact Hlabel|]. rewrite Hpoints.
  unfold resolves.
  rewrite <- (layout_keys diagram layout (source e) Hl),
          <- (layout_keys diagram layout (target e) Hl).
  unfold JsMap.has.
  destruct (JsMap.get (l_nodes layout) (source e)),
           (JsMap.get (l_nodes layout) (target e)); reflexivity.
Qed.

Lemma layoutEdge_routes (e : ParsedEdge) (m : JsMap.t LayoutNode) (h : bool) :
  le_label (layoutEdge e m h) = edge_label e /\
  List.length (points (layoutEdge e m h))
  = match JsMap.get m (source e), JsMap.get m (target e) with
    | Some _, Some _ => 2
    | _, _ => 0
    end.
Proof.
  unfold layoutEdge.
  destruct (JsMap.get m (source e)) as [s|], (JsMap.get m (target e)) as [t|];
    try (split; reflexivity).
  destruct h; [destruct (Layout.lt (x s) (x t)) | destruct (Layout.lt (y s) (y t))];
    split; reflexivity.
Qed.

Lemma layoutEdgeGeneric_routes (e : ParsedEdge) (m : JsMap.t LayoutNode) (i : nat) :
  le_label (layoutEdgeGenericWithOffset e m i) = edge_label e /\
  List.length (points (layoutEdgeGenericWithOffset e m i))
  = match JsMap.get m (source e), JsMap.get m (target e) with
    | Some _, Some _ => 2
    | _, _ => 0
    end.
Proof.
  unfold layoutEdgeGenericWithOffset.
  destruct (JsMap.get m (source e)) as [s|], (JsMap.get m (target e)) as [t|];
    try (split; reflexivity).
  cbv zeta.
  repeat match goal with
         | |- context [if ?c then _ else _] => destruct c
         end; split; reflexivity.
Qed.

Lemma place_messages_route (diagram : ParsedDiagram) (m : JsMap.t LayoutNode)
      (es : list ParsedEdge) :
  (forall k, JsMap.has m k = mem k (map id (nodes diagram))) ->
  forall done y0 before,
    Forall2 (routes diagram) before done ->
    Forall2 (routes diagram) (before ++ filter (resolves diagram) es)
            (fst (fold_left (place_message m) es (done, y0))).
Proof.
  intros Hkeys. induction es as [|e es IH]; intros done y0 before Hdone; cbn [fold_left filter].
  - now rewrite app_nil_r.
  - unfold resolves at 1. rewrite <- !Hkeys. unfold JsMap.has, place_message at 2.
    destruct (JsMap.get m (source e)) as [s|] eqn:Es;
      [destruct (JsMap.get m (target e)) as [t|] eqn:Et|]; cbn [andb].
    + replace (before ++ e :: filter (resolves diagram) es)
        with ((before ++ [e]) ++ filter (resolves diagram) es)
        by (now rewrite <- app_assoc).
      apply IH. apply Forall2_app; [exact Hdone|]. constructor; [|constructor].
      split; [reflexivity|]. unfold resolves. rewrite <- !Hkeys. unfold JsMap.has.
      now rewrite Es, Et.
    + now apply IH.
    + now apply IH.
Qed.

Lemma mapi_from_Forall2 {A B} (R : A -> B -> Prop) (f : A -> nat -> B) (l : list A) :
  (forall a i, R a (f a i)) -> forall i, Forall2 R l (mapi_from f i l).
Proof.
  intros H. induction l as [|a l IH]; intros i; simpl; constructor; auto.
Qed.

Lemma map_Forall2 {A B} (R : A -> B -> Prop) (f : A -> B) (l : list A) :
  (forall a, R a (f a)) -> Forall2 R l (map f l).
Proof. intros H. induction l; simpl; constructor; auto. Qed.

(** How the layouts route the edges of a diagram. *)
Lemma layout_routes (diagram : ParsedDiagram) (layout : LayoutResult) :
  layoutDiagram diagram = Some layout ->
  Forall2 (routes diagram) (connectors diagram) (l_edges layout).
Proof.
  intros Hl. pose proof Hl as Hl'. unfold layoutDiagram in Hl'. unfold connectors.
  assert (Hflow : layoutFlowchart diagram = Some layout ->
                  Forall2 (routes diagram) (edges diagram) (l_edges layout)).
  { intros Hf. destruct (layoutFlowchart_total diagram) as (layout' & Hf' & _ & He & _).
    rewrite Hf in Hf'. injection Hf' as <-. rewrite He.
    apply map_Forall2. intros e.
    apply (routes_of_gets diagram layout); [exact Hl | apply layoutEdge_routes..]. }
  revert Hl'. destruct (type diagram) eqn:Et; intros Hl'; cbn [Convert.is_sequence].
  - now apply Hflow.
  - injection Hl' as <-. cbn [l_edges layoutSequenceDiagram].
    apply (place_messages_route diagram _ (edges diagram)
             (fun k => layout_keys diagram _ k Hl) [] _ []).
    constructor.
  - injection Hl' as <-. cbn [l_edges layoutERDiagram].
    apply mapi_from_Forall2. intros e i.
    apply (routes_of_gets diagram (layoutERDiagram diagram));
      [exact Hl | apply layoutEdgeGeneric_routes..].
  - now apply Hflow.
Qed.

End LayoutFacts.

(** ** The scene synthesizer *)

Module SceneFacts.
Import JsString Types Directive Diagram Layout Elements Convert JsMapFacts LayoutFacts.
Import Notions.

(** *** What one emission step may do to the scene *)

Lemma step_ok_refl (sc : Scene) : step_ok 0 0 sc sc.
Proof.
  exists []. constructor; simpl; auto using app_nil_r.
Qed.

Lemma step_ok_trans (ns1 na1 ns2 na2 : nat) (sc1 sc2 sc3 : Scene) :
  step_ok ns1 na1 sc1 sc2 -> step_ok ns2 na2 sc2 sc3 ->
  step_ok (ns1 + ns2) (na1 + na2) sc1 sc3.
Proof.
  intros [new1 H1] [new2 H2]. exists (new1 ++ new2).
  destruct H1, H2. constructor.
  - now rewrite ext_elements1, ext_elements0, app_assoc.
  - rewrite ext_counter1, ext_counter0, length_app. lia.
  - rewrite map_app, length_app, seq_app, map_app, ext_tokens0, ext_tokens1.
    now rewrite ext_counter0.
  - now rewrite ext_arrows1, ext_arrows0, filter_app, app_assoc.
  - apply Forall_app; split; assumption.
  - apply Forall_app; split.
    + eapply Forall_impl; [|exact ext_bindings0].
      intros e He b Hb. destruct (He b Hb) as [Ha [Hk|(s & Hs & Hshape & Hid)]].
      * split; [exact Ha | left; exact Hk].
      * split; [exact Ha | right; exists s; rewrite in_app_iff; auto].
    + eapply Forall_impl; [|exact ext_bindings1].
      intros e He b Hb. destruct (He b Hb) as [Ha [[k Hk]|(s & Hs & Hshape & Hid)]].
      * split; [exact Ha|].
        destruct (ext_ids0 k _ Hk) as [Hold|(s & Hs & Hshape & Hid)].
        -- left. eauto.
        -- right. exists s. rewrite in_app_iff. auto.
      * split; [exact Ha | right; exists s; rewrite in_app_iff; auto].
  - intros k v Hk. destruct (ext_ids1 k v Hk) as [Hmid|(s & Hs & Hshape & Hid)].
    + destruct (ext_ids0 k v Hmid) as [Hold|(s & Hs & Hshape & Hid)]; [now left|].
      right. exists s. rewrite in_app_iff. auto.
    + right. exists s. rewrite in_app_iff. auto.
  - rewrite filter_app, length_app. congruence.
  - rewrite filter_app, length_app. congruence.
Qed.

Lemma step_ok_counts (ns na ns' na' : nat) (sc sc' : Scene) :
  step_ok ns na sc sc' -> ns = ns' -> na = na' -> step_ok ns' na' sc sc'.
Proof. now intros H -> ->. Qed.

(** A loop whose every iteration is a step is a step. *)
Lemma foldM_step_ok {A} (f : Scene -> A -> M Scene) (cs ca : A -> nat) :
  (forall sc a w, step_ok (cs a) (ca a) sc (fst (f sc a w))) ->
  forall l sc w,
    step_ok (list_sum (map cs l)) (list_sum (map ca l)) sc (fst (foldM f l sc w)).
Proof.
  intros Hf. induction l as [|a l IH]; intros sc w; simpl.
  - apply step_ok_refl.
  - unfold bind. specialize (Hf sc a w). destruct (f sc a w) as [sc1 w1].
    simpl in Hf. eapply step_ok_trans; [exact Hf | apply IH].
Qed.

(** *** The primitives that the constructors return *)

Lemma createText_spec x y text idx options w :
  let e := fst (createText x y text idx options w) in
  e_type e = t_text /\ index e = idx /\ plain e.
Proof. repeat split; reflexivity. Qed.

Lemma createLine_spec x1 y1 x2 y2 idx options w :
  let e := fst (createLine x1 y1 x2 y2 idx options w) in
  e_type e = t_line /\ index e = idx /\ plain e.
Proof. repeat split; reflexivity. Qed.

Lemma createSubgraphRect_spec layout sg idx w :
  let e := fst (createSubgraphRect layout sg idx w) in
  e_type e = t_rectangle /\ index e = idx /\ plain e.
Proof. repeat split; reflexivity. Qed.

Lemma nodeShapeToElement_spec layout node idx w :
  let e := fst (nodeShapeToElement layout node idx w) in
  is_shape e = true /\ index e = idx /\ plain e.
Proof. unfold nodeShapeToElement. destruct (shape node); repeat split; reflexivity. Qed.

Lemma createArrow_spec edge idx options w :
  let e := fst (createArrow edge idx options w) in
  e_type e = t_arrow /\ index e = idx /\ boundElements e = [] /\
  (forall b, has_binding e b ->
             ab_start (bindings options) = Some b \/ ab_end (bindings options) = Some b).
Proof.
  unfold createArrow, has_binding.
  destruct (points edge) as [|p0 [|p1 ps]]; repeat split; try reflexivity;
    simpl; intros b [H|H]; try discriminate; auto.
Qed.

(** *** The steps of the synthesizer *)

Lemma push_step (sc : Scene) (e : Element) :
  index e = index_token (indexCounter sc) -> plain e -> is_arrow e = false ->
  step_ok (if is_shape e then 1 else 0) 0 sc (push sc e).
Proof.
  intros Hidx (Hb & Hs & He) Harrow. exists [e]. constructor; simpl.
  - reflexivity.
  - lia.
  - now rewrite Hidx.
  - now rewrite Harrow, app_nil_r.
  - now constructor.
  - constructor; [|constructor]. intros b [H|H]; congruence.
  - intros k v H. now left.
  - now destruct (is_shape e).
  - now rewrite Harrow.
Qed.

Lemma push_text_step (sc : Scene) (e : Element) (text : string) :
  index e = index_token (indexCounter sc) -> plain e -> e_type e = t_text ->
  step_ok 0 0 sc (push_text sc e text).
Proof.
  intros Hidx (Hb & Hs & He) Hty.
  assert (Harrow : is_arrow e = false) by (unfold is_arrow; now rewrite Hty).
  assert (Hshape : is_shape e = false) by (unfold is_shape; now rewrite Hty).
  exists [e]. constructor; simpl.
  - reflexivity.
  - lia.
  - now rewrite Hidx.
  - now rewrite Harrow, app_nil_r.
  - now constructor.
  - constructor; [|constructor]. intros b [H|H]; congruence.
  - intros k v H. now left.
  - now rewrite Hshape.
  - now rewrite Harrow.
Qed.

Lemma emit_subgraph_step layout sc sg w :
  step_ok (if found_subgraph layout sg then 1 else 0) 0 sc
          (fst (emit_subgraph layout sc sg w)).
Proof.
  unfold emit_subgraph, found_subgraph.
  destruct (find _ (l_subgraphs layout)) as [layoutSg|]; [|apply step_ok_refl].
  unfold bind, ret.
  destruct (createSubgraphRect layoutSg sg (index_token (indexCounter sc)) w)
    as [sgRect w1] eqn:E1.
  pose proof (createSubgraphRect_spec layoutSg sg (index_token (indexCounter sc)) w) as S1.
  rewrite E1 in S1. simpl in S1. destruct S1 as (T1 & I1 & P1).
  destruct (createText _ _ _ _ _ w1) as [labelText w2] eqn:E2.
  match type of E2 with
  | createText ?x ?y ?t ?i ?o ?w = _ =>
      pose proof (createText_spec x y t i o w) as S2
  end.
  rewrite E2 in S2. simpl in S2. destruct S2 as (T2 & I2 & P2).
  simpl fst.
  apply (step_ok_counts (1 + 0) (0 + 0)); [|reflexivity|reflexivity].
  eapply step_ok_trans.
  - eapply step_ok_counts; [apply (push_step sc sgRect); auto| |reflexivity].
    + unfold is_arrow. now rewrite T1.
    + unfold is_shape. now rewrite T1.
  - apply push_text_step; auto.
Qed.

Lemma node_step (sc : Scene) (node : ParsedNode) (sh : Element) (text : TextElementInfo) :
  is_shape sh = true -> index sh = index_token (indexCounter sc) -> plain sh ->
  e_type (ti_element text) = t_text ->
  index (ti_element text) = index_token (S (indexCounter sc)) ->
  plain (ti_element text) ->
  step_ok 1 0 sc
    {| elements := elements sc ++ [sh; ti_element text];
       textInfos := textInfos sc ++ [text];
       indexCounter := S (S (indexCounter sc));
       nodeElementIds := JsMap.set (nodeElementIds sc) (id node) (e_id sh);
       arrowElements := arrowElements sc |}.
Proof.
  intros Hshape Hidx (Hb & Hs & He) Hty Hidx' (Hb' & Hs' & He').
  assert (Harrow : is_arrow sh = false)
    by (unfold is_arrow; unfold is_shape in Hshape; destruct (e_type sh); auto; discriminate).
  assert (Harrow' : is_arrow (ti_element text) = false) by (unfold is_arrow; now rewrite Hty).
  assert (Hshape' : is_shape (ti_element text) = false) by (unfold is_shape; now rewrite Hty).
  exists [sh; ti_element text]. constructor; simpl.
  - reflexivity.
  - lia.
  - now rewrite Hidx, Hidx'.
  - now rewrite Harrow, Harrow', app_nil_r.
  - repeat constructor; assumption.
  - constructor; [|constructor; [|constructor]]; intros b [H|H]; congruence.
  - intros k v H. destruct (String.eqb k (id node)) eqn:E.
    + apply String.eqb_eq in E. subst k. rewrite get_set_same in H.
      injection H as <-. right. exists sh. auto.
    + apply String.eqb_neq in E. rewrite get_set_other in H by exact E. now left.
  - now rewrite Hshape, Hshape'.
  - now rewrite Harrow, Harrow'.
Qed.

Lemma emit_node_step diagram layout sc node w :
  step_ok (if placed layout node then 1 else 0) 0 sc
          (fst (emit_node diagram layout sc node w)).
Proof.
  unfold emit_node, placed, JsMap.has.
  destruct (JsMap.get (l_nodes layout) (id node)) as [layoutNode|]; [|apply step_ok_refl].
  unfold bind, ret, createNodeWithLabel, bind, ret.
  destruct (nodeShapeToElement layoutNode node (index_token (indexCounter sc)) w)
    as [sh w1] eqn:E1.
  pose proof (nodeShapeToElement_spec layoutNode node (index_token (indexCounter sc)) w) as S1.
  rewrite E1 in S1. simpl in S1. destruct S1 as (T1 & I1 & P1).
  destruct (createText _ _ _ _ _ w1) as [tel w2] eqn:E2.
  match type of E2 with
  | createText ?x ?y ?t ?i ?o ?w = _ =>
      pose proof (createText_spec x y t i o w) as S2
  end.
  rewrite E2 in S2. simpl in S2. destruct S2 as (T2 & I2 & P2).
  pose proof (node_step sc node sh
                {| ti_element := tel; ti_id := e_id tel; ti_text := label node |}
                T1 I1 P1 T2 I2 P2) as Hnode.
  destruct (is_er (type diagram) && includes (label node) nl); [|exact Hnode].
  destruct (createLine _ _ _ _ _ _ w2) as [sep w3] eqn:E3.
  match type of E3 with
  | createLine ?a ?b ?c ?d ?i ?o ?w = _ =>
      pose proof (createLine_spec a b c d i o w) as S3
  end.
  rewrite E3 in S3. simpl in S3. destruct S3 as (T3 & I3 & P3).
  simpl fst.
  apply (step_ok_counts (1 + 0) (0 + 0)); [|reflexivity|reflexivity].
  eapply step_ok_trans; [exact Hnode|].
  eapply step_ok_counts; [apply push_step; auto| |reflexivity].
  - unfold is_arrow. now rewrite T3.
  - unfold is_shape. now rewrite T3.
Qed.

Lemma emit_lifeline_step layout lifelineEndY sc node w :
  step_ok 0 0 sc (fst (emit_lifeline layout lifelineEndY sc node w)).
Proof.
  unfold emit_lifeline.
  destruct (JsMap.get (l_nodes layout) (id node)) as [layoutNode|]; [|apply step_ok_refl].
  unfold bind, ret.
  destruct (createLine _ _ _ _ _ _ w) as [line w1] eqn:E.
  match type of E with
  | createLine ?a ?b ?c ?d ?i ?o ?w = _ =>
      pose proof (createLine_spec a b c d i o w) as S1
  end.
  rewrite E in S1. simpl in S1. destruct S1 as (T1 & I1 & P1).
  simpl fst.
  eapply step_ok_counts; [apply push_step; auto| |reflexivity].
  - unfold is_arrow. now rewrite T1.
  - unfold is_shape. now rewrite T1.
Qed.

Lemma binding_to_known (m : JsMap.t string) (k : string) (b : Binding) :
  binding_to (JsMap.get m k) = Some b -> JsMap.get m k = Some (elementId b).
Proof.
  unfold binding_to, truthy. destruct (JsMap.get m k) as [v|]; [|discriminate].
  destruct (is_empty v); [discriminate|]. now intros [= <-].
Qed.

Lemma arrow_step (sc : Scene) (arrow : Element) :
  e_type arrow = t_arrow -> index arrow = index_token (indexCounter sc) ->
  boundElements arrow = [] ->
  (forall b, has_binding arrow b ->
             exists k, JsMap.get (nodeElementIds sc) k = Some (elementId b)) ->
  step_ok 0 1 sc
    {| elements := elements sc ++ [arrow]; textInfos := textInfos sc;
       indexCounter := S (indexCounter sc);
       nodeElementIds := nodeElementIds sc;
       arrowElements := arrowElements sc ++ [arrow] |}.
Proof.
  intros Hty Hidx Hb Hbind.
  assert (Harrow : is_arrow arrow = true) by (unfold is_arrow; now rewrite Hty).
  assert (Hshape : is_shape arrow = false) by (unfold is_shape; now rewrite Hty).
  exists [arrow]. constructor; simpl.
  - reflexivity.
  - lia.
  - now rewrite Hidx.
  - now rewrite Harrow.
  - now constructor.
  - constructor; [|constructor]. intros b H. split; [exact Harrow|].
    left. now apply Hbind.
  - intros k v H. now left.
  - now rewrite Hshape.
  - now rewrite Harrow.
Qed.

Lemma emit_edge_step parsedEdgeMap sc layoutEdge w :
  step_ok 0 1 sc (fst (emit_edge parsedEdgeMap sc layoutEdge w)).
Proof.
  unfold emit_edge, bind, ret.
  destruct (createArrow _ _ _ w) as [arrow w1] eqn:E1.
  match type of E1 with
  | createArrow ?e ?i ?o ?w = _ => pose proof (createArrow_spec e i o w) as S1
  end.
  rewrite E1 in S1. simpl in S1. destruct S1 as (T1 & I1 & B1 & K1).
  assert (Harrow : step_ok 0 1 sc
            {| elements := elements sc ++ [arrow]; textInfos := textInfos sc;
               indexCounter := S (indexCounter sc);
               nodeElementIds := nodeElementIds sc;
               arrowElements := arrowElements sc ++ [arrow] |}).
  { apply arrow_step; auto. intros b Hb.
    destruct (K1 b Hb) as [H|H]; apply binding_to_known in H; eauto. }
  destruct (truthy (le_label layoutEdge)) as [lbl|]; [|exact Harrow].
  destruct (points layoutEdge) as [|p0 [|p1 ps]]; try exact Harrow.
  destruct (createText _ _ _ _ _ w1) as [labelText w2] eqn:E2.
  match type of E2 with
  | createText ?x ?y ?t ?i ?o ?w = _ =>
      pose proof (createText_spec x y t i o w) as S2
  end.
  rewrite E2 in S2. simpl in S2. destruct S2 as (T2 & I2 & P2).
  simpl fst.
  apply (step_ok_counts (0 + 0) (1 + 0)); [|reflexivity|reflexivity].
  eapply step_ok_trans; [exact Harrow|].
  apply push_text_step; auto.
Qed.

(** *** The whole synthesis *)

Lemma list_sum_indicator {A} (p : A -> bool) (l : list A) :
  list_sum (map (fun a => if p a then 1 else 0) l) = count p l.
Proof.
  unfold count. induction l as [|a l IH]; simpl; [reflexivity|].
  destruct (p a); simpl; lia.
Qed.

Lemma list_sum_ones {A} (l : list A) : list_sum (map (fun _ => 1) l) = List.length l.
Proof. induction l; simpl; auto. Qed.

Lemma list_sum_zeros {A} (l : list A) : list_sum (map (fun _ => 0) l) = 0.
Proof. induction l; simpl; auto. Qed.

(** The scene before the finishing pass. *)
Lemma synthesize_scene (diagram : ParsedDiagram) (layout : LayoutResult) (w : World) :
  exists sc,
    step_ok (count (found_subgraph layout) (subgraphs diagram)
             + count (placed layout) (nodes diagram))
            (List.length (l_edges layout)) empty_scene sc /\
    r_elements (fst (synthesize diagram layout w))
    = map (reconcile (arrowElements sc)) (elements sc).
Proof.
  unfold synthesize, bind, ret.
  pose proof (foldM_step_ok (emit_subgraph layout)
                (fun sg => if found_subgraph layout sg then 1 else 0) (fun _ => 0)
                (emit_subgraph_step layout) (subgraphs diagram) empty_scene w) as H1.
  destruct (foldM (emit_subgraph layout) (subgraphs diagram) empty_scene w) as [sc1 w1].
  pose proof (foldM_step_ok (emit_node diagram layout)
                (fun n => if placed layout n then 1 else 0) (fun _ => 0)
                (emit_node_step diagram layout) (nodes diagram) sc1 w1) as H2.
  destruct (foldM (emit_node diagram layout) (nodes diagram) sc1 w1) as [sc2 w2].
  simpl fst in H1, H2.
  rewrite list_sum_indicator, list_sum_zeros in H1.
  rewrite list_sum_indicator, list_sum_zeros in H2.
  assert (H3 : exists sc3 w3,
             (if is_sequence (type diagram)
              then foldM (emit_lifeline layout
                            (fold_left (fun m e => fold_left (fun m p => max m (py p))
                                                             (points e) m)
                                       (l_edges layout) 0%Q + 80)%Q)
                         (nodes diagram) sc2
              else (fun w0 => (sc2, w0))) w2 = (sc3, w3) /\
             step_ok 0 0 sc2 sc3).
  { destruct (is_sequence (type diagram)).
    - match goal with
      | |- context [foldM ?f ?l ?s ?w] =>
          pose proof (foldM_step_ok f (fun _ => 0) (fun _ => 0)
                        (emit_lifeline_step layout _) l s w) as H;
          destruct (foldM f l s w) as [sc3 w3]
      end.
      simpl fst in H. rewrite list_sum_zeros in H. eauto.
    - exists sc2, w2. split; [reflexivity | apply step_ok_refl]. }
  destruct H3 as (sc3 & w3 & -> & H3).
  match goal with
  | |- context [foldM (emit_edge ?m) ?l ?s ?w] =>
      pose proof (foldM_step_ok (emit_edge m) (fun _ => 0) (fun _ => 1)
                    (emit_edge_step m) l s w) as H4;
      destruct (foldM (emit_edge m) l s w) as [sc4 w4]
  end.
  simpl fst in H4. rewrite list_sum_zeros, list_sum_ones in H4.
  exists sc4. split; [|reflexivity].
  eapply step_ok_counts;
    [exact (step_ok_trans _ _ _ _ _ _ _
              (step_ok_trans _ _ _ _ _ _ _ (step_ok_trans _ _ _ _ _ _ _ H1 H2) H3) H4)
    | lia | lia].
Qed.

(** *** The finishing pass *)

Lemma reconcile_index arrows e : index (reconcile arrows e) = index e.
Proof.
  unfold reconcile. destruct (is_shape e); [|reflexivity].
  destruct (map _ _); reflexivity.
Qed.

Lemma reconcile_is_arrow arrows e : is_arrow (reconcile arrows e) = is_arrow e.
Proof.
  unfold reconcile. destruct (is_shape e); [|reflexivity].
  destruct (map _ _); reflexivity.
Qed.

Lemma reconcile_is_shape arrows e : is_shape (reconcile arrows e) = is_shape e.
Proof.
  unfold reconcile. destruct (is_shape e) eqn:E; [|exact E].
  destruct (map _ _); [exact E | exact E].
Qed.

Lemma reconcile_id arrows e : e_id (reconcile arrows e) = e_id e.
Proof.
  unfold reconcile. destruct (is_shape e); [|reflexivity].
  destruct (map _ _); reflexivity.
Qed.

Lemma reconcile_has_binding arrows e b :
  has_binding (reconcile arrows e) b -> has_binding e b.
Proof.
  unfold reconcile. destruct (is_shape e); [|auto].
  destruct (map _ _); auto.
Qed.

Lemma shape_not_arrow e : is_shape e = true -> is_arrow e = false.
Proof. unfold is_shape, is_arrow. destruct (e_type e); auto; discriminate. Qed.

Lemma reconcile_arrow arrows e : is_arrow e = true -> reconcile arrows e = e.
Proof.
  intros H. unfold reconcile. destruct (is_shape e) eqn:E; [|reflexivity].
  apply shape_not_arrow in E. congruence.
Qed.

Lemma reconcile_bound arrows e :
  is_shape e = true -> boundElements e = [] ->
  boundElements (reconcile arrows e)
  = map (fun a => (e_id a, t_arrow)) (filter (binds (e_id e)) arrows).
Proof.
  intros Hs Hb. unfold reconcile. rewrite Hs.
  destruct (map _ _) eqn:E; [exact Hb | reflexivity].
Qed.

Lemma filter_arrow_reconcile arrows l :
  filter is_arrow (map (reconcile arrows) l) = filter is_arrow l.
Proof.
  induction l as [|e l IH]; simpl; [reflexivity|].
  rewrite reconcile_is_arrow. destruct (is_arrow e) eqn:E; [|exact IH].
  now rewrite reconcile_arrow, IH.
Qed.

Lemma count_shape_reconcile arrows l :
  count is_shape (map (reconcile arrows) l) = count is_shape l.
Proof.
  unfold count. induction l as [|e l IH]; simpl; [reflexivity|].
  rewrite reconcile_is_shape. destruct (is_shape e); simpl; now rewrite IH.
Qed.

Lemma binds_of_binding (a : Element) (b : Binding) :
  has_binding a b -> binds (elementId b) a = true.
Proof.
  unfold has_binding, binds. intros [H|H]; rewrite H, String.eqb_refl; simpl;
    [reflexivity | apply orb_true_r].
Qed.

(** What [convertToExcalidraw] returns: the primitives [new] in emission
    order, passed through the finishing pass. *)
Lemma convert_scene (diagram : ParsedDiagram) (w : World) :
  exists layout result w' new,
    layoutDiagram diagram = Some layout /\
    convertToExcalidraw diagram w = Some (result, w') /\
    r_elements result = map (reconcile (filter is_arrow new)) new /\
    map index new = map index_token (seq 0 (List.length new)) /\
    Forall (fun e => boundElements e = []) new /\
    Forall (fun e => forall b,
                has_binding e b ->
                is_arrow e = true /\
                exists s, In s new /\ is_shape s = true /\ e_id s = elementId b) new /\
    count is_shape new
    = count (found_subgraph layout) (subgraphs diagram) + List.length (nodes diagram) /\
    count is_arrow new = List.length (l_edges layout).
Proof.
  destruct (LayoutFacts.layoutDiagram_total diagram) as (layout & Hl & Hplaced).
  destruct (synthesize_scene diagram layout w) as (sc & [new Hext] & Hres).
  destruct Hext. simpl in *.
  exists layout, (fst (synthesize diagram layout w)), (snd (synthesize diagram layout w)), new.
  split; [exact Hl|].
  split; [unfold convertToExcalidraw; rewrite Hl; now destruct (synthesize diagram layout w)|].
  split; [now rewrite Hres, ext_arrows0, ext_elements0|].
  split; [exact ext_tokens0|].
  split; [exact ext_unbound0|].
  split.
  { eapply Forall_impl; [|exact ext_bindings0].
    intros e He b Hb. destruct (He b Hb) as [Ha [[k Hk]|Hs]]; [discriminate | auto]. }
  split; [|exact ext_arrow_count0].
  unfold count at 1. rewrite ext_shapes0. f_equal.
  unfold count. rewrite forallb_filter_id; [reflexivity|].
  apply forallb_forall. exact Hplaced.
Qed.

(** *** Order tokens *)

Lemma nth_error_tokens (n k : nat) :
  k < n -> nth_error (map index_token (seq 0 n)) k = Some (index_token k).
Proof.
  intros H. rewrite nth_error_map, nth_error_seq.
  destruct (Nat.ltb_spec k n) as [_|Hge]; [reflexivity | lia].
Qed.

Lemma tokens_sorted_below_ten (n : nat) :
  n <= 10 ->
  StronglySorted (fun a b => token_lt a b = true) (map index_token (seq 0 n)).
Proof.
  intros H. do 11 (destruct n as [|n]; [repeat constructor|]). lia.
Qed.

(** C9: the primitives carry the tokens a0, a1, a2, ... in emission order,
    the counter printed in decimal behind the letter a.  The tokens are
    strings: up to ten primitives they increase along the scene, but in
    every scene of more than ten primitives the token a10 of the eleventh
    primitive comes before the token a9 of the tenth, so the tokens do not
    strictly increase in emission order. *)
Theorem index_tokens_leave_string_order (diagram : ParsedDiagram) (w : World) :
  exists result w',
    convertToExcalidraw diagram w = Some (result, w') /\
    map index (r_elements result)
    = map index_token (seq 0 (List.length (r_elements result))) /\
    (List.length (r_elements result) <= 10 ->
     StronglySorted (fun a b => token_lt a b = true) (map index (r_elements result))) /\
    (10 < List.length (r_elements result) ->
     exists tenth eleventh,
       nth_error (r_elements result) 9 = Some tenth /\
       nth_error (r_elements result) 10 = Some eleventh /\
       index tenth = "a9" /\ index eleventh = "a10" /\
       token_lt (index tenth) (index eleventh) = false /\
       token_lt (index eleventh) (index tenth) = true).
Proof.
  destruct (convert_scene diagram w)
    as (layout & result & w' & new & _ & Hc & Hres & Htok & _).
  exists result, w'.
  assert (Hlen : List.length (r_elements result) = List.length new)
    by (rewrite Hres; apply length_map).
  assert (Hidx : map index (r_elements result)
                 = map index_token (seq 0 (List.length (r_elements result)))).
  { rewrite Hlen, Hres, map_map, <- Htok. apply map_ext. intros e. apply reconcile_index. }
  split; [exact Hc|]. split; [exact Hidx|]. split.
  - intros Hsmall. rewrite Hidx. now apply tokens_sorted_below_ten.
  - intros Hbig.
    assert (H9 : nth_error (map index (r_elements result)) 9 = Some (index_token 9))
      by (rewrite Hidx; apply nth_error_tokens; lia).
    assert (H10 : nth_error (map index (r_elements result)) 10 = Some (index_token 10))
      by (rewrite Hidx; apply nth_error_tokens; lia).
    rewrite nth_error_map in H9, H10.
    destruct (nth_error (r_elements result) 9) as [tenth|]; [|discriminate].
    destruct (nth_error (r_elements result) 10) as [eleventh|]; [|discriminate].
    injection H9 as H9. injection H10 as H10.
    exists tenth, eleventh. rewrite H9, H10. repeat split; reflexivity.
Qed.

Lemma index_tokens_leave_string_order_witness :
  exists result w',
    convertToExcalidraw (Flowchart.parseFlowchart two_routes) sample_world
    = Some (result, w') /\
    map index (r_elements result)
    = ["a0"; "a1"; "a2"; "a3"; "a4"; "a5"; "a6"; "a7"; "a8"; "a9"; "a10"; "a11"] /\
    exists tenth eleventh,
      nth_error (r_elements result) 9 = Some tenth /\
      nth_error (r_elements result) 10 = Some eleventh /\
      index tenth = "a9" /\ index eleventh = "a10" /\
      token_lt (index tenth) (index eleventh) = false /\
      token_lt (index eleventh) (index tenth) = true.
Proof.
  destruct (index_tokens_leave_string_order (Flowchart.parseFlowchart two_routes)
              sample_world) as (result & w' & Hc & Hidx & _ & Hbig).
  assert (Hlen : List.length (r_elements result) = 12).
  { assert (E : option_map (fun rw => List.length (r_elements (fst rw)))
                 (convertToExcalidraw (Flowchart.parseFlowchart two_routes) sample_world)
               = Some 12) by (vm_compute; reflexivity).
    rewrite Hc in E. simpl in E. now injection E. }
  exists result, w'. split; [exact Hc|]. split.
  - rewrite Hidx, Hlen. reflexivity.
  - apply Hbig. rewrite Hlen. lia.
Defined.

(** *** Bindings *)

(** C3: after the finishing pass every shape lists exactly the arrows of the
    scene that are bound to it, and every binding of an arrow points to a
    shape of the scene that lists the arrow. *)
Theorem bindings_are_symmetric (diagram : ParsedDiagram) (w : World) :
  exists result w',
    convertToExcalidraw diagram w = Some (result, w') /\
    (forall s, In s (r_elements result) -> is_shape s = true ->
               boundElements s
               = map (fun a => (e_id a, t_arrow))
                     (filter (binds (e_id s)) (filter is_arrow (r_elements result)))) /\
    (forall a b, In a (r_elements result) -> has_binding a b ->
                 is_arrow a = true /\
                 exists s, In s (r_elements result) /\ is_shape s = true /\
                           e_id s = elementId b /\
                           In (e_id a, t_arrow) (boundElements s)).
Proof.
  destruct (convert_scene diagram w)
    as (layout & result & w' & new & _ & Hc & Hres & _ & Hunbound & Hbind & _).
  exists result, w'. split; [exact Hc|].
  rewrite Forall_forall in Hunbound, Hbind.
  rewrite Hres, filter_arrow_reconcile. split.
  - intros s Hs Hshape. apply in_map_iff in Hs as (s0 & <- & Hs0).
    rewrite reconcile_is_shape in Hshape. rewrite reconcile_id.
    apply reconcile_bound; auto.
  - intros a b Ha Hb. apply in_map_iff in Ha as (a0 & <- & Ha0).
    assert (Hb0 : has_binding a0 b) by (eapply reconcile_has_binding; exact Hb).
    destruct (Hbind a0 Ha0 b Hb0) as (Harrow & s0 & Hs0 & Hshape & Hid).
    rewrite reconcile_is_arrow. split; [exact Harrow|].
    exists (reconcile (filter is_arrow new) s0).
    split; [now apply in_map|].
    rewrite reconcile_is_shape, reconcile_id. split; [exact Hshape|]. split; [exact Hid|].
    rewrite reconcile_bound by auto.
    rewrite (reconcile_arrow _ a0 Harrow).
    apply (in_map (fun a => (e_id a, t_arrow))).
    apply filter_In. split; [apply filter_In; auto|].
    rewrite Hid. now apply binds_of_binding.
Qed.

(** *** Shapes and arrows *)

(** C2, as stated: in [unresolved_source] the edge from [A] has no source
    node (the only node is [B]), so no edge resolves on both ends; the scene
    still holds one arrow primitive, the fallback arrow without waypoints. *)
Lemma unresolved_edge_still_drawn :
  let diagram := Flowchart.parseFlowchart unresolved_source in
  let scene := option_map (fun rw => r_elements (fst rw))
                          (convertToExcalidraw diagram sample_world) in
  map id (nodes diagram) = ["B"] /\
  map (fun e => (source e, target e)) (edges diagram) = [("A", "B")] /\
  count (resolves diagram) (edges diagram) = 0 /\
  option_map (map (fun e => (e_type e, e_points e))) scene
  = Some [(t_rectangle, None); (t_text, None); (t_arrow, None)] /\
  option_map (count is_arrow) scene <> Some 0.
Proof.
  cbv zeta. repeat split; try (vm_compute; reflexivity).
  vm_compute. discriminate.
Qed.

Lemma found_all_subgraphs (nodePositions : JsMap.t LayoutNode)
      (layout : LayoutResult) (subgraphs : list ParsedSubgraph) :
  l_subgraphs layout = map (fun sg => layoutSubgraph sg nodePositions) subgraphs ->
  count (found_subgraph layout) subgraphs = List.length subgraphs.
Proof.
  intros Hsg. unfold count. rewrite forallb_filter_id; [reflexivity|].
  apply forallb_forall. intros sg Hin. unfold found_subgraph. rewrite Hsg.
  pose proof (LayoutFacts.find_layoutSubgraph nodePositions subgraphs sg Hin) as H.
  destruct (find _ _); [reflexivity | contradiction].
Qed.

Lemma found_no_subgraph (layout : LayoutResult) (subgraphs : list ParsedSubgraph) :
  l_subgraphs layout = [] -> count (found_subgraph layout) subgraphs = 0.
Proof.
  intros Hsg. unfold count, found_subgraph. rewrite Hsg. simpl.
  induction subgraphs; simpl; auto.
Qed.

(** The numbers of shapes and of arrows in a scene. *)
Lemma scene_counts (diagram : ParsedDiagram) (w : World) :
  exists result w',
    convertToExcalidraw diagram w = Some (result, w') /\
    count is_shape (r_elements result)
    = List.length (nodes diagram)
      + (if is_sequence (type diagram) || is_er (type diagram) then 0
         else List.length (subgraphs diagram)) /\
    count is_arrow (r_elements result)
    = (if is_sequence (type diagram)
       then count (resolves diagram) (edges diagram)
       else List.length (edges diagram)).
Proof.
  destruct (convert_scene diagram w)
    as (layout & result & w' & new & Hl & Hc & Hres & _ & _ & _ & Hshapes & Harrows).
  exists result, w'. split; [exact Hc|].
  rewrite Hres, count_shape_reconcile.
  unfold count at 2. rewrite filter_arrow_reconcile. fold (count is_arrow new).
  rewrite Hshapes, Harrows, Nat.add_comm.
  assert (Hflow : layoutFlowchart diagram = Some layout ->
                  count (found_subgraph layout) (subgraphs diagram)
                  = List.length (subgraphs diagram) /\
                  List.length (l_edges layout) = List.length (edges diagram)).
  { intros Hf. destruct (LayoutFacts.layoutFlowchart_total diagram)
      as (layout' & Hf' & _ & He & Hs).
    rewrite Hf in Hf'. injection Hf' as <-. split.
    - eapply found_all_subgraphs. exact Hs.
    - rewrite He. apply length_map. }
  unfold layoutDiagram in Hl.
  destruct (type diagram); simpl.
  - destruct (Hflow Hl) as [-> ->]. auto.
  - injection Hl as <-.
    destruct (LayoutFacts.layoutSequenceDiagram_edges diagram) as [He Hs].
    rewrite (found_no_subgraph _ _ Hs), He. auto.
  - injection Hl as <-.
    destruct (LayoutFacts.layoutERDiagram_edges diagram) as [He Hs].
    rewrite (found_no_subgraph _ _ Hs), He. auto.
  - destruct (Hflow Hl) as [-> ->]. auto.
Qed.

(** *** The connectors, one by one *)

Lemma emit_edge_part parsedEdgeMap sc layoutEdge w :
  exists part,
    elements (fst (emit_edge parsedEdgeMap sc layoutEdge w)) = elements sc ++ part /\
    edge_part layoutEdge part.
Proof.
  unfold emit_edge, edge_part, routed_arrow, fallback_arrow, label_text, createArrow, bind, ret.
  destruct (points layoutEdge) as [|p0 [|p1 ps]] eqn:Ep; cbn [List.length Nat.leb].
  - destruct (truthy (le_label layoutEdge)); eexists; (split; [reflexivity|]);
      refine (ex_intro _ _ (conj _ eq_refl)); repeat split.
  - destruct (truthy (le_label layoutEdge)); eexists; (split; [reflexivity|]);
      refine (ex_intro _ _ (conj _ eq_refl)); repeat split.
  - destruct (truthy (le_label layoutEdge)) as [lbl|].
    + eexists. split; [cbn; rewrite <- app_assoc; reflexivity|].
      refine (ex_intro _ _ (conj _ (ex_intro _ _ (conj _ eq_refl)))); repeat split.
    + eexists. split; [reflexivity|].
      refine (ex_intro _ _ (conj _ eq_refl)); repeat split.
Qed.

Lemma foldM_edge_parts parsedEdgeMap les :
  forall sc w,
    exists parts,
      elements (fst (foldM (emit_edge parsedEdgeMap) les sc w))
      = elements sc ++ List.concat parts /\
      Forall2 edge_part les parts.
Proof.
  induction les as [|le les IH]; intros sc w; cbn [foldM].
  - exists []. split; [simpl; now rewrite app_nil_r | constructor].
  - unfold bind. destruct (emit_edge_part parsedEdgeMap sc le w) as (part & He & Hp).
    destruct (emit_edge parsedEdgeMap sc le w) as [sc1 w1]. cbn [fst] in He.
    destruct (IH sc1 w1) as (parts & Hes & Hps).
    exists (part :: parts). split; [|now constructor].
    rewrite Hes, He. cbn [List.concat]. now rewrite app_assoc.
Qed.

Lemma edge_part_plain (le : LayoutEdge) (part : list Element) :
  edge_part le part -> Forall (fun e => is_shape e = false) part.
Proof.
  unfold edge_part, routed_arrow, fallback_arrow, label_text, is_shape.
  destruct (2 <=? _).
  - intros (a & (Ha & _) & H). destruct (truthy (le_label le)).
    + destruct H as (t & (Ht & _) & ->). repeat constructor; [now rewrite Ha | now rewrite Ht].
    + subst part. repeat constructor. now rewrite Ha.
  - intros (a & (Ha & _) & ->). repeat constructor. now rewrite Ha.
Qed.

Lemma map_reconcile_plain (arrows l : list Element) :
  Forall (fun e => is_shape e = false) l -> map (reconcile arrows) l = l.
Proof.
  induction 1 as [|e l He _ IH]; [reflexivity|].
  simpl. rewrite IH. unfold reconcile. now rewrite He.
Qed.

Lemma concat_plain (les : list LayoutEdge) (parts : list (list Element)) :
  Forall2 edge_part les parts -> Forall (fun e => is_shape e = false) (List.concat parts).
Proof.
  induction 1 as [|le part les parts Hp _ IH]; [constructor|].
  simpl. apply Forall_app. split; [eapply edge_part_plain; exact Hp | exact IH].
Qed.

(** The scene, connector by connector: behind the frames, the node shapes
    and the lines, which hold no arrow, every connector of the layout adds
    its part. *)
Lemma synthesize_links (diagram : ParsedDiagram) (layout : LayoutResult) (w : World) :
  exists front parts,
    r_elements (fst (synthesize diagram layout w)) = front ++ List.concat parts /\
    count is_arrow front = 0 /\
    count is_shape front
    = count (found_subgraph layout) (subgraphs diagram)
      + count (placed layout) (nodes diagram) /\
    Forall2 edge_part (l_edges layout) parts.
Proof.
  unfold synthesize, bind, ret.
  pose proof (foldM_step_ok (emit_subgraph layout)
                (fun sg => if found_subgraph layout sg then 1 else 0) (fun _ => 0)
                (emit_subgraph_step layout) (subgraphs diagram) empty_scene w) as H1.
  destruct (foldM (emit_subgraph layout) (subgraphs diagram) empty_scene w) as [sc1 w1].
  pose proof (foldM_step_ok (emit_node diagram layout)
                (fun n => if placed layout n then 1 else 0) (fun _ => 0)
                (emit_node_step diagram layout) (nodes diagram) sc1 w1) as H2.
  destruct (foldM (emit_node diagram layout) (nodes diagram) sc1 w1) as [sc2 w2].
  simpl fst in H1, H2.
  rewrite list_sum_indicator, list_sum_zeros in H1.
  rewrite list_sum_indicator, list_sum_zeros in H2.
  assert (H3 : exists sc3 w3,
             (if is_sequence (type diagram)
              then foldM (emit_lifeline layout
                            (fold_left (fun m e => fold_left (fun m p => max m (py p))
                                                             (points e) m)
                                       (l_edges layout) 0%Q + 80)%Q)
                         (nodes diagram) sc2
              else (fun w0 => (sc2, w0))) w2 = (sc3, w3) /\
             step_ok 0 0 sc2 sc3).
  { destruct (is_sequence (type diagram)).
    - match goal with
      | |- context [foldM ?f ?l ?s ?w] =>
          pose proof (foldM_step_ok f (fun _ => 0) (fun _ => 0)
                        (emit_lifeline_step layout _) l s w) as H;
          destruct (foldM f l s w) as [sc3 w3]
      end.
      simpl fst in H. rewrite list_sum_zeros in H. eauto.
    - exists sc2, w2. split; [reflexivity | apply step_ok_refl]. }
  destruct H3 as (sc3 & w3 & -> & H3).
  pose proof (step_ok_trans _ _ _ _ _ _ _ (step_ok_trans _ _ _ _ _ _ _ H1 H2) H3)
    as [new Hnew].
  destruct Hnew. cbn [elements empty_scene app] in ext_elements0.
  match goal with
  | |- context [foldM (emit_edge ?m) ?l ?s ?w] =>
      destruct (foldM_edge_parts m l s w) as (parts & Hes & Hps);
      destruct (foldM (emit_edge m) l s w) as [sc4 w4]
  end.
  cbn [fst] in Hes. cbn [fst r_elements].
  exists (map (reconcile (arrowElements sc4)) new), parts.
  split; [|split; [|split; [|exact Hps]]].
  - rewrite Hes, ext_elements0, map_app. f_equal.
    apply map_reconcile_plain. eapply concat_plain. exact Hps.
  - unfold count. rewrite filter_arrow_reconcile. rewrite ext_arrow_count0. lia.
  - rewrite count_shape_reconcile. unfold count at 1. rewrite ext_shapes0. lia.
Qed.

Lemma drawn_of_routes (diagram : ParsedDiagram) (e : ParsedEdge) (le : LayoutEdge)
      (part : list Element) :
  routes diagram e le -> edge_part le part -> drawn diagram e part.
Proof.
  unfold routes, edge_part, drawn, routed_arrow. intros [Hlabel Hlen].
  rewrite Hlabel, Hlen. destruct (resolves diagram e); cbn [Nat.leb]; [|auto].
  intros (a & (Ha & Hp) & H).
  destruct (points le) as [|p0 [|p1 [|p2 ps]]]; try discriminate.
  destruct Hp as (_ & _ & Hp). exists a. eexists. repeat split; [exact Ha | exact Hp | reflexivity | exact H].
Qed.

Lemma Forall2_chain {A B C} (P : A -> B -> Prop) (Q : B -> C -> Prop) (R : A -> C -> Prop) :
  (forall a b c, P a b -> Q b c -> R a c) ->
  forall la lb lc, Forall2 P la lb -> Forall2 Q lb lc -> Forall2 R la lc.
Proof.
  intros H la lb lc HP. revert lc. induction HP; intros lc HQ; inversion HQ; subst;
    constructor; eauto.
Qed.

(** C2, amended: one shape per node, besides one background rectangle per
    subgraph of a flowchart; one arrow per connector of the layout, which is
    every parsed edge in flowcharts and entity-relationship diagrams, resolved
    or not, and every edge with two known endpoints in sequence diagrams.
    Behind the shapes the scene goes connector by connector: an edge whose
    two ends are ids of nodes adds an arrow with two waypoints and, if it
    has a label, the text of the label; an edge with an unresolved end adds
    the fallback arrow alone, without waypoints and without bindings, also
    if it has a label. *)
Theorem shape_per_node_arrow_per_connector (diagram : ParsedDiagram) (w : World) :
  exists result w' front parts,
    convertToExcalidraw diagram w = Some (result, w') /\
    r_elements result = front ++ List.concat parts /\
    count is_arrow front = 0 /\
    Forall2 (drawn diagram) (connectors diagram) parts /\
    count is_shape (r_elements result)
    = List.length (nodes diagram)
      + (if is_sequence (type diagram) || is_er (type diagram) then 0
         else List.length (subgraphs diagram)) /\
    count is_arrow (r_elements result)
    = (if is_sequence (type diagram)
       then count (resolves diagram) (edges diagram)
       else List.length (edges diagram)).
Proof.
  destruct (scene_counts diagram w) as (result & w' & Hc & Hshapes & Harrows).
  pose proof Hc as Hc'. unfold convertToExcalidraw in Hc'.
  destruct (layoutDiagram diagram) as [layout|] eqn:Hl; [|discriminate].
  injection Hc' as Hsyn.
  destruct (synthesize_links diagram layout w) as (front & parts & Hel & Hfront & _ & Hparts).
  rewrite Hsyn in Hel. cbn [fst] in Hel.
  exists result, w', front, parts.
  split; [exact Hc|]. split; [exact Hel|]. split; [exact Hfront|]. split.
  - eapply Forall2_chain; [apply drawn_of_routes | apply layout_routes; exact Hl | exact Hparts].
  - split; [exact Hshapes | exact Harrows].
Qed.

End SceneFacts.

(** ** The matcher only moves forward *)

Module RegexFacts.
Import JsString Regex.
Import Notions.

(** The loop of a star, given that its body only moves forward. *)
Lemma star_forward (fl : flags) (g : bool) (r1 : regex) (k : mstate -> option mstate) :
  (forall st k x,
      mt fl r1 st k = Some x ->
      exists st', String.length (rest st') <= String.length (rest st) /\ k st' = Some x) ->
  forall n st x,
    (fix loop (n : nat) (st0 : mstate) {struct n} : option mstate :=
       match n with
       | 0 => k st0
       | S n' =>
           let again st1 :=
             if String.length (rest st1) <? String.length (rest st0)
             then loop n' st1 else None in
           if g then
             match mt fl r1 st0 again with
             | Some x => Some x
             | None => k st0
             end
           else
             match k st0 with
             | Some x => Some x
             | None => mt fl r1 st0 again
             end
       end) n st = Some x ->
    exists st', String.length (rest st') <= String.length (rest st) /\ k st' = Some x.
Proof.
  intros IH1. induction n as [|n IHn]; intros st x H; [eauto|].
  cbn zeta in H.
  assert (Hiter : forall (again : mstate -> option mstate) y,
             (forall st1 z, again st1 = Some z ->
                            exists st', String.length (rest st') <= String.length (rest st1)
                                        /\ k st' = Some z) ->
             mt fl r1 st again = Some y ->
             exists st', String.length (rest st') <= String.length (rest st)
                         /\ k st' = Some y).
  { intros again y Hagain Hy. apply IH1 in Hy as (st1 & Hle1 & Hy).
    apply Hagain in Hy as (st2 & Hle2 & Hy). exists st2. split; [lia | exact Hy]. }
  destruct g.
  - match type of H with
    | match mt fl r1 st ?a with _ => _ end = _ =>
        destruct (mt fl r1 st a) eqn:E; [injection H as <-; apply (Hiter a); [|exact E]|eauto]
    end.
    intros st1 z Hz.
    destruct (String.length (rest st1) <? String.length (rest st)); [|discriminate].
    now apply IHn.
  - destruct (k st) eqn:E; [injection H as <-; eauto|].
    match type of H with
    | mt fl r1 st ?a = _ => apply (Hiter a); [|exact H]
    end.
    intros st1 z Hz.
    destruct (String.length (rest st1) <? String.length (rest st)); [|discriminate].
    now apply IHn.
Qed.

(** Whatever the matcher hands to its continuation lies at or behind the
    position it started from. *)
Lemma mt_forward (fl : flags) (r : regex) :
  forall st k x,
    mt fl r st k = Some x ->
    exists st', String.length (rest st') <= String.length (rest st) /\ k st' = Some x.
Proof.
  induction r as [ |c|p|r1 IH1 r2 IH2|r1 IH1 r2 IH2|g r1 IH1|r1 IH1|n r1 IH1| | | ];
    intros st k x H.
  - eauto.
  - simpl in H. destruct (rest st) as [|d s'] eqn:E; [discriminate|].
    destruct (char_eq fl c d); [|discriminate].
    eexists. split; [|exact H]. simpl. lia.
  - simpl in H. destruct (rest st) as [|d s'] eqn:E; [discriminate|].
    destruct (p d); [|discriminate].
    eexists. split; [|exact H]. simpl. lia.
  - simpl in H. apply IH1 in H as (st1 & Hle1 & H).
    apply IH2 in H as (st2 & Hle2 & H).
    exists st2. split; [lia | exact H].
  - simpl in H. destruct (mt fl r1 st k) eqn:E1.
    + injection H as <-. now apply IH1.
    + now apply IH2.
  - exact (star_forward fl g r1 k IH1 (S (String.length (rest st))) st x H).
  - simpl in H.
    match type of H with
    | match ?m with _ => _ end = _ => destruct m eqn:E
    end.
    + injection H as <-. apply IH1 in E as (st1 & Hle1 & E).
      destruct (String.length (rest st1) <? String.length (rest st)); [|discriminate].
      eauto.
    + eauto.
  - simpl in H. apply IH1 in H as (st1 & Hle1 & H).
    eexists. split; [|exact H]. simpl. exact Hle1.
  - simpl in H. destruct (at_bol fl st); [eauto | discriminate].
  - simpl in H. destruct (at_eol fl st); [eauto | discriminate].
  - simpl in H. destruct (xorb _ _); [eauto | discriminate].
Qed.

(** A first-match replacement by the empty text never lengthens the text,
    and shortens it when the match is not empty. *)
Lemma search_shrinks (fl : flags) (r : regex) :
  (forall p s st', match_here fl r p s = Some st' ->
                   String.length (rest st') < String.length s) ->
  forall s p f,
    search fl r p s = Some f ->
    String.length (before f +++ EmptyString +++ after f) < String.length s.
Proof.
  intros Hne. induction s as [|c s IH]; intros p f H; simpl in H.
  - destruct (match_here fl r p EmptyString) eqn:E; [|discriminate].
    apply Hne in E. simpl in E. lia.
  - destruct (match_here fl r p (String c s)) eqn:E.
    + injection H as <-. simpl. now apply Hne in E.
    + destruct (search fl r (Some c) s) eqn:E2; [|discriminate].
      injection H as <-. simpl. apply IH in E2. simpl in E2. lia.
Qed.

End RegexFacts.

(** ** Dialect detection *)

Module DetectFacts.
Import JsString Regex Types Directive Diagram Server.
Import Notions.

(** *** Literals and anchored patterns *)

Lemma mt_Lit (fl : flags) (kw : string) :
  forall st k,
    mt fl (Lit kw) st k
    = match skip_lit fl kw st with Some st' => k st' | None => None end.
Proof.
  induction kw as [|c kw IH]; intros st k; simpl; [reflexivity|].
  destruct (rest st) as [|d s']; [reflexivity|].
  destruct (char_eq fl c d); [apply IH | reflexivity].
Qed.

Lemma skip_lit_rest (kw : string) :
  forall st, option_map rest (skip_lit flag_im kw st) = strip_prefix_ci kw (rest st).
Proof.
  induction kw as [|c kw IH]; intros st; simpl; [reflexivity|].
  destruct (rest st) as [|d s']; [reflexivity|].
  unfold char_eq. simpl.
  destruct (Ascii.eqb (to_upper_char c) (to_upper_char d)); [|reflexivity].
  now rewrite IH.
Qed.

(** A multi-line search for [^r] looks at the start of every line. *)
Lemma search_anchored (r : regex) (holds : string -> bool) :
  (forall st, is_some (mt flag_im r st Some) = holds (rest st)) ->
  forall s p, is_some (search flag_im (Seq Bol r) p s) = some_line holds (starts_line p) s.
Proof.
  intros Hr. induction s as [|c s IH]; intros p.
  - simpl. unfold match_here. simpl. unfold at_bol. simpl.
    specialize (Hr {| prev := p; rest := EmptyString; caps := [] |}). simpl in Hr.
    destruct p as [c|]; simpl.
    + destruct (is_line_terminator c); simpl.
      * rewrite <- Hr. destruct (mt flag_im r _ Some); reflexivity.
      * reflexivity.
    + rewrite <- Hr. destruct (mt flag_im r _ Some); reflexivity.
  - simpl. unfold match_here. simpl. unfold at_bol. simpl prev.
    specialize (Hr {| prev := p; rest := String c s; caps := [] |}). simpl rest in Hr.
    specialize (IH (Some c)). simpl starts_line in IH.
    assert (Hnext : is_some (match search flag_im (Seq Bol r) (Some c) s with
                             | Some f =>
                                 Some {| before := String c (before f);
                                         matched := matched f; after := after f;
                                         last := last f; groups := groups f |}
                             | None => None
                             end)
                    = some_line holds (is_line_terminator c) s).
    { rewrite <- IH. destruct (search flag_im (Seq Bol r) (Some c) s); reflexivity. }
    destruct p as [c0|]; simpl starts_line; simpl multiline.
    + destruct (is_line_terminator c0); simpl andb.
      * rewrite <- Hr. destruct (mt flag_im r _ Some); [reflexivity | exact Hnext].
      * exact Hnext.
    + rewrite <- Hr. destruct (mt flag_im r _ Some); [reflexivity | exact Hnext].
Qed.

Lemma test_anchored (r : regex) (holds : string -> bool) (s : string) :
  (forall st, is_some (mt flag_im r st Some) = holds (rest st)) ->
  test flag_im (Seq Bol r) s = some_line holds true s.
Proof.
  intros Hr. unfold test, exec.
  pose proof (search_anchored r holds Hr s None) as H. simpl starts_line in H.
  rewrite <- H. destruct (search flag_im (Seq Bol r) None s); reflexivity.
Qed.

(** *** The three header tests, read line by line *)

Lemma lit_holds (kw : string) (st : mstate) :
  is_some (mt flag_im (Lit kw) st Some) = header kw (rest st).
Proof.
  rewrite mt_Lit. unfold header. rewrite <- skip_lit_rest.
  destruct (skip_lit flag_im kw st); reflexivity.
Qed.

Lemma lit_space_holds (kw : string) (st : mstate) (k : mstate -> mstate) :
  (forall st1, rest (k st1) = rest st1) ->
  is_some (mt flag_im (Lit kw) st (fun st1 => mt flag_im space (k st1) Some))
  = header_space kw (rest st).
Proof.
  intros Hk. rewrite mt_Lit. unfold header_space. rewrite <- skip_lit_rest.
  destruct (skip_lit flag_im kw st) as [st'|]; simpl; [|reflexivity].
  rewrite Hk. destruct (rest st') as [|d s']; [reflexivity|].
  destruct (is_space d); reflexivity.
Qed.

Lemma alt_lit_space_holds (a b : string) (st : mstate) :
  is_some (mt flag_im (Seq (Grp 1 (Alt (Lit a) (Lit b))) space) st Some)
  = header_space a (rest st) || header_space b (rest st).
Proof.
  cbn [mt].
  set (k := fun st1 : mstate =>
              {| prev := prev st1; rest := rest st1;
                 caps := (1, consumed st st1) :: caps st1 |}).
  pose proof (lit_space_holds a st k (fun _ => eq_refl)) as Ha.
  pose proof (lit_space_holds b st k (fun _ => eq_refl)) as Hb.
  subst k. cbn beta in Ha, Hb. rewrite <- Ha, <- Hb.
  destruct (mt flag_im (Lit a) st _); [reflexivity|].
  reflexivity.
Qed.

Lemma classify_by_lines (text : string) : classify text = classify_lines text.
Proof.
  unfold classify, classify_lines.
  change re_flowchart
    with (Seq Bol (Seq (Grp 1 (Alt (Lit "flowchart") (Lit "graph"))) space)).
  unfold re_sequence, re_er.
  rewrite (test_anchored _
             (fun s => header_space "flowchart" s || header_space "graph" s) text
             (alt_lit_space_holds "flowchart" "graph")).
  rewrite (test_anchored _ (header "sequenceDiagram") text (lit_holds "sequenceDiagram")).
  rewrite (test_anchored _ (header "erDiagram") text (lit_holds "erDiagram")).
  reflexivity.
Qed.

(** *** Removing a leading directive block *)

(** One round of a lazy star over a character class. *)
Lemma mt_lazy_star (fl : flags) (p : ascii -> bool) (st : mstate)
      (k : mstate -> option mstate) :
  mt fl (Star false (Cls p)) st k
  = match k st with
    | Some x => Some x
    | None =>
        match rest st with
        | String d s' =>
            if p d then mt fl (Star false (Cls p)) (advance d s' st) k else None
        | EmptyString => None
        end
    end.
Proof.
  destruct st as [pv rs cs]. destruct rs as [|d s']; cbn.
  - destruct (k _); reflexivity.
  - destruct (k _); [reflexivity|]. destruct (p d); [|reflexivity].
    unfold advance. cbn. rewrite Nat.leb_refl. reflexivity.
Qed.

(** One round of a greedy star over a character class. *)
Lemma mt_greedy_star (fl : flags) (p : ascii -> bool) (st : mstate)
      (k : mstate -> option mstate) :
  mt fl (Star true (Cls p)) st k
  = match
      match rest st with
      | String d s' =>
          if p d then mt fl (Star true (Cls p)) (advance d s' st) k else None
      | EmptyString => None
      end
    with
    | Some x => Some x
    | None => k st
    end.
Proof.
  destruct st as [pv rs cs]. destruct rs as [|d s']; cbn; [reflexivity|].
  destruct (p d); [|reflexivity].
  unfold advance. cbn. rewrite Nat.leb_refl. reflexivity.
Qed.

Lemma skip_lit_exact (kw : string) :
  forall st, is_some (skip_lit no_flags kw st) = startsWith (rest st) kw.
Proof.
  induction kw as [|c kw IH]; intros st; simpl; [now destruct (rest st)|].
  destruct (rest st) as [|d s']; [reflexivity|].
  unfold char_eq. simpl. destruct (Ascii.eqb c d); [apply IH | reflexivity].
Qed.

Lemma startsWith_app (p : string) :
  forall s t, String.length p <= String.length s ->
              startsWith (s +++ t) p = startsWith s p.
Proof.
  induction p as [|a p IH]; intros s t Hlen; [destruct s; [destruct t|]; reflexivity|].
  destruct s as [|b s]; simpl in *; [lia|].
  destruct (Ascii.eqb a b); [apply IH; lia | reflexivity].
Qed.

Lemma append_assoc (a b c : string) : (a +++ b) +++ c = a +++ b +++ c.
Proof. induction a as [|x a IH]; simpl; [reflexivity | now rewrite IH]. Qed.

Lemma length_append (a b : string) :
  String.length (a +++ b) = String.length a + String.length b.
Proof. induction a as [|x a IH]; simpl; [reflexivity | now rewrite IH]. Qed.

Lemma mt_Seq (fl : flags) (a b : regex) (st : mstate) (k : mstate -> option mstate) :
  mt fl (Seq a b) st k = mt fl a st (fun st1 => mt fl b st1 k).
Proof. reflexivity. Qed.

(** *** Trimming *)

Lemma trimEnd_app_keep (x y : string) :
  is_empty (trimEnd y) = false -> trimEnd (x +++ y) = x +++ trimEnd y.
Proof.
  intros Hy. induction x as [|c x IH]; [reflexivity|].
  simpl. rewrite IH.
  assert (Hne : is_empty (x +++ trimEnd y) = false).
  { destruct x; [exact Hy | reflexivity]. }
  now rewrite Hne.
Qed.

(** *** The bound on the detector's recursion *)

Lemma skip_lit_length (fl : flags) (kw : string) :
  forall st st1,
    skip_lit fl kw st = Some st1 ->
    String.length (rest st1) + String.length kw = String.length (rest st).
Proof.
  induction kw as [|c kw IH]; intros st st1 H; simpl in H.
  - injection H as <-. simpl. lia.
  - destruct (rest st) as [|d s'] eqn:E; [discriminate|].
    destruct (char_eq fl c d); [|discriminate].
    apply IH in H. simpl in *. lia.
Qed.

Lemma block_match_consumes (p : option ascii) (s : string) (st' : mstate) :
  match_here no_flags re_directive_block p s = Some st' ->
  String.length (rest st') < String.length s.
Proof.
  unfold match_here.
  change re_directive_block
    with (Seq (Lit "%%{excali:")
              (Seq (Star false any) (Seq (Lit "}%%") (Star true space)))).
  rewrite mt_Seq, mt_Lit. intros H.
  destruct (skip_lit no_flags "%%{excali:" {| prev := p; rest := s; caps := [] |})
    as [st1|] eqn:E; [|discriminate].
  apply skip_lit_length in E. simpl in E.
  apply RegexFacts.mt_forward in H as (st2 & Hle & H). injection H as <-. lia.
Qed.

Lemma trimStart_length (s : string) : String.length (trimStart s) <= String.length s.
Proof.
  induction s as [|c s IH]; simpl; [lia|]. destruct (is_space c); simpl; lia.
Qed.

Lemma trimEnd_length (s : string) : String.length (trimEnd s) <= String.length s.
Proof.
  induction s as [|c s IH]; simpl; [lia|].
  destruct (is_empty (trimEnd s) && is_space c); simpl; lia.
Qed.

Lemma trim_length (s : string) : String.length (trim s) <= String.length s.
Proof.
  unfold trim. pose proof (trimEnd_length (trimStart s)). pose proof (trimStart_length s). lia.
Qed.

(** A text that starts with the marker but holds no complete block sends
    the detector into an endless recursion. *)
Lemma detect_stuck (t : string) :
  trim t = t ->
  test no_flags re_leading_directive t = true ->
  replace_first no_flags re_directive_block EmptyString t = t ->
  forall fuel, detectDiagramType fuel t = None.
Proof.
  intros Htrim Htest Hsame. induction fuel as [|fuel IH]; [reflexivity|].
  simpl. rewrite Htrim, Htest, Hsame. exact IH.
Qed.

(** A detection that has not returned after [length + 1] calls never
    returns: the bound used by [convert_tool] loses no answer. *)
Lemma detect_fuel_adequate (fuel : nat) :
  forall source,
    String.length source < fuel ->
    detectDiagramType fuel source = None ->
    forall fuel', detectDiagramType fuel' source = None.
Proof.
  induction fuel as [|fuel IH]; intros source Hlt H fuel'; [lia|].
  simpl in H.
  destruct (test no_flags re_leading_directive (trim source)) eqn:Htest; [|discriminate].
  assert (Hnext : forall f,
             detectDiagramType f
               (replace_first no_flags re_directive_block EmptyString (trim source)) = None).
  { unfold replace_first in *.
    destruct (exec no_flags re_directive_block (trim source)) as [fnd|] eqn:E.
    - apply IH; [|exact H].
      apply (RegexFacts.search_shrinks no_flags re_directive_block block_match_consumes) in E.
      pose proof (trim_length source). lia.
    - apply detect_stuck; [apply DirectiveFacts.trim_idempotent | exact Htest|].
      unfold replace_first. now rewrite E. }
  destruct fuel' as [|fuel']; [reflexivity|].
  simpl. rewrite Htest. apply Hnext.
Qed.

(** *** Detection *)


Lemma detect_plain (source : string) (fuel : nat) :
  test no_flags re_leading_directive (trim source) = false ->
  detectDiagramType (S fuel) source = Some (classify_lines (trim source)).
Proof.
  intros H. simpl. rewrite H. now rewrite classify_by_lines.
Qed.







End DetectFacts.

(* ================================================================== *)
(** * Further properties of the parsers, the layout and the synthesizer *)
(* ================================================================== *)

(** ** Parsers: well-formed graphs *)

Module ParserLaws.
Import JsString Regex Types Directive Diagram JsMapFacts ParserFacts.
Import Notions Vocabulary.

Lemma mem_In (x : string) (l : list string) : mem x l = true <-> In x l.
Proof.
  unfold mem. rewrite existsb_exists. split.
  - intros (y & Hy & E). apply String.eqb_eq in E. now subst.
  - intros H. exists x. split; [exact H | apply String.eqb_refl].
Qed.

(** *** Entity-relationship diagrams *)

Lemma has_keys {V} (m : JsMap.t V) (k : string) :
  JsMap.has m k = true <-> In k (JsMap.keys m).
Proof.
  unfold JsMap.has. induction m as [|[k0 v0] m IH]; simpl.
  - split; [discriminate | tauto].
  - destruct (String.eqb k k0) eqn:E.
    + apply String.eqb_eq in E. subst. split; auto.
    + apply String.eqb_neq in E. rewrite IH. split; auto.
      intros [H|H]; [congruence | exact H].
Qed.

Lemma keys_set_mono {V} (m : JsMap.t V) (k : string) (v : V) (k' : string) :
  In k' (JsMap.keys m) -> In k' (JsMap.keys (JsMap.set m k v)).
Proof. intros H. apply keys_set_in. now right. Qed.

Lemma ER_ensure_keys (name : string) (m : JsMap.t ER.EREntity) (k : string) :
  In k (JsMap.keys (ER.ensure name m)) <-> k = name \/ In k (JsMap.keys m).
Proof.
  unfold ER.ensure. destruct (JsMap.has m name) eqn:E.
  - apply has_keys in E. split; [now right | intros [->|H]; assumption].
  - apply keys_set_in.
Qed.

Lemma ER_joined_keep (st : ER.state) (m : JsMap.t ER.EREntity) (b : option string) (c : bool) :
  (forall k, In k (JsMap.keys (ER.entities st)) -> In k (JsMap.keys m)) ->
  ER_joined st ->
  ER_joined {| ER.entities := m; ER.relationships := ER.relationships st;
               ER.currentEntity := b; ER.inEntityBlock := c |}.
Proof.
  intros Hm H. unfold ER_joined in *. simpl.
  eapply Forall_impl; [|exact H]. intros r [H1 H2]. split; now apply Hm.
Qed.

Lemma ER_joined_add (st : ER.state) (r : ER.ERRelationship) :
  ER_joined st -> ER_joined (ER.add_relationship st r).
Proof.
  intros H. unfold ER_joined, ER.add_relationship in *. simpl.
  apply Forall_app. split.
  - eapply Forall_impl; [|exact H]. intros r0 [H1 H2].
    split; apply ER_ensure_keys; right; apply ER_ensure_keys; now right.
  - repeat constructor.
    + apply ER_ensure_keys. right. apply ER_ensure_keys. now left.
    + apply ER_ensure_keys. now left.
Qed.

Lemma ER_step_joined (st : ER.state) (line : string) :
  ER_joined st -> ER_joined (ER.step st line).
Proof.
  intros H. unfold ER.step.
  destruct (startsWith line "erDiagram"); [exact H|].
  destruct (exec no_flags ER.re_entity_start line).
  { apply ER_joined_keep; [|exact H]. intros k Hk.
    destruct (JsMap.get (ER.entities st) _); now apply keys_set_mono. }
  destruct (String.eqb line "}"); [now apply ER_joined_keep|].
  destruct (ER.inEntityBlock st), (ER.currentEntity st) as [cur|];
    repeat match goal with
           | |- context [exec ?f ?r ?l] => destruct (exec f r l)
           end;
    try exact H; try (now apply ER_joined_add).
  apply ER_joined_keep; [|exact H]. intros k Hk.
  unfold ER.push_attribute. destruct (JsMap.get (ER.entities st) cur); [|exact Hk].
  now apply keys_set_mono.
Qed.

(** X1: for every text, the entity-relationship parser returns a well-formed
    graph: no two nodes share an id, and both ends of every edge are ids of
    nodes (each relationship registers its two entities). *)
Theorem parseERDiagram_well_formed (text : string) :
  NoDup (map id (nodes (ER.parseERDiagram text))) /\
  Forall (joins (nodes (ER.parseERDiagram text))) (edges (ER.parseERDiagram text)).
Proof.
  split; [apply parseERDiagram_ids_unique|].
  unfold ER.parseERDiagram. simpl.
  set (st := fold_left ER.step _ ER.init).
  assert (Hinv : ER_joined st /\ named (ER.entities st)).
  { subst st.
    apply (fold_left_invariant (fun st => ER_joined st /\ named (ER.entities st))).
    - intros s a [H1 H2]. split; [now apply ER_step_joined | now apply ER_step_named].
    - split; constructor. }
  destruct Hinv as [Hj Hnamed].
  assert (Hids : map id (map (ER.node_of (parseExcaliDirective text))
                             (JsMap.values (ER.entities st)))
                 = JsMap.keys (ER.entities st)).
  { unfold JsMap.values, JsMap.keys. rewrite map_map, map_map. simpl.
    apply map_ext_in. intros kv Hin.
    unfold named in Hnamed. rewrite Forall_forall in Hnamed. now apply Hnamed. }
  apply Forall_map. unfold joins. rewrite Hids.
  eapply Forall_impl; [|exact Hj]. intros r Hr. exact Hr.
Qed.

(** *** Sequence diagrams *)

Lemma add_implicit_joined (x : string) (st : Sequence.state) :
  Sequence_joined st ->
  Sequence_joined (Sequence.add_implicit x st) /\
  In x (Sequence.participantOrder (Sequence.add_implicit x st)) /\
  incl (Sequence.participantOrder st) (Sequence.participantOrder (Sequence.add_implicit x st)) /\
  Sequence.messages (Sequence.add_implicit x st) = Sequence.messages st.
Proof.
  intros [H1 H2]. unfold Sequence.add_implicit.
  destruct (mem x (Sequence.participantOrder st)) eqn:E.
  - apply mem_In in E. repeat split; auto. apply incl_refl.
  - repeat split; simpl.
    + rewrite map_app. simpl. intros y Hy. apply in_app_iff in Hy as [Hy|Hy].
      * apply in_app_iff. left. now apply H1.
      * apply in_app_iff. now right.
    + eapply Forall_impl; [|exact H2]. intros m [Ha Hb].
      split; apply in_app_iff; now left.
    + apply in_app_iff. right. now left.
    + apply incl_appl, incl_refl.
Qed.

Lemma Sequence_step_joined (st : Sequence.state) (line : string) :
  Sequence_joined st -> Sequence_joined (Sequence.step st line).
Proof.
  intros H. unfold Sequence.step.
  destruct (startsWith line "sequenceDiagram"); [exact H|].
  destruct (exec no_flags Sequence.re_participant line) as [pm|].
  { destruct H as [H1 H2]. split; simpl.
    - rewrite map_app. simpl.
      destruct (mem (group_or_empty 2 pm) (Sequence.participantOrder st)).
      + intros y Hy. apply in_app_iff. left. now apply H1.
      + intros y Hy. apply in_app_iff in Hy as [Hy|Hy]; apply in_app_iff;
          [left; now apply H1 | now right].
    - eapply Forall_impl; [|exact H2]. intros m [Ha Hb].
      destruct (mem (group_or_empty 2 pm) (Sequence.participantOrder st)); [now split|].
      split; apply in_app_iff; now left. }
  destruct (exec no_flags Sequence.re_message line) as [mm|]; [|exact H].
  destruct (add_implicit_joined (group_or_empty 1 mm) st H) as (J1 & In1 & Inc1 & M1).
  destruct (add_implicit_joined (group_or_empty 3 mm) _ J1) as ([J2a J2b] & In2 & Inc2 & M2).
  split; simpl; [exact J2a|].
  apply Forall_app. split; [exact J2b|].
  repeat constructor; simpl; [now apply Inc2 | exact In2].
Qed.

Lemma Sequence_parsed_joined (text : string) :
  Sequence_joined (fold_left Sequence.step (Sequence.significant_lines text) Sequence.init).
Proof.
  apply (fold_left_invariant Sequence_joined).
  - intros s a. apply Sequence_step_joined.
  - split; [intros x [] | constructor].
Qed.

Lemma parseSequenceDiagram_joins (text : string) :
  Forall (joins (nodes (Sequence.parseSequenceDiagram text)))
         (edges (Sequence.parseSequenceDiagram text)).
Proof.
  unfold Sequence.parseSequenceDiagram. simpl.
  destruct (Sequence_parsed_joined text) as [H1 H2].
  set (st := fold_left Sequence.step _ Sequence.init) in *.
  apply Forall_map. unfold joins. rewrite map_map. simpl.
  eapply Forall_impl; [|exact H2]. intros m [Ha Hb]. split; now apply H1.
Qed.

Lemma place_message_ends (nodePositions : JsMap.t Layout.LayoutNode)
      (edges : list ParsedEdge) :
  Forall (fun e => JsMap.has nodePositions (source e) = true /\
                   JsMap.has nodePositions (target e) = true) edges ->
  forall acc,
    map routed_ends (fst (fold_left (Layout.place_message nodePositions) edges acc))
    = map routed_ends (fst acc) ++ map ends edges.
Proof.
  induction 1 as [|e edges [Hs Ht] _ IH]; intros [layoutEdges messageY]; simpl.
  - now rewrite app_nil_r.
  - rewrite IH. unfold Layout.place_message, JsMap.has in *.
    destruct (JsMap.get nodePositions (source e)); [|discriminate].
    destruct (JsMap.get nodePositions (target e)); [|discriminate].
    simpl. rewrite map_app, <- app_assoc. reflexivity.
Qed.

(** X2: for every text, both ends of every message of the parsed sequence
    diagram are ids of its participants (an undeclared sender or receiver
    is registered on first use), so the layout routes every message, in
    the order of the text. *)
Theorem parseSequenceDiagram_routes_every_message (text : string) :
  Forall (joins (nodes (Sequence.parseSequenceDiagram text)))
         (edges (Sequence.parseSequenceDiagram text)) /\
  map routed_ends
      (Layout.l_edges (Layout.layoutSequenceDiagram (Sequence.parseSequenceDiagram text)))
  = map ends (edges (Sequence.parseSequenceDiagram text)).
Proof.
  split; [apply parseSequenceDiagram_joins|].
  unfold Layout.layoutSequenceDiagram. simpl Layout.l_edges.
  rewrite place_message_ends; [reflexivity|].
  eapply Forall_impl; [|apply parseSequenceDiagram_joins].
  intros e [Hs Ht]. rewrite !LayoutFacts.place_participant_keys. simpl.
  split; apply mem_In; assumption.
Qed.

(** *** Subgraphs of a flowchart *)

Lemma push_new_members (ids : list string) (i : string) :
  members_ok ids -> mem (toLowerCase i) Flowchart.keywords = false ->
  members_ok (Flowchart.push_new ids i).
Proof.
  intros [Hnd Hkw] Hi. unfold Flowchart.push_new.
  destruct (mem i ids) eqn:E; [now split|].
  split.
  - apply NoDup_app; [exact Hnd | repeat constructor; intros [] | ].
    intros x Hx [<-|[]]. apply mem_In in Hx. congruence.
  - apply Forall_app. split; [exact Hkw | now repeat constructor].
Qed.

Lemma extractNodeIds_no_keyword (line : string) :
  Forall (fun i => mem (toLowerCase i) Flowchart.keywords = false)
         (Flowchart.extractNodeIds line).
Proof.
  unfold Flowchart.extractNodeIds. apply Forall_forall. intros i Hi.
  apply filter_In in Hi as [_ Hi]. now apply negb_true_iff in Hi.
Qed.

Lemma fold_push_new_members (new : list string) :
  Forall (fun i => mem (toLowerCase i) Flowchart.keywords = false) new ->
  forall ids, members_ok ids -> members_ok (fold_left Flowchart.push_new new ids).
Proof.
  induction 1 as [|i new Hi _ IH]; intros ids H; simpl; [exact H|].
  apply IH. now apply push_new_members.
Qed.

Lemma sg_step_members (st : Flowchart.sg_state) (line : string) :
  subgraphs_ok st -> subgraphs_ok (Flowchart.sg_step st line).
Proof.
  unfold subgraphs_ok. intros [Hd Hc]. unfold Flowchart.sg_step.
  destruct (exec no_flags Flowchart.re_subgraph (trim line)) as [m|].
  { split; simpl; [exact Hd|].
    destruct (Flowchart.depth st =? 0)%Z; [|exact Hc].
    simpl. split; constructor. }
  destruct (String.eqb (trim line) "end").
  { destruct (Flowchart.depth st - 1 =? 0)%Z, (Flowchart.currentSubgraph st) as [sg|];
      split; simpl; auto.
    apply Forall_app. split; [exact Hd | constructor; [exact Hc | constructor]]. }
  destruct (Flowchart.currentSubgraph st) as [sg|] eqn:E; [|rewrite E; now split].
  destruct (Flowchart.depth st =? 1)%Z; [|rewrite E; now split].
  split; simpl; [exact Hd|].
  apply fold_push_new_members; [apply extractNodeIds_no_keyword | exact Hc].
Qed.

(** X3: for every text, the member list of each subgraph that the flowchart
    parser returns holds no id twice and holds none of the words
    [subgraph], [end], [flowchart], [graph], [direction] (in any letter
    case). *)
Theorem parseFlowchart_subgraph_members (text : string) :
  Forall (fun sg => members_ok (sg_nodes sg))
         (subgraphs (Flowchart.parseFlowchart text)).
Proof.
  unfold Flowchart.parseFlowchart. simpl. apply Forall_map. simpl.
  unfold Flowchart.parseSubgraphs.
  apply (fold_left_invariant subgraphs_ok).
  - intros s a. apply sg_step_members.
  - split; simpl; constructor.
Qed.

End ParserLaws.

(** ** Directives *)

Module DirectiveLaws.
Import JsString Regex Types Directive Diagram.
Import Notions Vocabulary DirectiveFacts DetectFacts.

(** A pattern that begins with a literal matches only where the literal does. *)
Lemma search_needs_literal (fl : flags) (kw : string) (r : regex) :
  forall s p,
    search fl (Lit kw) p s = None -> search fl (Seq (Lit kw) r) p s = None.
Proof.
  induction s as [|c s IH]; intros p; simpl; unfold match_here;
    rewrite mt_Seq, !mt_Lit;
    destruct (skip_lit fl kw _); try discriminate; auto.
  intros H. destruct (search fl (Lit kw) (Some c) s) eqn:E; [discriminate|].
  now rewrite (IH _ E).
Qed.

Lemma test_needs_literal (fl : flags) (kw : string) (r : regex) (s : string) :
  test fl (Lit kw) s = false -> test fl (Seq (Lit kw) r) s = false.
Proof.
  unfold test, exec. intros H.
  rewrite search_needs_literal; [reflexivity|].
  destruct (search fl (Lit kw) None s); [discriminate | reflexivity].
Qed.

(** X4: a text in which the marker [%%{excali:] does not occur carries no
    directive: [parseExcaliDirective] returns no theme and no style
    override, and [stripExcaliDirective] only trims the text. *)
Theorem no_marker_no_directive (mermaidSource : string) :
  hasExcaliDirective mermaidSource = false ->
  parseExcaliDirective mermaidSource = {| theme := None; styles := [] |} /\
  stripExcaliDirective mermaidSource = trim mermaidSource.
Proof.
  unfold hasExcaliDirective, re_has. intros H. split.
  - unfold parseExcaliDirective.
    pose proof (test_needs_literal no_flags "%%{excali:"
                  (Seqs [Star true space; Grp 1 (Star false any); Lit "}%%"])
                  mermaidSource H) as Hd.
    unfold test in Hd.
    change (Seq (Lit "%%{excali:") (Seqs [Star true space; Grp 1 (Star false any); Lit "}%%"]))
      with re_directive in Hd.
    destruct (exec no_flags re_directive mermaidSource); [discriminate | reflexivity].
  - apply strip_clean_text.
    exact (test_needs_literal no_flags "%%{excali:"
             (Seqs [Star false any; Lit "}%%"; Star true space]) mermaidSource H).
Qed.

Lemma no_marker_no_directive_witness :
  hasExcaliDirective plain_graph = false /\
  parseExcaliDirective plain_graph = {| theme := None; styles := [] |} /\
  stripExcaliDirective plain_graph = trim plain_graph.
Proof.
  split; [reflexivity|].
  apply (no_marker_no_directive plain_graph). reflexivity.
Defined.

(** *** The first block *)

Lemma search_here (fl : flags) (r : regex) (p : option ascii) (s : string) (st : mstate) :
  match_here fl r p s = Some st ->
  search fl r p s
  = Some {| before := EmptyString;
            matched := take (String.length s - String.length (rest st)) s;
            after := rest st; last := prev st; groups := caps st |}.
Proof. intros H. destruct s; simpl; rewrite H; reflexivity. Qed.

Lemma take_append (a b : string) : take (String.length a) (a +++ b) = a.
Proof. induction a as [|c a IH]; simpl; [now destruct b | now rewrite IH]. Qed.

Lemma consumed_append (a b : string) (pv pv' : option ascii) (cs cs' : list (nat * string)) :
  consumed {| prev := pv; rest := a +++ b; caps := cs |}
           {| prev := pv'; rest := b; caps := cs' |} = a.
Proof.
  unfold consumed. cbn [rest]. rewrite length_append.
  replace (String.length a + String.length b - String.length b) with (String.length a) by lia.
  apply take_append.
Qed.

Lemma mt_Cls (fl : flags) (p : ascii -> bool) (st : mstate) (k : mstate -> option mstate) :
  mt fl (Cls p) st k
  = match rest st with
    | String d s' => if p d then k (advance d s' st) else None
    | EmptyString => None
    end.
Proof. reflexivity. Qed.

Lemma mt_Chr (fl : flags) (c : ascii) (st : mstate) (k : mstate -> option mstate) :
  mt fl (Chr c) st k
  = match rest st with
    | String d s' => if char_eq fl c d then k (advance d s' st) else None
    | EmptyString => None
    end.
Proof. reflexivity. Qed.

Lemma mt_Grp (fl : flags) (n : nat) (r : regex) (st : mstate) (k : mstate -> option mstate) :
  mt fl (Grp n r) st k
  = mt fl r st (fun st1 => k {| prev := prev st1; rest := rest st1;
                                caps := (n, consumed st st1) :: caps st1 |}).
Proof. reflexivity. Qed.

(** A greedy star over a class takes the whole run of characters of the
    class, when what follows can be matched from there. *)
Lemma mt_greedy_run (fl : flags) (p : ascii -> bool) (run : string) :
  all_chars p run = true ->
  forall tail pv cs k x,
    stops p tail = true ->
    k {| prev := prev_after run pv; rest := tail; caps := cs |} = Some x ->
    mt fl (Star true (Cls p)) {| prev := pv; rest := run +++ tail; caps := cs |} k = Some x.
Proof.
  induction run as [|c run IH]; intros Hrun tail pv cs k x Hstop Hk;
    rewrite mt_greedy_star; cbn [rest append].
  - destruct tail as [|d tail]; [exact Hk|].
    simpl in Hstop. apply negb_true_iff in Hstop. rewrite Hstop. exact Hk.
  - simpl in Hrun. apply andb_true_iff in Hrun as [Hc Hrun]. rewrite Hc.
    unfold advance. cbn [caps]. now rewrite (IH Hrun tail (Some c) cs k x Hstop Hk).
Qed.

(** The same for [r+]: the run is not empty. *)
Lemma mt_plus_run (fl : flags) (p : ascii -> bool) (c : ascii) (run tail : string)
      (pv : option ascii) (cs : list (nat * string)) (k : mstate -> option mstate)
      (x : mstate) :
  all_chars p (String c run) = true -> stops p tail = true ->
  k {| prev := prev_after run (Some c); rest := tail; caps := cs |} = Some x ->
  mt fl (Plus true (Cls p)) {| prev := pv; rest := String c run +++ tail; caps := cs |} k
  = Some x.
Proof.
  intros Hrun Hstop Hk. simpl in Hrun. apply andb_true_iff in Hrun as [Hc Hrun].
  unfold Plus. rewrite mt_Seq, mt_Cls. cbn [rest append]. rewrite Hc.
  unfold advance. cbn [caps]. now apply mt_greedy_run.
Qed.

Lemma closes_first_trimStart (body : string) :
  closes_first body = true -> closes_first (trimStart body) = true.
Proof.
  induction body as [|c body IH]; intros H; [reflexivity|].
  cbn [trimStart]. destruct (is_space c); [|exact H].
  cbn [closes_first] in H. apply andb_true_iff in H as [_ H]. now apply IH.
Qed.

(** The lazy star over any character stops at the first [}%%], if what
    follows needs [}%%] at its start. *)
Lemma mt_lazy_until (body tail : string) :
  closes_first body = true ->
  forall pv cs k x,
    (forall st, skip_lit no_flags "}%%" st = None -> k st = None) ->
    k {| prev := prev_after body pv; rest := "}%%" +++ tail; caps := cs |} = Some x ->
    mt no_flags (Star false any) {| prev := pv; rest := body +++ "}%%" +++ tail; caps := cs |} k
    = Some x.
Proof.
  unfold any.
  induction body as [|c body IH]; intros Hclose pv cs k x Hneeds Hk; rewrite mt_lazy_star.
  - cbn [append prev_after] in *. now rewrite Hk.
  - cbn [closes_first] in Hclose. apply andb_prop in Hclose as [Hhere Hclose].
    assert (Hnone : skip_lit no_flags "}%%"
                      {| prev := pv; rest := String c body +++ "}%%" +++ tail; caps := cs |}
                    = None).
    { remember {| prev := pv; rest := String c body +++ "}%%" +++ tail; caps := cs |}
        as st0 eqn:Hst0.
      pose proof (skip_lit_exact "}%%" st0) as H.
      replace (rest st0) with ((String c body +++ "}%%") +++ tail) in H
        by (subst st0; cbn [rest]; apply append_assoc).
      apply negb_true_iff in Hhere.
      rewrite startsWith_app, Hhere in H by (rewrite length_append; simpl; lia).
      destruct (skip_lit no_flags "}%%" st0); [discriminate | reflexivity]. }
    rewrite (Hneeds _ Hnone). cbn [rest append].
    unfold advance. cbn [caps]. now apply IH.
Qed.

Lemma trimStart_spaces (s : string) :
  exists run, s = run +++ trimStart s /\ all_chars is_space run = true.
Proof.
  induction s as [|c s (run & E & Hrun)]; [now exists EmptyString|].
  cbn [trimStart]. destruct (is_space c) eqn:Ec.
  - exists (String c run). split; [simpl; now rewrite <- E | simpl; now rewrite Ec].
  - now exists EmptyString.
Qed.

Lemma trimStart_stops (s t : string) :
  stops is_space t = true -> stops is_space (trimStart s +++ t) = true.
Proof.
  intros Ht. induction s as [|c s IH]; [exact Ht|].
  cbn [trimStart]. destruct (is_space c) eqn:Ec; [exact IH|].
  simpl. now rewrite Ec.
Qed.

(** The directive pattern matches a leading block up to the first [}%%]
    and captures its body without the leading white space. *)
Lemma exec_directive (body tail : string) :
  closes_first body = true ->
  exists f,
    exec no_flags re_directive ("%%{excali:" +++ body +++ "}%%" +++ tail) = Some f /\
    groups f = [(1, trimStart body)].
Proof.
  intros Hclose.
  destruct (trimStart_spaces body) as (run & Ebody & Hrun).
  assert (Hhere : exists pv,
             match_here no_flags re_directive None
                        ("%%{excali:" +++ body +++ "}%%" +++ tail)
             = Some {| prev := pv; rest := tail; caps := [(1, trimStart body)] |}).
  { exists (Some "%"%char). unfold match_here.
    change re_directive
      with (Seq (Lit "%%{excali:")
                (Seq (Star true space) (Seq (Grp 1 (Star false any)) (Lit "}%%")))).
    rewrite mt_Seq, mt_Lit.
    change (skip_lit no_flags "%%{excali:"
              {| prev := None; rest := "%%{excali:" +++ body +++ "}%%" +++ tail; caps := [] |})
      with (Some {| prev := Some ":"%char; rest := body +++ "}%%" +++ tail; caps := [] |}).
    cbv beta iota. rewrite mt_Seq.
    rewrite Ebody at 1. rewrite append_assoc.
    apply mt_greedy_run; [exact Hrun | now apply trimStart_stops|].
    rewrite mt_Seq, mt_Grp.
    apply mt_lazy_until; [now apply closes_first_trimStart | |].
    - intros st Hst. rewrite mt_Lit.
      assert (E : skip_lit no_flags "}%%"
                    {| prev := prev st; rest := rest st;
                       caps := (1, consumed {| prev := prev_after run (Some ":"%char);
                                               rest := trimStart body +++ "}%%" +++ tail;
                                               caps := [] |} st) :: caps st |} = None).
      { pose proof (skip_lit_exact "}%%" st) as H1. rewrite Hst in H1.
        match goal with
        | |- skip_lit _ _ ?s = None =>
            pose proof (skip_lit_exact "}%%" s) as H2; cbn [rest] in H2;
            rewrite <- H1 in H2; destruct (skip_lit no_flags "}%%" s);
            [discriminate | reflexivity]
        end. }
      now rewrite E.
    - rewrite mt_Lit, consumed_append. reflexivity. }
  destruct Hhere as (pv & Hhere). eexists. split.
  - unfold exec. apply search_here. exact Hhere.
  - reflexivity.
Qed.

Lemma parse_block (body tail : string) :
  closes_first body = true ->
  parseExcaliDirective ("%%{excali:" +++ body +++ "}%%" +++ tail)
  = let content := trim (trimStart body) in
    {| theme := match exec no_flags re_theme content with
                | Some themeMatch => capture 1 themeMatch
                | None => None
                end;
       styles := match exec no_flags re_styles content with
                 | Some stylesMatch =>
                     fold_left add_pair
                       (match_all no_flags re_pair (group_or_empty 1 stylesMatch)) []
                 | None => []
                 end |}.
Proof.
  intros Hclose. destruct (exec_directive body tail Hclose) as (f & Hf & Hg).
  unfold parseExcaliDirective. rewrite Hf.
  unfold group_or_empty at 1 2. unfold capture. rewrite Hg. reflexivity.
Qed.

(** X5: when a text begins with a directive block, only that block is
    read: the block ends at the first [}%%], and whatever follows it, a
    second directive block included, does not change the theme or the
    style overrides that [parseExcaliDirective] returns. *)
Theorem parseExcaliDirective_first_block (body tail : string) :
  closes_first body = true ->
  parseExcaliDirective ("%%{excali:" +++ body +++ "}%%" +++ tail)
  = parseExcaliDirective ("%%{excali:" +++ body +++ "}%%").
Proof.
  intros Hclose. rewrite (parse_block body tail Hclose).
  rewrite <- (parse_block body EmptyString Hclose). reflexivity.
Qed.

Lemma parseExcaliDirective_first_block_witness :
  parseExcaliDirective ("%%{excali:" +++ " styles: {A: db}" +++ "}%%"
                        +++ " %%{excali: styles: {A: ui}}%% graph TD")
  = parseExcaliDirective ("%%{excali:" +++ " styles: {A: db}" +++ "}%%").
Proof.
  apply (parseExcaliDirective_first_block " styles: {A: db}"
           " %%{excali: styles: {A: ui}}%% graph TD").
  reflexivity.
Defined.

(** *** Writing overrides and reading them back *)

Lemma all_chars_app (p : ascii -> bool) (a b : string) :
  all_chars p (a +++ b) = all_chars p a && all_chars p b.
Proof. induction a as [|c a IH]; simpl; [reflexivity|]. now rewrite IH, andb_assoc. Qed.

Lemma all_chars_impl (p q : ascii -> bool) (s : string) :
  (forall c, p c = true -> q c = true) -> all_chars p s = true -> all_chars q s = true.
Proof.
  intros H. induction s as [|c s IH]; simpl; [reflexivity|].
  intros Hs. apply andb_true_iff in Hs as [Hc Hs]. now rewrite (H _ Hc), IH.
Qed.

Lemma word_calm (c : ascii) : is_word c = true -> calm c = true.
Proof. destruct c as [[|] [|] [|] [|] [|] [|] [|] [|]]; simpl; auto. Qed.

Lemma style_name_word (s : StyleType) : all_chars is_word (style_name s) = true.
Proof. destruct s; reflexivity. Qed.

Lemma is_key_parts (k : string) :
  is_key k = true ->
  exists c k', k = String c k' /\ all_chars is_word k = true /\ k <> "__proto__".
Proof.
  unfold is_key. intros H. apply andb_true_iff in H as [H H3].
  apply andb_true_iff in H as [H1 H2].
  destruct k as [|c k']; [discriminate|]. exists c, k'. repeat split; [exact H2|].
  apply negb_true_iff in H3. now apply String.eqb_neq.
Qed.

Lemma render_pair_calm (kv : string * StyleType) :
  is_key (fst kv) = true -> all_chars calm (render_pair kv) = true.
Proof.
  intros H. apply is_key_parts in H as (c & k' & _ & Hw & _).
  unfold render_pair. rewrite !all_chars_app.
  rewrite (all_chars_impl _ _ _ word_calm Hw).
  now rewrite (all_chars_impl _ _ _ word_calm (style_name_word (snd kv))).
Qed.

Lemma render_styles_cons (kv : string * StyleType) (ps : list (string * StyleType)) :
  render_styles (kv :: ps)
  = render_pair kv +++ match ps with
                       | [] => EmptyString
                       | _ => ", " +++ render_styles ps
                       end.
Proof.
  unfold render_styles. destruct ps as [|kv' ps]; simpl.
  - clear. induction (render_pair kv) as [|c s IH]; simpl; [reflexivity | now rewrite <- IH].
  - reflexivity.
Qed.

Lemma render_styles_calm (ps : list (string * StyleType)) :
  forallb is_key (map fst ps) = true -> all_chars calm (render_styles ps) = true.
Proof.
  induction ps as [|kv ps IH]; [reflexivity|].
  cbn [map forallb]. intros H. apply andb_true_iff in H as [Hk H].
  rewrite render_styles_cons, all_chars_app, (render_pair_calm _ Hk).
  destruct ps as [|kv' ps]; [reflexivity|].
  rewrite all_chars_app. now rewrite (IH H).
Qed.

Lemma closes_first_calm (body : string) :
  all_chars (fun c => negb (Ascii.eqb c "%")) body = true -> closes_first body = true.
Proof.
  induction body as [|c body IH]; [reflexivity|].
  intros H. cbn [all_chars] in H. apply andb_true_iff in H as [Hc H].
  cbn [closes_first]. rewrite (IH H), andb_true_r.
  apply negb_true_iff. cbn [append startsWith].
  destruct (Ascii.eqb "}" c); [|reflexivity]. cbn [andb].
  destruct body as [|d body]; [reflexivity|].
  cbn [append startsWith]. cbn [all_chars] in H. apply andb_true_iff in H as [Hd _].
  apply negb_true_iff in Hd. rewrite Ascii.eqb_sym, Hd. reflexivity.
Qed.


Lemma style_name_valid (s : StyleType) : valid_style (style_name s) = Some s.
Proof. destruct s; reflexivity. Qed.

Lemma style_name_parts (s : StyleType) :
  exists c run, style_name s = String c run /\ is_space c = false.
Proof. destruct s; eexists; eexists; split; reflexivity. Qed.

(** One override is matched where it stands, with the id in group 1 and
    the style name in group 2. *)
Lemma pair_here (k : string) (s : StyleType) (rem : string) (pv : option ascii) :
  is_key k = true -> stops is_word rem = true ->
  exists pv',
    match_here no_flags re_pair pv (render_pair (k, s) +++ rem)
    = Some {| prev := pv'; rest := rem; caps := [(2, style_name s); (1, k)] |}.
Proof.
  intros Hk Hrem. apply is_key_parts in Hk as (c & k' & -> & Hw & _).
  destruct (style_name_parts s) as (n & name & En & Hn).
  pose proof (style_name_word s) as Hname. rewrite En in Hname.
  exists (prev_after name (Some n)).
  unfold match_here, render_pair. cbn [fst snd]. rewrite En.
  change re_pair
    with (Seq (Grp 1 (Plus true (Cls is_word)))
              (Seq (Chr ":") (Seq (Star true (Cls is_space)) (Grp 2 (Plus true (Cls is_word)))))).
  replace ((String c k' +++ ": " +++ String n name) +++ rem)
    with (String c k' +++ (": " +++ (String n name +++ rem)))
    by (now rewrite !append_assoc).
  rewrite mt_Seq, mt_Grp.
  apply mt_plus_run; [exact Hw | reflexivity |].
  rewrite consumed_append.
  rewrite mt_Seq, mt_Chr. cbn [rest append]. cbn [char_eq ignoreCase no_flags Ascii.eqb Bool.eqb].
  cbv beta iota. rewrite mt_Seq. unfold advance. cbn [caps].
  apply (mt_greedy_run no_flags is_space " "); [reflexivity | cbn [stops]; now rewrite Hn |].
  rewrite mt_Grp.
  apply (mt_plus_run no_flags is_word n name rem); [exact Hname | exact Hrem |].
  rewrite (consumed_append (String n name) rem). reflexivity.
Qed.

Lemma search_skip (fl : flags) (r : regex) (p : option ascii) (c : ascii) (s : string) :
  match_here fl r p (String c s) = None ->
  search fl r p (String c s)
  = match search fl r (Some c) s with
    | Some f => Some {| before := String c (before f); matched := matched f;
                        after := after f; last := last f; groups := groups f |}
    | None => None
    end.
Proof. intros H. simpl. rewrite H. reflexivity. Qed.

Lemma matches_empty (fuel : nat) (pv : option ascii) :
  matches_from no_flags re_pair fuel pv EmptyString = [].
Proof. destruct fuel; reflexivity. Qed.

(** The separator between two overrides is passed over. *)
Lemma skip_separator (fuel : nat) (pv : option ascii) (s : string) (o : JsObject.t StyleType) :
  fold_left add_pair (matches_from no_flags re_pair (S fuel) pv (", " +++ s)) o
  = fold_left add_pair (matches_from no_flags re_pair (S fuel) (Some " "%char) s) o.
Proof.
  cbn [matches_from append].
  rewrite (search_skip no_flags re_pair pv "," (String " " s)) by reflexivity.
  rewrite (search_skip no_flags re_pair (Some ","%char) " " s) by reflexivity.
  destruct (search no_flags re_pair (Some " "%char) s) as [f|]; [|reflexivity].
  cbn [matched after last].
  destruct (is_empty (matched f)); [destruct (after f)|]; reflexivity.
Qed.

Lemma render_pair_length (kv : string * StyleType) :
  is_key (fst kv) = true -> 1 <= String.length (render_pair kv).
Proof.
  intros H. apply is_key_parts in H as (c & k' & E & _ & _).
  unfold render_pair. rewrite E. simpl. lia.
Qed.

Lemma render_styles_length (ps : list (string * StyleType)) :
  forallb is_key (map fst ps) = true ->
  List.length ps <= String.length (render_styles ps).
Proof.
  induction ps as [|kv ps IH]; [simpl; lia|].
  cbn [map forallb]. intros H. apply andb_true_iff in H as [Hk H].
  rewrite render_styles_cons, length_append.
  pose proof (render_pair_length kv Hk). specialize (IH H).
  destruct ps as [|kv' ps]; [simpl; lia|].
  rewrite length_append. simpl in *. lia.
Qed.

(** The pair pattern reads the overrides of a rendered list one by one. *)
Lemma pairs_read (ps : list (string * StyleType)) :
  forallb is_key (map fst ps) = true ->
  forall fuel pv o,
    List.length ps <= fuel ->
    fold_left add_pair (matches_from no_flags re_pair fuel pv (render_styles ps)) o
    = set_all ps o.
Proof.
  induction ps as [|[k s] ps IH]; intros Hkeys fuel pv o Hfuel.
  - unfold render_styles. cbn [map join]. now rewrite matches_empty.
  - cbn [map forallb fst] in Hkeys. apply andb_true_iff in Hkeys as [Hk Hkeys].
    specialize (IH Hkeys).
    destruct fuel as [|fuel]; [simpl in Hfuel; lia|].
    rewrite render_styles_cons.
    set (rem := match ps with [] => EmptyString | _ => ", " +++ render_styles ps end).
    assert (Hrem : stops is_word rem = true) by (subst rem; destruct ps; reflexivity).
    destruct (pair_here k s rem pv Hk Hrem) as (pv' & Hm).
    cbn [matches_from]. rewrite (search_here _ _ _ _ _ Hm).
    cbn [matched after last rest prev].
    rewrite length_append.
    replace (String.length (render_pair (k, s)) + String.length rem - String.length rem)
      with (String.length (render_pair (k, s))) by lia.
    rewrite take_append.
    assert (Hne : is_empty (render_pair (k, s)) = false).
    { pose proof (render_pair_length (k, s) Hk) as Hl.
      destruct (render_pair (k, s)); [simpl in Hl; lia | reflexivity]. }
    rewrite Hne. cbn [fold_left].
    assert (Hadd : forall b m l,
               add_pair o {| before := b; matched := m; after := rem; last := l;
                             groups := [(2, style_name s); (1, k)] |}
               = JsObject.set o k s).
    { intros b m l. unfold add_pair, group_or_empty, capture.
      cbn [groups find fst snd Nat.eqb]. now rewrite style_name_valid. }
    rewrite Hadd. cbn [set_all fold_left fst snd]. fold (set_all ps (JsObject.set o k s)).
    subst rem. destruct ps as [|kv' ps'].
    + now rewrite matches_empty.
    + destruct fuel as [|fuel]; [simpl in Hfuel; lia|].
      rewrite skip_separator. apply IH. simpl in *. lia.
Qed.

Lemma put_fresh (o : JsObject.t StyleType) (k : string) (v : StyleType) :
  ~ In k (map fst o) -> JsObject.put o k v = o ++ [(k, v)].
Proof.
  induction o as [|[k' v'] o IH]; intros H; [reflexivity|].
  simpl in *. destruct (String.eqb_spec k k') as [->|_]; [tauto|].
  rewrite IH; [reflexivity | tauto].
Qed.

Lemma set_all_fresh (ps : list (string * StyleType)) :
  forall o,
    NoDup (map fst o ++ map fst ps) ->
    forallb is_key (map fst ps) = true ->
    set_all ps o = o ++ ps.
Proof.
  induction ps as [|[k v] ps IH]; intros o Hnd Hkeys.
  - simpl. now rewrite app_nil_r.
  - cbn [map forallb fst] in Hkeys, Hnd. apply andb_true_iff in Hkeys as [Hk Hkeys].
    apply is_key_parts in Hk as (_ & _ & _ & _ & Hproto).
    cbn [set_all fold_left fst snd]. fold (set_all ps (JsObject.set o k v)).
    unfold JsObject.set. apply String.eqb_neq in Hproto. rewrite Hproto.
    pose proof (NoDup_remove_2 _ _ _ Hnd) as Hfresh.
    rewrite put_fresh by (intros Hin; apply Hfresh, in_or_app; now left).
    rewrite IH; [now rewrite <- app_assoc | | exact Hkeys].
    rewrite map_app. cbn [map fst]. rewrite <- app_assoc. exact Hnd.
Qed.

Lemma own_listed (ps : list (string * StyleType)) (id : string) (s : StyleType) :
  NoDup (map fst ps) -> In (id, s) ps -> JsObject.own ps id = Some s.
Proof.
  induction ps as [|[k v] ps IH]; intros Hnd Hin; [contradiction|].
  cbn [map fst] in Hnd. apply NoDup_cons_iff in Hnd as [Hk Hnd].
  simpl. destruct Hin as [E|Hin].
  - injection E as -> ->. now rewrite String.eqb_refl.
  - destruct (String.eqb_spec id k) as [->|_]; [|now apply IH].
    exfalso. apply Hk. change k with (fst (k, s)). now apply in_map.
Qed.

Lemma own_unlisted (ps : list (string * StyleType)) (id : string) :
  ~ In id (map fst ps) -> JsObject.own ps id = None.
Proof.
  induction ps as [|[k v] ps IH]; intros H; [reflexivity|].
  simpl in *. destruct (String.eqb_spec id k) as [->|_]; [tauto|].
  apply IH. tauto.
Qed.

(** The styles pattern finds the braces of a rendered list and captures
    what is between them. *)
Lemma exec_styles (c : ascii) (run : string) :
  all_chars calm (String c run) = true ->
  exists f,
    exec no_flags re_styles ("styles: {" +++ String c run +++ "}") = Some f /\
    groups f = [(1, String c run)].
Proof.
  intros Hrun.
  assert (Hhere : exists pv,
             match_here no_flags re_styles None ("styles: {" +++ String c run +++ "}")
             = Some {| prev := pv; rest := EmptyString; caps := [(1, String c run)] |}).
  { exists (Some "}"%char). unfold match_here.
    change re_styles
      with (Seq (Lit "styles:")
                (Seq (Star true (Cls is_space))
                     (Seq (Chr "{")
                          (Seq (Grp 1 (Plus true (none_of "}"))) (Chr "}"))))).
    rewrite mt_Seq, mt_Lit.
    change (skip_lit no_flags "styles:"
              {| prev := None; rest := "styles: {" +++ String c run +++ "}"; caps := [] |})
      with (Some {| prev := Some ":"%char; rest := " " +++ ("{" +++ String c run +++ "}");
                    caps := [] |}).
    cbv beta iota. rewrite mt_Seq.
    apply (mt_greedy_run no_flags is_space " "); [reflexivity | reflexivity |].
    rewrite mt_Seq, mt_Chr. cbn [rest append char_eq ignoreCase no_flags Ascii.eqb Bool.eqb].
    cbv beta iota. unfold advance. cbn [caps]. rewrite mt_Seq, mt_Grp. unfold none_of.
    match goal with
    | |- mt _ (Plus true (Cls ?p)) _ _ = _ =>
        apply (mt_plus_run no_flags p c run "}"); [| reflexivity |]
    end.
    - apply (all_chars_impl calm); [|exact Hrun].
      intros d Hd. unfold calm in Hd. apply andb_true_iff in Hd as [_ Hd].
      cbn [list_ascii_of_string existsb]. now rewrite orb_false_r.
    - rewrite mt_Chr. cbn [rest]. rewrite (consumed_append (String c run) "}").
      reflexivity. }
  destruct Hhere as (pv & Hhere). eexists. split.
  - unfold exec. apply search_here. exact Hhere.
  - reflexivity.
Qed.

Lemma directive_text_block (ps : list (string * StyleType)) (tail : string) :
  directive_text ps +++ tail
  = "%%{excali:" +++ (" styles: {" +++ render_styles ps +++ "}") +++ "}%%" +++ tail.
Proof.
  unfold directive_text. cbn [append]. do 20 f_equal.
  now rewrite !append_assoc.
Qed.

Lemma styles_read_back (ps : list (string * StyleType)) (tail : string) :
  forallb is_key (map fst ps) = true ->
  styles (parseExcaliDirective (directive_text ps +++ tail)) = set_all ps [].
Proof.
  intros Hkeys. rewrite directive_text_block.
  pose proof (render_styles_calm ps Hkeys) as Hcalm.
  rewrite parse_block.
  2:{ apply closes_first_calm. rewrite !all_chars_app.
      rewrite (all_chars_impl calm _ (render_styles ps)); [reflexivity | | exact Hcalm].
      intros c Hc. unfold calm in Hc. now apply andb_true_iff in Hc as [Hc _]. }
  cbv zeta. cbn [styles].
  assert (Etrim : trim (trimStart (" styles: {" +++ render_styles ps +++ "}"))
                  = "styles: {" +++ render_styles ps +++ "}").
  { assert (E1 : trimStart (" styles: {" +++ render_styles ps +++ "}")
                  = ("styles: {" +++ render_styles ps) +++ "}")
      by (rewrite append_assoc; reflexivity).
    assert (E2 : trimStart (("styles: {" +++ render_styles ps) +++ "}")
                 = ("styles: {" +++ render_styles ps) +++ "}") by reflexivity.
    unfold trim. rewrite E1, E2, trimEnd_app_keep by reflexivity.
    change (trimEnd "}") with "}". now rewrite append_assoc. }
  rewrite Etrim.
  destruct ps as [|kv ps]; [reflexivity|].
  destruct (render_styles (kv :: ps)) as [|c run] eqn:Er.
  { pose proof (render_styles_length (kv :: ps) Hkeys) as Hl. rewrite Er in Hl.
    simpl in Hl. lia. }
  destruct (exec_styles c run Hcalm) as (f & Hf & Hg). rewrite Hf.
  unfold group_or_empty at 1. unfold capture. rewrite Hg. cbn [find fst snd Nat.eqb].
  unfold match_all. rewrite <- Er. apply pairs_read; [exact Hkeys|].
  pose proof (render_styles_length (kv :: ps) Hkeys). lia.
Qed.

(** X6: style overrides written into a directive are read back.  For
    overrides whose node ids are distinct non-empty words other than
    [__proto__], a text that begins with the block
    [%%{excali: styles: {id: style, ...}}%%] gives, whatever follows the
    block, a directive in which every listed id has its style and no
    other id has an entry of its own. *)
Theorem styles_round_trip (ps : list (string * StyleType)) (tail : string) :
  forallb is_key (map fst ps) = true ->
  NoDup (map fst ps) ->
  let directive := parseExcaliDirective (directive_text ps +++ tail) in
  (forall id s, In (id, s) ps -> JsObject.get (styles directive) id = JsObject.Own s) /\
  (forall id, ~ In id (map fst ps) -> JsObject.own (styles directive) id = None).
Proof.
  intros Hkeys Hnd directive. subst directive.
  rewrite (styles_read_back ps tail Hkeys).
  rewrite (set_all_fresh ps [] Hnd Hkeys). cbn [app]. split.
  - intros id s Hin. unfold JsObject.get. now rewrite (own_listed ps id s Hnd Hin).
  - intros id Hid. now apply own_unlisted.
Qed.

Lemma styles_round_trip_witness :
  let ps := [("A", db); ("B", api)] in
  let directive :=
    parseExcaliDirective (directive_text ps +++ "
flowchart TD
  A --> B") in
  (forall id s, In (id, s) ps -> JsObject.get (styles directive) id = JsObject.Own s) /\
  (forall id, ~ In id (map fst ps) -> JsObject.own (styles directive) id = None).
Proof.
  apply (styles_round_trip [("A", db); ("B", api)]).
  - reflexivity.
  - repeat constructor; simpl; intuition discriminate.
Defined.

End DirectiveLaws.

(** ** Style inference and letter case *)

Module StyleLaws.
Import JsString Regex Types Directive Diagram Styles.
Import Notions Vocabulary.

(** *** Matching without regard to letter case *)

Ltac each_char c := destruct c as [[|] [|] [|] [|] [|] [|] [|] [|]]; reflexivity.

Lemma is_word_upper (c : ascii) : is_word (to_upper_char c) = is_word c.
Proof. each_char c. Qed.

Lemma is_line_terminator_upper (c : ascii) :
  is_line_terminator (to_upper_char c) = is_line_terminator c.
Proof. each_char c. Qed.

Lemma to_lower_upper (c : ascii) : to_lower_char (to_upper_char c) = to_lower_char c.
Proof. each_char c. Qed.

Lemma same_letter_eq (a b : ascii) :
  same_letter a b = true -> to_upper_char a = to_upper_char b.
Proof. unfold same_letter. apply Ascii.eqb_eq. Qed.

Lemma same_letter_word (a b : ascii) : same_letter a b = true -> is_word a = is_word b.
Proof.
  intros H. apply same_letter_eq in H.
  now rewrite <- (is_word_upper a), <- (is_word_upper b), H.
Qed.

Lemma same_letter_terminator (a b : ascii) :
  same_letter a b = true -> is_line_terminator a = is_line_terminator b.
Proof.
  intros H. apply same_letter_eq in H.
  now rewrite <- (is_line_terminator_upper a), <- (is_line_terminator_upper b), H.
Qed.

Lemma same_letters_length (a : string) :
  forall b, same_letters a b = true -> String.length a = String.length b.
Proof.
  induction a as [|x a IH]; intros [|y b]; simpl; try discriminate; [reflexivity|].
  intros H. apply andb_true_iff in H as [_ H]. f_equal. now apply IH.
Qed.

Lemma is_some_or {A} (a b : option A) :
  is_some (match a with Some x => Some x | None => b end) = is_some a || is_some b.
Proof. now destruct a. Qed.

Lemma alike_advance (st st' : mstate) (d d' : ascii) (s s' : string) :
  same_letter d d' = true -> same_letters s s' = true ->
  alike (advance d s st) (advance d' s' st').
Proof. intros Hd Hs. split; assumption. Qed.

Lemma alike_rest (st st' : mstate) :
  alike st st' ->
  match rest st, rest st' with
  | EmptyString, EmptyString => True
  | String d s, String d' s' => same_letter d d' = true /\ same_letters s s' = true
  | _, _ => False
  end.
Proof.
  intros [H _]. destruct (rest st), (rest st'); simpl in H; try discriminate; auto.
  now apply andb_true_iff in H.
Qed.

Lemma alike_length (st st' : mstate) :
  alike st st' -> String.length (rest st) = String.length (rest st').
Proof. intros [H _]. now apply same_letters_length. Qed.

Lemma alike_bol (fl : flags) (st st' : mstate) :
  alike st st' -> at_bol fl st = at_bol fl st'.
Proof.
  intros [_ H]. unfold at_bol.
  destruct (prev st), (prev st'); try contradiction; auto.
  now rewrite (same_letter_terminator _ _ H).
Qed.

Lemma alike_eol (fl : flags) (st st' : mstate) :
  alike st st' -> at_eol fl st = at_eol fl st'.
Proof.
  intros H. apply alike_rest in H. unfold at_eol.
  destruct (rest st), (rest st'); try contradiction; auto.
  destruct H as [H _].
  now rewrite (same_letter_terminator _ _ H).
Qed.

Lemma alike_word (st st' : mstate) :
  alike st st' ->
  word_before st = word_before st' /\ word_after st = word_after st'.
Proof.
  intros H. pose proof (alike_rest _ _ H) as Hr. destruct H as [_ Hp].
  unfold word_before, word_after. split.
  - destruct (prev st), (prev st'); try contradiction; auto.
    now apply same_letter_word.
  - destruct (rest st), (rest st'); try contradiction; auto.
    destruct Hr as [Hr _]. now apply same_letter_word.
Qed.

(** The loop of a star succeeds on the same positions, up to letter case. *)
Lemma star_case_blind (fl : flags) (g : bool) (r1 : regex)
      (k k' : mstate -> option mstate) :
  (forall st st' k k',
      alike st st' -> alike_next k k' ->
      is_some (mt fl r1 st k) = is_some (mt fl r1 st' k')) ->
  alike_next k k' ->
  forall n st st',
    alike st st' ->
    is_some
      ((fix loop (n : nat) (st0 : mstate) {struct n} : option mstate :=
          match n with
          | 0 => k st0
          | S n' =>
              let again st1 :=
                if String.length (rest st1) <? String.length (rest st0)
                then loop n' st1 else None in
              if g then
                match mt fl r1 st0 again with
                | Some x => Some x
                | None => k st0
                end
              else
                match k st0 with
                | Some x => Some x
                | None => mt fl r1 st0 again
                end
          end) n st)
    = is_some
        ((fix loop (n : nat) (st0 : mstate) {struct n} : option mstate :=
            match n with
            | 0 => k' st0
            | S n' =>
                let again st1 :=
                  if String.length (rest st1) <? String.length (rest st0)
                  then loop n' st1 else None in
                if g then
                  match mt fl r1 st0 again with
                  | Some x => Some x
                  | None => k' st0
                  end
                else
                  match k' st0 with
                  | Some x => Some x
                  | None => mt fl r1 st0 again
                  end
            end) n st').
Proof.
  intros IH1 Hk. induction n as [|n IHn]; intros st st' Hst; [now apply Hk|].
  cbn zeta.
  match goal with
  | |- is_some (if g then match mt fl r1 st ?a with _ => _ end else _)
       = is_some (if g then match mt fl r1 st' ?a' with _ => _ end else _) =>
      assert (Hagain : is_some (mt fl r1 st a) = is_some (mt fl r1 st' a'))
  end.
  { apply IH1; [exact Hst|]. intros st1 st1' H1.
    rewrite (alike_length _ _ H1), (alike_length _ _ Hst).
    destruct (_ <? _); [now apply IHn | reflexivity]. }
  destruct g; rewrite !is_some_or, Hagain, (Hk _ _ Hst); reflexivity.
Qed.

(** With the flag [i], a pattern with case-blind classes succeeds on the
    same positions, up to letter case. *)
Lemma mt_case_blind (fl : flags) (r : regex) :
  ignoreCase fl = true -> case_blind r ->
  forall st st' k k',
    alike st st' -> alike_next k k' ->
    is_some (mt fl r st k) = is_some (mt fl r st' k').
Proof.
  intros Hi.
  induction r as [ |c|p|r1 IH1 r2 IH2|r1 IH1 r2 IH2|g r1 IH1|r1 IH1|n r1 IH1| | | ];
    intros Hb st st' k k' Hst Hk.
  - now apply Hk.
  - simpl. pose proof (alike_rest _ _ Hst) as Hr.
    destruct (rest st) as [|d s], (rest st') as [|d' s']; try contradiction; auto.
    destruct Hr as [Hd Hs]. unfold char_eq. rewrite Hi, (same_letter_eq _ _ Hd).
    destruct (Ascii.eqb _ _); [|reflexivity].
    apply Hk. now apply alike_advance.
  - simpl. pose proof (alike_rest _ _ Hst) as Hr.
    destruct (rest st) as [|d s], (rest st') as [|d' s']; try contradiction; auto.
    destruct Hr as [Hd Hs]. simpl in Hb. rewrite (Hb _ _ Hd).
    destruct (p d'); [|reflexivity].
    apply Hk. now apply alike_advance.
  - simpl. destruct Hb as [Hb1 Hb2]. apply IH1; [exact Hb1 | exact Hst|].
    intros st1 st1' H1. now apply IH2.
  - simpl. destruct Hb as [Hb1 Hb2]. rewrite !is_some_or.
    now rewrite (IH1 Hb1 _ _ _ _ Hst Hk), (IH2 Hb2 _ _ _ _ Hst Hk).
  - simpl in Hb.
    pose proof (star_case_blind fl g r1 k k' (IH1 Hb) Hk
                  (S (String.length (rest st))) st st' Hst) as H.
    etransitivity; [exact H|].
    rewrite (alike_length _ _ Hst). reflexivity.
  - simpl in *. rewrite !is_some_or, (Hk _ _ Hst). f_equal.
    apply (IH1 Hb); [exact Hst|]. intros st1 st1' H1.
    rewrite (alike_length _ _ H1), (alike_length _ _ Hst).
    destruct (_ <? _); [now apply Hk | reflexivity].
  - simpl in *. apply (IH1 Hb); [exact Hst|]. intros st1 st1' H1.
    apply Hk. destruct H1 as [Ha Hp]. split; assumption.
  - simpl. rewrite (alike_bol fl _ _ Hst). destruct (at_bol fl st'); [now apply Hk | reflexivity].
  - simpl. rewrite (alike_eol fl _ _ Hst). destruct (at_eol fl st'); [now apply Hk | reflexivity].
  - simpl. destruct (alike_word _ _ Hst) as [-> ->].
    destruct (xorb _ _); [now apply Hk | reflexivity].
Qed.

Lemma is_some_search (fl : flags) (r : regex) (p : option ascii) (s : string) :
  is_some (search fl r p s)
  = is_some (match_here fl r p s)
    || match s with
       | EmptyString => false
       | String c s' => is_some (search fl r (Some c) s')
       end.
Proof.
  destruct s as [|c s]; simpl; destruct (match_here fl r p _); simpl; auto.
  now destruct (search fl r (Some c) s).
Qed.

Lemma search_case_blind (fl : flags) (r : regex) :
  ignoreCase fl = true -> case_blind r ->
  forall s s' p p',
    alike {| prev := p; rest := s; caps := [] |} {| prev := p'; rest := s'; caps := [] |} ->
    is_some (search fl r p s) = is_some (search fl r p' s').
Proof.
  intros Hi Hb. induction s as [|c s IH]; intros s' p p' Hst;
    pose proof (alike_rest _ _ Hst) as Hr; simpl in Hr;
    destruct s' as [|c' s']; try contradiction;
    rewrite (is_some_search fl r p), (is_some_search fl r p'); unfold match_here;
    rewrite (mt_case_blind fl r Hi Hb _ _ Some Some Hst) by (intros ? ? _; reflexivity);
    f_equal.
  destruct Hr as [Hc Hs]. apply IH. split; assumption.
Qed.

Lemma test_case_blind (r : regex) (a b : string) :
  case_blind r -> same_letters a b = true -> test flag_i r a = test flag_i r b.
Proof.
  intros Hb Hab. unfold test, exec.
  pose proof (search_case_blind flag_i r eq_refl Hb a b None None) as H.
  unfold is_some in H.
  destruct (search flag_i r None a), (search flag_i r None b); auto;
    apply H; split; simpl; auto.
Qed.

(** *** Style inference *)

Lemma dot_blind (a b : ascii) :
  same_letter a b = true ->
  negb (is_line_terminator a) = negb (is_line_terminator b).
Proof. intros H. now rewrite (same_letter_terminator _ _ H). Qed.

Lemma patterns_blind : Forall (fun ps => case_blind (fst ps)) SEMANTIC_PATTERNS.
Proof.
  unfold SEMANTIC_PATTERNS. repeat constructor; simpl; repeat split; auto;
    apply dot_blind.
Qed.

Lemma find_agree {A} (f g : A -> bool) (l : list A) :
  Forall (fun x => f x = g x) l -> find f l = find g l.
Proof. induction 1 as [|x l Hx _ IH]; simpl; [reflexivity|]. now rewrite Hx, IH. Qed.

Lemma same_letters_lower (a : string) :
  forall b, same_letters a b = true -> toLowerCase a = toLowerCase b.
Proof.
  induction a as [|x a IH]; intros [|y b]; simpl; try discriminate; [reflexivity|].
  intros H. apply andb_true_iff in H as [Hxy H].
  apply same_letter_eq in Hxy.
  rewrite <- (to_lower_upper x), <- (to_lower_upper y), Hxy. f_equal. now apply IH.
Qed.

(** X7: the style inferred from a label does not depend on the case of
    its ASCII letters, neither for the nodes of a flowchart (the keyword
    patterns carry the flag [i]) nor for the participants of a sequence
    diagram (the label is lower-cased first). *)
Theorem label_inference_ignores_case (a b : string) :
  same_letters a b = true ->
  inferStyleFromLabel a = inferStyleFromLabel b /\
  Sequence.inferParticipantStyle a = Sequence.inferParticipantStyle b.
Proof.
  intros H. split.
  - unfold inferStyleFromLabel.
    rewrite (find_agree (fun ps => test flag_i (fst ps) a)
                        (fun ps => test flag_i (fst ps) b)); [reflexivity|].
    eapply Forall_impl; [|exact patterns_blind].
    intros ps Hps. now apply test_case_blind.
  - unfold Sequence.inferParticipantStyle. now rewrite (same_letters_lower a b H).
Qed.

Lemma label_inference_ignores_case_witness :
  inferStyleFromLabel "REDIS Cache" = inferStyleFromLabel "redis cache" /\
  Sequence.inferParticipantStyle "REDIS Cache"
  = Sequence.inferParticipantStyle "redis cache".
Proof. apply (label_inference_ignores_case "REDIS Cache" "redis cache"). reflexivity. Defined.

End StyleLaws.

(** ** Layout geometry *)

Module LayoutLaws.
Import JsString Types Directive Diagram Layout JsMapFacts ParserFacts LayoutFacts.
Import Notions Vocabulary.
Local Open Scope Q_scope.

(** *** Arithmetic *)

Ltac qlra :=
  unfold num, DEFAULT_NODE_WIDTH, DEFAULT_NODE_HEIGHT, HORIZONTAL_GAP, VERTICAL_GAP,
    SUBGRAPH_PADDING, LABEL_HEIGHT, SEQUENCE_MESSAGE_GAP in *;
  lra.

Lemma max_ge_l (a b : Q) : a <= Layout.max a b.
Proof.
  unfold Layout.max. destruct (Qle_bool a b) eqn:E; [apply Qle_bool_iff in E; lra | lra].
Qed.

Lemma max_ge_r (a b : Q) : b <= Layout.max a b.
Proof.
  unfold Layout.max. destruct (Qle_bool a b) eqn:E; [lra|].
  assert (b < a); [|lra].
  apply Qnot_le_lt. intros C. apply Qle_bool_iff in C. congruence.
Qed.

Lemma of_nat_lt (a b : nat) : (a < b)%nat -> Layout.of_nat a + 1 <= Layout.of_nat b.
Proof.
  intros H. unfold Layout.of_nat. rewrite <- (inject_Z_plus _ 1)%Z, <- Zle_Qle. lia.
Qed.

Lemma of_nat_S (a : nat) : Layout.of_nat (S a) == Layout.of_nat a + 1.
Proof.
  unfold Layout.of_nat. rewrite <- (inject_Z_plus _ 1)%Z. apply inject_Z_injective. lia.
Qed.

Lemma calculateNodeSize_proper (label : string) : proper_size (calculateNodeSize label).
Proof.
  unfold proper_size, calculateNodeSize. simpl. split.
  - pose proof (max_ge_l DEFAULT_NODE_WIDTH
                  (Layout.of_nat (max_nat_list (map String.length (split LF label))) * 9 + 20)).
    unfold DEFAULT_NODE_WIDTH in *. lra.
  - pose proof (max_ge_l DEFAULT_NODE_HEIGHT
                  (Layout.of_nat (List.length (split LF label)) * 20 + 20)).
    unfold DEFAULT_NODE_HEIGHT in *. lra.
Qed.

(** *** Maps of boxes *)

Lemma get_set {V} (m : JsMap.t V) (k i : string) (v : V) :
  JsMap.get (JsMap.set m k v) i = if String.eqb i k then Some v else JsMap.get m i.
Proof.
  destruct (String.eqb i k) eqn:E.
  - apply String.eqb_eq in E. subst. apply get_set_same.
  - apply String.eqb_neq in E. now apply get_set_other.
Qed.

Lemma apart_sym (a b : LayoutNode) : apart a b -> apart b a.
Proof. unfold apart. tauto. Qed.

Lemma every_set {V} (P : V -> Prop) (m : JsMap.t V) (k : string) (v : V) :
  every P m -> P v -> every P (JsMap.set m k v).
Proof.
  intros Hm Hv i a. rewrite get_set. destruct (String.eqb i k).
  - now intros [= <-].
  - apply Hm.
Qed.

Lemma every_impl {V} (P Q : V -> Prop) (m : JsMap.t V) :
  (forall a, P a -> Q a) -> every P m -> every Q m.
Proof. intros H Hm i a G. eapply H, Hm, G. Qed.

Lemma every_empty {V} (P : V -> Prop) : every P (@nil (string * V)).
Proof. intros i a. discriminate. Qed.

Lemma apart_set (P : LayoutNode -> Prop) (m : JsMap.t LayoutNode) (k : string)
      (v : LayoutNode) :
  boxes_apart m -> every P m -> (forall a, P a -> apart a v) ->
  boxes_apart (JsMap.set m k v).
Proof.
  intros Hm HP Hv i j a b Hij. rewrite !get_set.
  destruct (String.eqb i k) eqn:Ei, (String.eqb j k) eqn:Ej.
  - apply String.eqb_eq in Ei, Ej. congruence.
  - intros [= <-] Gb. apply apart_sym, Hv. eapply HP, Gb.
  - intros Ga [= <-]. apply Hv. eapply HP, Ga.
  - now apply Hm.
Qed.

Lemma apart_empty : boxes_apart [].
Proof. intros i j a b _. discriminate. Qed.

(** *** Sequence diagrams *)

Lemma place_participants_apart (nodes : list ParsedNode) :
  forall m x0,
    boxes_apart m -> every (fun a => x a + width a <= x0) m ->
    boxes_apart (fst (fold_left place_participant nodes (m, x0))).
Proof.
  induction nodes as [|n nodes IH]; intros m x0 Hm Hx; cbn [fold_left]; [exact Hm|].
  pose proof (max_ge_r (fst (calculateNodeSize (label n))) 120) as Hw.
  unfold place_participant at 2.
  set (w := Layout.max (fst (calculateNodeSize (label n))) 120) in *.
  apply IH.
  - eapply apart_set; [exact Hm | exact Hx |].
    intros a Ha. left. exact Ha.
  - apply every_set; cbn [x width].
    + eapply every_impl; [|exact Hx]. cbv beta. intros a Ha.
      qlra.
    + qlra.
Qed.

Lemma layoutSequenceDiagram_apart (diagram : ParsedDiagram) :
  boxes_apart (l_nodes (layoutSequenceDiagram diagram)).
Proof.
  unfold layoutSequenceDiagram. simpl.
  apply place_participants_apart; [apply apart_empty | apply every_empty].
Qed.

(** *** Entity-relationship diagrams *)

Lemma er_sizes_proper (nodes : list ParsedNode) :
  forall m, every proper_size m ->
            every proper_size
                  (fold_left (fun m node => JsMap.set m (id node)
                                                       (calculateNodeSize (label node)))
                             nodes m).
Proof.
  induction nodes as [|n nodes IH]; intros m Hm; simpl; [exact Hm|].
  apply IH, every_set; [exact Hm | apply calculateNodeSize_proper].
Qed.

Lemma er_place_apart (cols : nat) (sizes : JsMap.t (Q * Q)) (c : er_cursor) (n : ParsedNode) :
  every proper_size sizes ->
  boxes_apart (er_positions c) /\ every (er_before c) (er_positions c) ->
  boxes_apart (er_positions (er_place cols sizes c n)) /\
  every (er_before (er_place cols sizes c n)) (er_positions (er_place cols sizes c n)).
Proof.
  intros Hsz [Hm Hb]. unfold er_place.
  match goal with
  | |- context [JsMap.set _ _ {| ln_id := _; x := _; y := _; width := fst ?s; height := _ |}] =>
      set (size := s) in *
  end.
  assert (Hsize : proper_size size).
  { subst size.
    match goal with |- context [match ?g with _ => _ end] => destruct g eqn:G end.
    - eapply Hsz, G.
    - apply calculateNodeSize_proper. }
  destruct Hsize as [Hw Hh]. clearbody size.
  pose proof (max_ge_l (er_maxRowHeight c) (snd size)) as Hmax1.
  pose proof (max_ge_r (er_maxRowHeight c) (snd size)) as Hmax2.
  assert (Hnew : boxes_apart
                   (JsMap.set (er_positions c) (id n)
                      {| ln_id := id n; x := er_x c; y := er_y c;
                         width := fst size; height := snd size |})).
  { eapply apart_set; [exact Hm | exact Hb |].
    intros a [Ha | (Hy & Hx & _)]; unfold apart; simpl.
    - right. right. left. exact Ha.
    - left. exact Hx. }
  set (mx := Layout.max (er_maxRowHeight c) (snd size)) in *. clearbody mx.
  cbv zeta.
  destruct (cols <=? S (er_col c))%nat;
    cbn [er_positions er_maxRowHeight er_x er_y er_col]; (split; [exact Hnew|]).
  - apply every_set.
    + eapply every_impl; [|exact Hb]. unfold er_before.
      cbn [er_positions er_maxRowHeight er_x er_y er_col]. intros a [Ha | (Hy & Hx & Hht)]; left; qlra.
    + unfold er_before. cbn [er_positions er_maxRowHeight er_x er_y er_col x y width height].
      left. qlra.
  - apply every_set.
    + eapply every_impl; [|exact Hb]. unfold er_before.
      cbn [er_positions er_maxRowHeight er_x er_y er_col]. intros a [Ha | (Hy & Hx & Hht)]; [left; exact Ha | right].
      repeat split; qlra.
    + unfold er_before. cbn [er_positions er_maxRowHeight er_x er_y er_col x y width height].
      right.
      repeat split; qlra.
Qed.

Lemma layoutERDiagram_apart (diagram : ParsedDiagram) :
  boxes_apart (l_nodes (layoutERDiagram diagram)).
Proof.
  unfold layoutERDiagram. cbn [l_nodes].
  match goal with |- context [er_place _ ?sz] => set (sizes := sz) end.
  assert (Hsz : every proper_size sizes).
  { subst sizes. apply er_sizes_proper, every_empty. }
  apply (fold_left_invariant
           (fun c => boxes_apart (er_positions c) /\ every (er_before c) (er_positions c))).
  - intros c n. now apply er_place_apart.
  - split; [apply apart_empty | apply every_empty].
Qed.

(** *** Flowcharts *)

Lemma place_node_apart (h rev : bool) (rows : nat) (off : Q) (d c : nat)
      (m : JsMap.t LayoutNode) (n : ParsedNode) :
  boxes_apart m /\ every (placed_before h rev rows off d c) m ->
  boxes_apart (place_node h rev rows off d m n c) /\
  every (placed_before h rev rows off d (S c)) (place_node h rev rows off d m n c).
Proof.
  intros [Hm Hb]. unfold place_node. split.
  - eapply apart_set; [exact Hm | exact Hb |].
    intros a [[Hw Hh] [(d' & Hd & Ha) | (Ha & c' & Hc & Hx)]];
      apply of_nat_lt in Hd || apply of_nat_lt in Hc;
      unfold apart, along, across, rank_pos, rank_step, place_step in *;
      rewrite Hw, Hh; destruct h, rev; cbn [andb negb x y width height] in *.
    all: try (left; qlra); try (right; left; qlra);
      try (right; right; left; qlra); try (right; right; right; qlra).
  - apply every_set.
    + eapply every_impl; [|exact Hb].
      intros a [Hsz [Ha | (Ha & c' & Hc & Hx)]]; (split; [exact Hsz|]);
        [left; exact Ha | right; split; [exact Ha|]].
      exists c'. split; [lia | exact Hx].
    + split; [split; reflexivity|]. right.
      unfold along, across, rank_pos, rank_step, place_step.
      split; [|exists c; split; [lia|]];
        destruct h, rev; cbn [andb negb x y width height]; qlra.
Qed.

Lemma place_row_apart (h rev : bool) (rows : nat) (off : Q) (d : nat)
      (rowNodes : list ParsedNode) :
  forall c m,
    boxes_apart m /\ every (placed_before h rev rows off d c) m ->
    boxes_apart (place_row (place_node h rev rows off d) c rowNodes m) /\
    every (on_rank_below h rev rows (S d))
          (place_row (place_node h rev rows off d) c rowNodes m).
Proof.
  induction rowNodes as [|n rowNodes IH]; intros c m H; cbn [place_row].
  - destruct H as [Hm Hb]. split; [exact Hm|].
    eapply every_impl; [|exact Hb].
    intros a [Hsz [(d' & Hd & Ha) | (Ha & _)]]; (split; [exact Hsz|]).
    + exists d'. split; [lia | exact Ha].
    + exists d. split; [lia | exact Ha].
  - apply IH, place_node_apart, H.
Qed.

Lemma place_rows_apart (h rev : bool) (rows mx : nat) (nodesByDepth : list (list ParsedNode)) :
  forall d m,
    boxes_apart m /\ every (on_rank_below h rev rows d) m ->
    boxes_apart (place_rows h rev rows mx d nodesByDepth m) /\
    every (on_rank_below h rev rows (d + List.length nodesByDepth))
          (place_rows h rev rows mx d nodesByDepth m).
Proof.
  induction nodesByDepth as [|rowNodes more IH]; intros d m [Hm Hb]; cbn [place_rows].
  - rewrite Nat.add_0_r. now split.
  - cbv zeta. cbn [List.length]. rewrite Nat.add_succ_r.
    apply (IH (S d)), place_row_apart. split; [exact Hm|].
    eapply every_impl; [|exact Hb].
    intros a [Hsz Ha]. split; [exact Hsz | now left].
Qed.

Lemma layoutFlowchart_grid (diagram : ParsedDiagram) :
  exists layout rows,
    layoutFlowchart diagram = Some layout /\
    boxes_apart (l_nodes layout) /\
    every (on_rank_below (is_horizontal (direction diagram))
                         (is_reverse (direction diagram)) rows rows)
          (l_nodes layout).
Proof.
  destruct (layoutFlowchart_total diagram) as (layout & Hl & _).
  pose proof Hl as Hl'. unfold layoutFlowchart in Hl'.
  destruct (calculateDepths _ _) as [depths|]; [|discriminate].
  destruct (groupByDepth _ _) as [nodesByDepth|]; [|discriminate].
  exists layout, (List.length nodesByDepth). split; [exact Hl|].
  injection Hl' as <-. cbn [l_nodes].
  apply (place_rows_apart _ _ _ _ nodesByDepth 0). split; [apply apart_empty | apply every_empty].
Qed.

(** X8: in every layout, of a flowchart, a sequence diagram or an
    entity-relationship diagram, the boxes of two different node ids do not
    overlap. *)
Theorem layoutDiagram_boxes_apart (diagram : ParsedDiagram) :
  exists layout,
    layoutDiagram diagram = Some layout /\ boxes_apart (l_nodes layout).
Proof.
  unfold layoutDiagram. destruct (type diagram).
  - destruct (layoutFlowchart_grid diagram) as (layout & rows & Hl & Ha & _). eauto.
  - eexists. split; [reflexivity | apply layoutSequenceDiagram_apart].
  - eexists. split; [reflexivity | apply layoutERDiagram_apart].
  - destruct (layoutFlowchart_grid diagram) as (layout & rows & Hl & Ha & _). eauto.
Qed.

(** *** Ranks of a flowchart *)

Lemma ranked_tail depths first g gs :
  ranked depths first (g :: gs) -> ranked depths (S first) gs.
Proof.
  intros H k row n Hrow Hin. rewrite (H (S k) row n Hrow Hin). lia.
Qed.

Lemma ranked_cons depths first g gs :
  (forall n, In n g -> depth_of depths n = first) ->
  ranked depths (S first) gs -> ranked depths first (g :: gs).
Proof.
  intros Hg Hgs [|k] row n Hrow Hin; simpl in Hrow.
  - injection Hrow as <-. rewrite Nat.add_0_r. now apply Hg.
  - rewrite (Hgs k row n Hrow Hin). lia.
Qed.

Lemma push_at_ranked (depths : JsMap.t nat) (n : ParsedNode)
      (groups : list (list ParsedNode)) :
  forall first depth groups',
    push_at groups depth n = Some groups' ->
    depth_of depths n = (first + depth)%nat ->
    ranked depths first groups -> ranked depths first groups'.
Proof.
  induction groups as [|g gs IH]; intros first depth groups' H Hd Hr; [discriminate|].
  destruct depth as [|depth]; simpl in H.
  - injection H as <-. apply ranked_cons; [|eapply ranked_tail; exact Hr].
    intros n0 Hin. apply in_app_iff in Hin as [Hin|[<-|[]]]; [|lia].
    rewrite (Hr 0%nat g n0 eq_refl Hin). lia.
  - destruct (push_at gs depth n) as [gs'|] eqn:E; [|discriminate]. injection H as <-.
    apply ranked_cons.
    + intros n0 Hin. rewrite (Hr 0%nat g n0 eq_refl Hin). lia.
    + apply (IH (S first) depth gs' E); [lia | eapply ranked_tail; exact Hr].
Qed.

Lemma push_all_ranked (depths : JsMap.t nat) (nodes : list ParsedNode) :
  forall groups rows,
    push_all depths nodes groups = Some rows ->
    ranked depths 0%nat groups -> ranked depths 0%nat rows.
Proof.
  induction nodes as [|n nodes IH]; intros groups rows H Hr; simpl in H.
  - now injection H as <-.
  - destruct (push_at groups _ n) as [groups'|] eqn:E; [|discriminate].
    apply (IH groups' rows H). eapply push_at_ranked; [exact E | reflexivity | exact Hr].
Qed.

Lemma groupByDepth_ranked (nodes : list ParsedNode) (depths : JsMap.t nat)
      (rows : list (list ParsedNode)) :
  groupByDepth nodes depths = Some rows -> ranked depths 0%nat rows.
Proof.
  unfold groupByDepth. intros H. apply (push_all_ranked _ _ _ _ H).
  intros k row n Hrow Hin. exfalso.
  destruct (JsMap.values depths); [now destruct k|].
  apply nth_error_In, repeat_spec in Hrow. now subst row.
Qed.

Lemma every_box_set (P : string -> LayoutNode -> Prop) (m : JsMap.t LayoutNode)
      (k : string) (v : LayoutNode) :
  every_box P m -> P k v -> every_box P (JsMap.set m k v).
Proof.
  intros Hm Hv i a. rewrite get_set. destruct (String.eqb_spec i k) as [->|_].
  - now intros [= <-].
  - apply Hm.
Qed.

Lemma place_row_ranked (h rev : bool) (rows : nat) (off : Q) (d : nat)
      (depths : JsMap.t nat) (rowNodes : list ParsedNode) :
  (d < rows)%nat ->
  (forall n, In n rowNodes -> JsMap.get depths (id n) = Some d) ->
  forall c m,
    every_box (at_depth h rev rows depths) m ->
    every_box (at_depth h rev rows depths)
              (place_row (place_node h rev rows off d) c rowNodes m).
Proof.
  intros Hd. induction rowNodes as [|n rowNodes IH]; intros Hrow c m Hm; cbn [place_row].
  - exact Hm.
  - apply IH; [intros n0 Hn0; apply Hrow; now right|].
    unfold place_node. apply every_box_set; [exact Hm|].
    split; [split; reflexivity|]. exists d. split; [apply Hrow; now left|]. split; [exact Hd|].
    unfold along, rank_pos, rank_step.
    destruct h, rev; cbn [andb negb x y width height]; qlra.
Qed.

Lemma place_rows_ranked (h rev : bool) (rows mx : nat) (depths : JsMap.t nat)
      (nodesByDepth : list (list ParsedNode)) :
  forall d m,
    (d + List.length nodesByDepth <= rows)%nat ->
    (forall k row n, nth_error nodesByDepth k = Some row -> In n row ->
                     JsMap.get depths (id n) = Some (d + k)%nat) ->
    every_box (at_depth h rev rows depths) m ->
    every_box (at_depth h rev rows depths) (place_rows h rev rows mx d nodesByDepth m).
Proof.
  induction nodesByDepth as [|rowNodes more IH]; intros d m Hlen Hrows Hm; cbn [place_rows].
  - exact Hm.
  - cbv zeta. cbn [List.length] in Hlen. apply (IH (S d)); [lia | |].
    + intros k row n Hrow Hin. rewrite (Hrows (S k) row n Hrow Hin). f_equal. lia.
    + apply place_row_ranked; [lia | | exact Hm].
      intros n Hin. rewrite (Hrows 0%nat rowNodes n eq_refl Hin). f_equal. lia.
Qed.

(** X9: every box of a flowchart layout has the fixed size 160 by 60,
    whatever its label, and stands on the rank of its node: the node has a
    depth, as [calculateDepths] gives it, below the number of rows that
    [groupByDepth] makes, and the coordinate of the box along the flow is
    the depth times the rank distance (240 in a horizontal flow, 160 in a
    vertical one); in the reversed directions the ranks are counted from
    the far end, the last row standing at 0. *)
Theorem layoutFlowchart_rank_grid (diagram : ParsedDiagram) :
  exists layout depths nodesByDepth,
    layoutFlowchart diagram = Some layout /\
    calculateDepths (nodes diagram) (buildAdjacency (nodes diagram) (edges diagram))
    = Some depths /\
    groupByDepth (nodes diagram) depths = Some nodesByDepth /\
    every_box (at_depth (is_horizontal (direction diagram))
                        (is_reverse (direction diagram))
                        (List.length nodesByDepth) depths)
              (l_nodes layout).
Proof.
  destruct (layoutFlowchart_total diagram) as (layout & Hl & _).
  pose proof Hl as Hl'. unfold layoutFlowchart in Hl'.
  destruct (calculateDepths _ _) as [depths|] eqn:Ed; [|discriminate].
  destruct (groupByDepth _ _) as [nodesByDepth|] eqn:Eg; [|discriminate].
  exists layout, depths, nodesByDepth.
  split; [exact Hl|]. split; [first [exact Ed | reflexivity]|].
  split; [first [exact Eg | reflexivity]|].
  injection Hl' as <-. cbn [l_nodes].
  apply (place_rows_ranked _ _ _ _ depths nodesByDepth 0%nat); [simpl; lia | |].
  - intros k row n Hrow Hin. cbn [Nat.add].
    pose proof (groupByDepth_ranked _ _ _ Eg k row n Hrow Hin) as Hk. cbn [Nat.add] in Hk.
    assert (Hhas : JsMap.has depths (id n) = true).
    { unfold calculateDepths in Ed.
      destruct (bfs _ _ _ _ _) as [depths0|]; [|discriminate]. injection Ed as <-.
      apply default_depths_has.
      destruct (groupByDepth_total (nodes diagram) (default_depths (nodes diagram) depths0))
        as (rows & Hrows & Hin'); [intros n0 Hn0; now apply default_depths_has|].
      rewrite Eg in Hrows. injection Hrows as <-. apply Hin'.
      apply in_concat. exists row. split; [eapply nth_error_In; exact Hrow | exact Hin]. }
    unfold depth_of in Hk. unfold JsMap.has in Hhas.
    destruct (JsMap.get depths (id n)); [now subst | discriminate].
  - intros i a H. discriminate.
Qed.

Lemma place_message_step (nodePositions : JsMap.t LayoutNode)
      (routed : list LayoutEdge) (level : Q) (e : ParsedEdge) :
  place_message nodePositions (routed, level) e
  = match JsMap.get nodePositions (source e), JsMap.get nodePositions (target e) with
    | Some s, Some t =>
        (routed ++
           [{| le_source := source e; le_target := target e;
               points := [{| px := x s + width s / 2; py := level |};
                          {| px := x t + width t / 2; py := level |}];
               le_label := edge_label e; le_lineStyle := None |}],
         level + SEQUENCE_MESSAGE_GAP)
    | _, _ => (routed, level)
    end.
Proof. reflexivity. Qed.

Lemma place_messages_rows (nodePositions : JsMap.t LayoutNode) (edges : list ParsedEdge) :
  forall routed level,
    Forall2 (message_row nodePositions) (seq 0 (List.length routed)) routed ->
    level == 120 + 60 * Layout.of_nat (List.length routed) ->
    Forall2 (message_row nodePositions)
      (seq 0 (List.length (fst (fold_left (place_message nodePositions) edges
                                          (routed, level)))))
      (fst (fold_left (place_message nodePositions) edges (routed, level))).
Proof.
  induction edges as [|e edges IH]; intros routed level Hr Hl; cbn [fold_left]; [exact Hr|].
  rewrite place_message_step.
  destruct (JsMap.get nodePositions (source e)) as [s|] eqn:Gs;
    [|now apply IH].
  destruct (JsMap.get nodePositions (target e)) as [t|] eqn:Gt;
    [|now apply IH].
  apply IH.
  - rewrite length_app, Nat.add_comm. cbn [List.length Nat.add].
    rewrite seq_S. cbn [Nat.add]. apply Forall2_app; [exact Hr|].
    constructor; [|constructor].
    exists s, t, level. cbn [le_source le_target points]. repeat split; assumption.
  - rewrite length_app, Nat.add_comm. cbn [List.length Nat.add].
    rewrite of_nat_S. qlra.
Qed.

(** X10: in the layout of a sequence diagram the [k]-th routed message is
    a level arrow from the centre line of its sender to the centre line of
    its receiver, at height [120 + 60 k]: messages go down the page in the
    order of the text, 60 apart. *)
Theorem layoutSequenceDiagram_message_rows (diagram : ParsedDiagram) :
  Forall2 (message_row (l_nodes (layoutSequenceDiagram diagram)))
          (seq 0 (List.length (l_edges (layoutSequenceDiagram diagram))))
          (l_edges (layoutSequenceDiagram diagram)).
Proof.
  unfold layoutSequenceDiagram. cbn [l_nodes l_edges].
  apply place_messages_rows; [constructor|].
  change (Layout.of_nat (List.length (@nil LayoutEdge))) with 0. qlra.
Qed.

Lemma min_le_l (a b : Q) : Layout.min a b <= a.
Proof.
  unfold Layout.min. destruct (Qle_bool a b) eqn:E; [lra|].
  assert (b < a); [|lra].
  apply Qnot_le_lt. intros C. apply Qle_bool_iff in C. congruence.
Qed.

Lemma min_le_r (a b : Q) : Layout.min a b <= b.
Proof.
  unfold Layout.min. destruct (Qle_bool a b) eqn:E; [apply Qle_bool_iff in E; lra | lra].
Qed.

(** *** Subgraph frames *)

Lemma max_list_ge (l : list Q) :
  forall a, a <= max_list a l /\ Forall (fun b => b <= max_list a l) l.
Proof.
  unfold max_list. induction l as [|b l IH]; intros a; simpl.
  - split; [lra | constructor].
  - destruct (IH (Layout.max a b)) as [H1 H2].
    pose proof (max_ge_l a b). pose proof (max_ge_r a b).
    split; [lra|]. constructor; [lra | exact H2].
Qed.

Lemma min_list_le (l : list Q) :
  forall a, min_list a l <= a /\ Forall (fun b => min_list a l <= b) l.
Proof.
  unfold min_list. induction l as [|b l IH]; intros a; simpl.
  - split; [lra | constructor].
  - destruct (IH (Layout.min a b)) as [H1 H2].
    pose proof (min_le_l a b). pose proof (min_le_r a b).
    split; [lra|]. constructor; [lra | exact H2].
Qed.

Lemma max_list_bound (f : LayoutNode -> Q) (n0 : LayoutNode) (ns : list LayoutNode)
      (n : LayoutNode) :
  In n (n0 :: ns) -> f n <= max_list (f n0) (map f ns).
Proof.
  destruct (max_list_ge (map f ns) (f n0)) as [H1 H2].
  intros [<-|Hin]; [exact H1|].
  rewrite Forall_forall in H2. apply H2. now apply in_map.
Qed.

Lemma min_list_bound (f : LayoutNode -> Q) (n0 : LayoutNode) (ns : list LayoutNode)
      (n : LayoutNode) :
  In n (n0 :: ns) -> min_list (f n0) (map f ns) <= f n.
Proof.
  destruct (min_list_le (map f ns) (f n0)) as [H1 H2].
  intros [<-|Hin]; [exact H1|].
  rewrite Forall_forall in H2. apply H2. now apply in_map.
Qed.

(** X11: the frame that [layoutSubgraph] computes encloses the box of
    every member of the subgraph that has a box, with the padding of 40 on
    each side and 30 more above for the frame's label; members without a
    box are ignored. *)
Theorem layoutSubgraph_encloses (sg : ParsedSubgraph) (nodePositions : JsMap.t LayoutNode)
        (i : string) (n : LayoutNode) :
  In i (sg_nodes sg) ->
  JsMap.get nodePositions i = Some n ->
  encloses (layoutSubgraph sg nodePositions) n.
Proof.
  intros Hi Hn. unfold layoutSubgraph.
  set (nodeLayouts := flat_map _ (sg_nodes sg)).
  assert (Hin : In n nodeLayouts).
  { subst nodeLayouts. apply in_flat_map. exists i. split; [exact Hi|].
    rewrite Hn. now left. }
  clearbody nodeLayouts. destruct nodeLayouts as [|n0 ns]; [destruct Hin|].
  pose proof (min_list_bound x n0 ns n Hin) as Hx.
  pose proof (min_list_bound y n0 ns n Hin) as Hy.
  pose proof (max_list_bound (fun n => x n + width n) n0 ns n Hin) as Hxw.
  pose proof (max_list_bound (fun n => y n + height n) n0 ns n Hin) as Hyh.
  cbv beta in Hxw, Hyh.
  unfold encloses. cbn [ls_x ls_y ls_width ls_height].
  repeat split; qlra.
Qed.

Lemma layoutSubgraph_encloses_witness :
  encloses (layoutSubgraph sample_subgraph sample_boxes)
           {| ln_id := "DB"; x := 240; y := 320; width := 160; height := 60 |}.
Proof.
  apply (layoutSubgraph_encloses sample_subgraph sample_boxes "DB").
  - right. right. left. reflexivity.
  - reflexivity.
Defined.

Local Close Scope Q_scope.

(** *** Ranks of a flowchart *)

Lemma get_In {V} (m : JsMap.t V) (k : string) (v : V) :
  JsMap.get m k = Some v -> In (k, v) m.
Proof.
  induction m as [|[k0 v0] m IH]; simpl; [discriminate|].
  destruct (String.eqb k k0) eqn:E.
  - apply String.eqb_eq in E. intros [= ->]. subst. now left.
  - intros H. right. now apply IH.
Qed.

Lemma Forall_set {V} (P : string * V -> Prop) (m : JsMap.t V) (k : string) (v : V) :
  Forall P m -> P (k, v) -> Forall P (JsMap.set m k v).
Proof.
  intros Hm Hv. induction m as [|[k0 v0] m IH]; simpl.
  - repeat constructor. exact Hv.
  - apply Forall_cons_iff in Hm as [Hh Ht].
    destruct (String.eqb k k0); constructor; auto.
Qed.

Lemma adjacency_start (es : list ParsedEdge) (nodes : list ParsedNode) :
  forall m, Forall (adjacent_ok es) m ->
            Forall (adjacent_ok es)
                   (fold_left (fun m node => JsMap.set m (id node)
                                               {| incoming := []; outgoing := [] |})
                              nodes m).
Proof.
  induction nodes as [|n nodes IH]; intros m Hm; simpl; [exact Hm|].
  apply IH, Forall_set; [exact Hm|]. split; intros x [].
Qed.

Lemma add_outgoing_ok (es : list ParsedEdge) (e : ParsedEdge) (m : JsMap.t Adjacent) :
  In e es -> Forall (adjacent_ok es) m ->
  Forall (adjacent_ok es) (add_outgoing (source e) (target e) m).
Proof.
  intros He Hm. unfold add_outgoing.
  destruct (JsMap.get m (source e)) as [a|] eqn:G; [|exact Hm].
  apply Forall_set; [exact Hm|].
  apply get_In in G. rewrite Forall_forall in Hm. destruct (Hm _ G) as [Hi Ho].
  split; simpl in *; [exact Hi|].
  intros t Ht. apply in_app_iff in Ht as [Ht|[<-|[]]]; [now apply Ho|].
  now exists e.
Qed.

Lemma add_incoming_ok (es : list ParsedEdge) (e : ParsedEdge) (m : JsMap.t Adjacent) :
  In e es -> Forall (adjacent_ok es) m ->
  Forall (adjacent_ok es) (add_incoming (target e) (source e) m).
Proof.
  intros He Hm. unfold add_incoming.
  destruct (JsMap.get m (target e)) as [a|] eqn:G; [|exact Hm].
  apply Forall_set; [exact Hm|].
  apply get_In in G. rewrite Forall_forall in Hm. destruct (Hm _ G) as [Hi Ho].
  split; simpl in *; [|exact Ho].
  intros s Hs. now exists e.
Qed.

Lemma buildAdjacency_ok (nodes : list ParsedNode) (es : list ParsedEdge) :
  Forall (adjacent_ok es) (buildAdjacency nodes es).
Proof.
  unfold buildAdjacency.
  assert (H : forall l, incl l es ->
              forall m, Forall (adjacent_ok es) m ->
                        Forall (adjacent_ok es)
                          (fold_left (fun m e => add_incoming (target e) (source e)
                                                   (add_outgoing (source e) (target e) m))
                                     l m)).
  { induction l as [|e l IH]; intros Hl m Hm; simpl; [exact Hm|].
    apply IH; [intros x Hx; apply Hl; now right|].
    apply add_incoming_ok, add_outgoing_ok; auto; apply Hl; now left. }
  apply H; [apply incl_refl|]. apply adjacency_start. constructor.
Qed.

Lemma mem_false (x : string) (l : list string) : mem x l = false -> ~ In x l.
Proof.
  unfold mem. intros H Hin.
  assert (existsb (String.eqb x) l = true); [|congruence].
  apply existsb_exists. exists x. split; [exact Hin | apply String.eqb_refl].
Qed.

(** The loop keeps a node that no edge enters at depth 0. *)
Lemma bfs_keeps_source (es : list ParsedEdge) (adjacency : JsMap.t Adjacent) (r : string) :
  Forall (adjacent_ok es) adjacency ->
  (forall e, In e es -> target e <> r) ->
  forall fuel queue visited depths result,
    source_waits r queue visited depths ->
    bfs fuel adjacency queue visited depths = Some result ->
    JsMap.get result r = Some 0.
Proof.
  intros Hadj Hr. induction fuel as [|fuel IH]; intros queue visited depths result [Hq Hd].
  - destruct queue as [|[i d] queue]; simpl; [|discriminate].
    intros [= <-]. destruct Hd as [Hd | [[] _]]. exact Hd.
  - destruct queue as [|[i d] queue]; simpl.
    { intros [= <-]. destruct Hd as [Hd | [[] _]]. exact Hd. }
    destruct (mem i visited) eqn:Ev.
    + apply IH. split; [intros d0 H0; apply Hq; now right|].
      destruct (String.eqb i r) eqn:Eir.
      * apply String.eqb_eq in Eir. subst i. left.
        destruct Hd as [Hd | [_ Hnv]]; [|congruence].
        rewrite Hd. assert (d = 0) as -> by (apply Hq; now left). exact Hd.
      * apply String.eqb_neq in Eir.
        destruct Hd as [Hd | [Hin Hnv]].
        -- left. destruct (_ <? d); [|exact Hd].
           rewrite get_set_other; [exact Hd | congruence].
        -- right. split; [|exact Hnv].
           destruct Hin as [[= ? ?]|Hin]; [congruence | exact Hin].
    + apply IH. split.
      * intros d0 H0. apply in_app_iff in H0 as [H0|H0]; [apply Hq; now right|].
        exfalso. destruct (JsMap.get adjacency i) as [adj|] eqn:G; [|destruct H0].
        apply in_map_iff in H0 as (t & [= -> _] & Ht).
        apply get_In in G. rewrite Forall_forall in Hadj.
        destruct (proj2 (Hadj _ G) _ Ht) as (e & He & Hte). eapply Hr; eauto.
      * destruct (String.eqb i r) eqn:Eir.
        -- apply String.eqb_eq in Eir. subst i. left.
           assert (d = 0) as -> by (apply Hq; now left). apply get_set_same.
        -- apply String.eqb_neq in Eir.
           destruct Hd as [Hd | [Hin Hnv]].
           ++ left. rewrite get_set_other; [exact Hd | congruence].
           ++ right. split.
              ** apply in_app_iff. left.
                 destruct Hin as [[= ? ?]|Hin]; [congruence | exact Hin].
              ** rewrite mem_cons, Hnv.
                 destruct (String.eqb r i) eqn:E; [|reflexivity].
                 apply String.eqb_eq in E. congruence.
Qed.

Lemma default_depths_get (nodes : list ParsedNode) :
  forall depths k d,
    JsMap.get depths k = Some d -> JsMap.get (default_depths nodes depths) k = Some d.
Proof.
  unfold default_depths.
  induction nodes as [|n nodes IH]; intros depths k d H; simpl; [exact H|].
  apply IH. destruct (JsMap.has depths (id n)) eqn:E; [exact H|].
  rewrite get_set_other; [exact H|].
  intros ->. unfold JsMap.has in E. now rewrite H in E.
Qed.

(** X12: a flowchart node that no edge enters gets depth 0 from
    [calculateDepths], so it stands on the first rank of the layout,
    however the rest of the graph looks (cycles and repeated edges
    included). *)
Theorem calculateDepths_source_rank (nodes : list ParsedNode) (edges : list ParsedEdge)
        (n : ParsedNode) :
  In n nodes ->
  (forall e, In e edges -> target e <> id n) ->
  exists depths,
    calculateDepths nodes (buildAdjacency nodes edges) = Some depths /\
    JsMap.get depths (id n) = Some 0.
Proof.
  intros Hn Hr.
  pose proof (buildAdjacency_ok nodes edges) as Hadj.
  destruct (calculateDepths_total nodes (buildAdjacency nodes edges)) as (depths & Hd).
  exists depths. split; [exact Hd|].
  unfold calculateDepths in Hd.
  destruct (bfs _ _ _ _ _) as [result|] eqn:Hb; [|discriminate].
  injection Hd as <-. apply default_depths_get.
  eapply (bfs_keeps_source edges); [exact Hadj | exact Hr | | exact Hb].
  split.
  - intros d Hin. apply in_map_iff in Hin as (x & [= _ <-] & _). reflexivity.
  - right. split; [|reflexivity].
    apply in_map_iff. exists n. split; [reflexivity|].
    apply filter_In. split; [exact Hn|].
    unfold is_root. destruct (JsMap.get _ (id n)) as [adj|] eqn:G; [|reflexivity].
    apply get_In in G. rewrite Forall_forall in Hadj.
    destruct (incoming adj) as [|s l] eqn:Ei; [reflexivity|].
    exfalso. destruct (proj1 (Hadj _ G) s) as (e & He & Hte).
    + simpl. rewrite Ei. now left.
    + eapply Hr; eauto.
Qed.

Lemma calculateDepths_source_rank_witness :
  exists depths,
    calculateDepths [plain_node "A"; plain_node "B"]
      (buildAdjacency [plain_node "A"; plain_node "B"]
                      [plain_edge "A" "B"; plain_edge "B" "B"]) = Some depths /\
    JsMap.get depths "A" = Some 0.
Proof.
  apply (calculateDepths_source_rank
           [plain_node "A"; plain_node "B"] [plain_edge "A" "B"; plain_edge "B" "B"]
           (plain_node "A")).
  - left. reflexivity.
  - intros e [<-|[<-|[]]]; discriminate.
Defined.

End LayoutLaws.

(** ** Traces of the synthesizer *)

Module SceneLaws.
Import JsString Types Directive Diagram Layout Elements Convert.
Import Notions Vocabulary LayoutFacts SceneFacts.

(** *** Composition of steps *)

Lemma sorted_app (l1 l2 : list nat) (c : nat) :
  StronglySorted Nat.lt l1 -> Forall (fun p => p < c) l1 ->
  StronglySorted Nat.lt l2 ->
  StronglySorted Nat.lt (l1 ++ map (Nat.add c) l2).
Proof.
  intros H1 Hb H2. induction l1 as [|a l1 IH]; simpl.
  - induction H2 as [|b l2 _ IH2 Hall]; simpl; constructor; [exact IH2|].
    apply Forall_map. eapply Forall_impl; [|exact Hall]. simpl. unfold Nat.lt. lia.
  - apply StronglySorted_inv in H1 as [H1 Ha].
    apply Forall_cons_iff in Hb as [Hac Hb].
    constructor; [now apply IH|].
    apply Forall_app. split; [exact Ha|].
    apply Forall_map, Forall_forall. intros b _. unfold Nat.lt. lia.
Qed.

Lemma emits_refl (kind : Element -> bool) (w : World) (sc : Scene) :
  emits kind w sc (sc, w).
Proof.
  exists [], [], 0. constructor; simpl; try reflexivity; try constructor.
  - now rewrite app_nil_r.
  - now rewrite app_nil_r.
  - lia.
Qed.

Lemma emits_trans (kind : Element -> bool) (w : World) (sc : Scene)
      (r1 r2 : Scene * World) :
  emits kind w sc r1 -> emits kind (snd r1) (fst r1) r2 -> emits kind w sc r2.
Proof.
  intros (n1 & d1 & c1 & H1) (n2 & d2 & c2 & H2).
  exists (n1 ++ n2), (d1 ++ map (Nat.add c1) d2), (c1 + c2).
  destruct H1, H2. constructor.
  - rewrite pr_elements1, pr_elements0. symmetry. apply app_assoc.
  - rewrite pr_texts1, pr_texts0, filter_app, map_app. symmetry. apply app_assoc.
  - rewrite forallb_app, pr_kind0, pr_kind1. reflexivity.
  - rewrite map_app, length_app, seq_app, pr_seeds0, pr_seeds1, pr_counter0. reflexivity.
  - rewrite pr_counter1, pr_counter0, length_app. lia.
  - rewrite !map_app, pr_ids0, pr_ids1, map_map. f_equal.
    apply map_ext. intros p. apply pr_stream0.
  - now apply sorted_app.
  - apply Forall_app. split.
    + eapply Forall_impl; [|exact pr_bound0]. simpl. lia.
    + apply Forall_map. eapply Forall_impl; [|exact pr_bound1]. simpl. lia.
  - intros n. rewrite pr_stream1, pr_stream0. f_equal. lia.
Qed.

Lemma emits_weaken (kind kind' : Element -> bool) (w : World) (sc : Scene)
      (r : Scene * World) :
  (forall e, kind e = true -> kind' e = true) ->
  emits kind w sc r -> emits kind' w sc r.
Proof.
  intros Hk (n & d & c & H). exists n, d, c. destruct H. constructor; auto.
  rewrite forallb_forall in *. auto.
Qed.

Lemma foldM_emits {A} (kind : Element -> bool) (f : Scene -> A -> M Scene) :
  (forall sc a w, emits kind w sc (f sc a w)) ->
  forall l sc w, emits kind w sc (foldM f l sc w).
Proof.
  intros Hf. induction l as [|a l IH]; intros sc w; simpl.
  - apply emits_refl.
  - unfold bind. destruct (f sc a w) as [sc1 w1] eqn:E.
    apply (emits_trans kind w sc (sc1, w1)); [rewrite <- E; apply Hf | apply IH].
Qed.

(** *** The five emitting steps *)

Ltac produced draws c :=
  eexists; exists draws, c; constructor;
  [ simpl; rewrite <- ?app_assoc; reflexivity
  | simpl; rewrite <- ?app_assoc, ?app_nil_r; reflexivity
  | reflexivity | reflexivity | simpl; lia | reflexivity
  | repeat constructor; unfold Nat.lt; lia
  | repeat constructor; lia
  | reflexivity ].

Lemma emit_subgraph_emits layout sc sg w :
  emits frame_part w sc (emit_subgraph layout sc sg w).
Proof.
  unfold emit_subgraph.
  destruct (find _ (l_subgraphs layout)) as [layoutSg|]; [|apply emits_refl].
  produced [0; 2] 3.
Qed.

Lemma emit_node_emits diagram layout sc node w :
  emits node_part w sc (emit_node diagram layout sc node w).
Proof.
  unfold emit_node.
  destruct (JsMap.get (l_nodes layout) (id node)) as [layoutNode|]; [|apply emits_refl].
  unfold createNodeWithLabel, nodeShapeToElement.
  destruct (is_er (type diagram) && includes (label node) nl);
    destruct (shape node);
    (produced [0; 2; 3] 4 || produced [0; 2] 3).
Qed.

Lemma emit_lifeline_emits layout lifelineEndY sc node w :
  emits node_part w sc (emit_lifeline layout lifelineEndY sc node w).
Proof.
  unfold emit_lifeline.
  destruct (JsMap.get (l_nodes layout) (id node)) as [layoutNode|]; [|apply emits_refl].
  produced [0] 1.
Qed.

Lemma emit_edge_emits parsedEdgeMap sc layoutEdge w :
  emits link_part w sc (emit_edge parsedEdgeMap sc layoutEdge w).
Proof.
  unfold emit_edge, createArrow.
  destruct (truthy (le_label layoutEdge)) as [lbl|];
    destruct (points layoutEdge) as [|p0 [|p1 ps]];
    (produced [0; 2] 3 || produced [0] 1).
Qed.

(** *** Points and extent of lines and arrows *)

Lemma spanned (e : Element) (first final : Q * Q) :
  (fst first == 0)%Q -> (snd first == 0)%Q ->
  (e_width e == Qabs.Qabs (fst final))%Q ->
  (e_height e == Qabs.Qabs (snd final))%Q ->
  spans e first final = true.
Proof.
  intros H1 H2 H3 H4. unfold spans.
  apply Qeq_bool_iff in H1, H2, H3, H4. unfold Layout.num in *.
  now rewrite H1, H2, H3, H4.
Qed.

Lemma spanned_line (e : Element) (first final : Q * Q) :
  e_type e = t_line -> e_points e = Some [first; final] ->
  spans e first final = true -> well_spanned e = true.
Proof. intros Ht Hp H. unfold well_spanned. now rewrite Ht, Hp. Qed.

Lemma last_map {A B} (f : A -> B) (l : list A) (d : A) :
  List.last (map f l) (f d) = f (List.last l d).
Proof.
  induction l as [|a l IH]; [reflexivity|].
  destruct l as [|b l]; [reflexivity|]. exact IH.
Qed.

Lemma spanned_arrow (e : Element) (f : Point -> Q * Q) (p0 p1 : Point) (ps : list Point) :
  e_type e = t_arrow -> e_points e = Some (map f (p0 :: p1 :: ps)) ->
  spans e (f p0) (f (List.last (p1 :: ps) p0)) = true -> well_spanned e = true.
Proof.
  intros Ht Hp H. unfold well_spanned. rewrite Ht, Hp.
  change (spans e (f p0) (List.last (map f (p1 :: ps)) (f p0)) = true).
  rewrite last_map. exact H.
Qed.

Ltac run_step :=
  cbn -[Qplus Qminus Qmult Qdiv Qopp Qinv Qabs.Qabs Layout.abs Layout.of_nat Layout.max
        index_token max_line_length line_count String.length List.last map].

Ltac each_part :=
  cbn [forallb app];
  repeat match goal with
         | |- (_ && _)%bool = true => apply andb_true_intro; split
         end;
  try reflexivity.

Ltac produced_spanned draws c :=
  eexists; exists draws, c; constructor;
  [ run_step; rewrite <- ?app_assoc; reflexivity
  | run_step; rewrite <- ?app_assoc, ?app_nil_r; reflexivity
  | each_part
  | reflexivity | simpl; lia | reflexivity
  | repeat constructor; unfold Nat.lt; lia
  | repeat constructor; lia
  | reflexivity ].

Lemma emit_subgraph_spans layout sc sg w :
  emits well_spanned w sc (emit_subgraph layout sc sg w).
Proof.
  unfold emit_subgraph.
  destruct (find _ (l_subgraphs layout)) as [layoutSg|]; [|apply emits_refl].
  produced_spanned [0; 2] 3.
Qed.

Lemma emit_node_spans diagram layout sc node w :
  emits well_spanned w sc (emit_node diagram layout sc node w).
Proof.
  unfold emit_node.
  destruct (JsMap.get (l_nodes layout) (id node)) as [layoutNode|]; [|apply emits_refl].
  unfold createNodeWithLabel, nodeShapeToElement.
  destruct (is_er (type diagram) && includes (label node) nl);
    destruct (shape node);
    (produced_spanned [0; 2; 3] 4 || produced_spanned [0; 2] 3);
    (eapply spanned_line; [reflexivity | reflexivity |];
     apply spanned; reflexivity).
Qed.

Lemma emit_lifeline_spans layout lifelineEndY sc node w :
  emits well_spanned w sc (emit_lifeline layout lifelineEndY sc node w).
Proof.
  unfold emit_lifeline.
  destruct (JsMap.get (l_nodes layout) (id node)) as [layoutNode|]; [|apply emits_refl].
  produced_spanned [0] 1.
  eapply spanned_line; [reflexivity | reflexivity |]. apply spanned; reflexivity.
Qed.

Lemma emit_edge_spans parsedEdgeMap sc layoutEdge w :
  emits well_spanned w sc (emit_edge parsedEdgeMap sc layoutEdge w).
Proof.
  unfold emit_edge, createArrow.
  destruct (truthy (le_label layoutEdge)) as [lbl|];
    destruct (points layoutEdge) as [|p0 [|p1 ps]];
    (produced_spanned [0; 2] 3 || produced_spanned [0] 1);
    (apply (spanned_arrow _ (fun p => (px p - px p0, py p - py p0)%Q) p0 p1 ps);
     [ reflexivity | reflexivity |];
     apply spanned;
     [ cbn [fst snd]; unfold Qminus; apply Qplus_opp_r
     | cbn [fst snd]; unfold Qminus; apply Qplus_opp_r
     | reflexivity | reflexivity ]).
Qed.

(** *** The finishing pass changes back-references only *)

Lemma reconcile_plain arrows e : is_shape e = false -> reconcile arrows e = e.
Proof. intros H. unfold reconcile. now rewrite H. Qed.

Lemma reconcile_fields arrows e :
  e_type (reconcile arrows e) = e_type e /\
  e_strokeStyle (reconcile arrows e) = e_strokeStyle e /\
  seed (reconcile arrows e) = seed e /\
  e_id (reconcile arrows e) = e_id e.
Proof.
  unfold reconcile. destruct (is_shape e); [|repeat split].
  destruct (map _ _); repeat split.
Qed.

Lemma reconcile_kind arrows e :
  frame_part (reconcile arrows e) = frame_part e /\
  node_part (reconcile arrows e) = node_part e /\
  link_part (reconcile arrows e) = link_part e /\
  is_text (reconcile arrows e) = is_text e.
Proof.
  destruct (reconcile_fields arrows e) as (Ht & Hs & _ & _).
  unfold frame_part, node_part, link_part, is_frame, is_text, is_shape, is_arrow.
  rewrite Ht, Hs. repeat split.
Qed.

Lemma reconcile_texts arrows l :
  map info_of (filter is_text (map (reconcile arrows) l)) = map info_of (filter is_text l).
Proof.
  induction l as [|e l IH]; simpl; [reflexivity|].
  destruct (reconcile_kind arrows e) as (_ & _ & _ & ->).
  destruct (is_text e) eqn:E; [|exact IH].
  simpl. rewrite IH, reconcile_plain; [reflexivity|].
  unfold is_text, is_shape in *. destruct (e_type e); congruence.
Qed.

Lemma forallb_reconcile (kind : Element -> bool) arrows l :
  (forall e, kind (reconcile arrows e) = kind e) ->
  forallb kind (map (reconcile arrows) l) = forallb kind l.
Proof.
  intros H. induction l as [|e l IH]; simpl; [reflexivity|]. now rewrite H, IH.
Qed.

(** *** The whole run *)

Lemma synthesize_trace (diagram : ParsedDiagram) (layout : LayoutResult) (w : World) :
  exists frames nodes links draws arrows,
    let all := frames ++ nodes ++ links in
    fst (synthesize diagram layout w)
    = {| r_elements := map (reconcile arrows) all;
         r_textInfos := map info_of (filter is_text all) |} /\
    forallb frame_part frames = true /\
    forallb node_part nodes = true /\
    forallb link_part links = true /\
    map seed all = seq (seedCounter w) (List.length all) /\
    seedCounter (snd (synthesize diagram layout w)) = seedCounter w + List.length all /\
    map e_id all = map (random_ids w) draws /\
    StronglySorted Nat.lt draws.
Proof.
  unfold synthesize, bind.
  pose proof (foldM_emits frame_part (emit_subgraph layout) (emit_subgraph_emits layout)
                (subgraphs diagram) empty_scene w) as H1.
  destruct (foldM (emit_subgraph layout) (subgraphs diagram) empty_scene w) as [sc1 w1].
  pose proof (foldM_emits node_part (emit_node diagram layout)
                (emit_node_emits diagram layout) (nodes diagram) sc1 w1) as H2.
  destruct (foldM (emit_node diagram layout) (nodes diagram) sc1 w1) as [sc2 w2].
  set (third := if is_sequence (type diagram) then _ else ret sc2).
  assert (H3 : emits node_part w2 sc2 (third w2)).
  { subst third. destruct (is_sequence (type diagram)); [|apply emits_refl].
    apply foldM_emits. intros sc a w0. apply emit_lifeline_emits. }
  destruct (third w2) as [sc3 w3]. clear third.
  pose proof (emits_trans node_part w1 sc1 (sc2, w2) (sc3, w3) H2 H3) as H23.
  match goal with |- context [emit_edge ?m] => set (parsedEdgeMap := m) end.
  pose proof (foldM_emits link_part (emit_edge parsedEdgeMap)
                (emit_edge_emits parsedEdgeMap) (l_edges layout) sc3 w3) as H4.
  destruct (foldM (emit_edge parsedEdgeMap) (l_edges layout) sc3 w3) as [sc4 w4].
  assert (Hall : emits any_part w empty_scene (sc4, w4)).
  { apply (emits_trans any_part w empty_scene (sc1, w1)).
    - eapply emits_weaken; [|exact H1]. reflexivity.
    - apply (emits_trans any_part w1 sc1 (sc3, w3)).
      + eapply emits_weaken; [|exact H23]. reflexivity.
      + eapply emits_weaken; [|exact H4]. reflexivity. }
  destruct H1 as (frames & d1 & c1 & H1), H23 as (nodes & d2 & c2 & H23),
    H4 as (links & d4 & c4 & H4), Hall as (all & draws & c & Hall).
  exists frames, nodes, links, draws, (arrowElements sc4).
  assert (Eall : all = frames ++ nodes ++ links).
  { pose proof (pr_elements _ _ _ _ _ _ _ Hall) as E.
    pose proof (pr_elements _ _ _ _ _ _ _ H4) as E4.
    pose proof (pr_elements _ _ _ _ _ _ _ H23) as E23.
    pose proof (pr_elements _ _ _ _ _ _ _ H1) as E1.
    simpl in E, E4, E23, E1. rewrite E4, E23, E1 in E.
    rewrite <- app_assoc in E. symmetry. exact E. }
  subst all. cbv zeta. simpl fst. simpl snd.
  repeat split.
  - pose proof (pr_elements _ _ _ _ _ _ _ Hall) as E.
    pose proof (pr_texts _ _ _ _ _ _ _ Hall) as T.
    simpl in E, T. now rewrite E, T.
  - exact (pr_kind _ _ _ _ _ _ _ H1).
  - exact (pr_kind _ _ _ _ _ _ _ H23).
  - exact (pr_kind _ _ _ _ _ _ _ H4).
  - exact (pr_seeds _ _ _ _ _ _ _ Hall).
  - exact (pr_counter _ _ _ _ _ _ _ Hall).
  - exact (pr_ids _ _ _ _ _ _ _ Hall).
  - exact (pr_sorted _ _ _ _ _ _ _ Hall).
Qed.

Lemma synthesize_kind (kind : Element -> bool) (diagram : ParsedDiagram)
      (layout : LayoutResult) (w : World) :
  (forall sc sg w, emits kind w sc (emit_subgraph layout sc sg w)) ->
  (forall sc n w, emits kind w sc (emit_node diagram layout sc n w)) ->
  (forall y sc n w, emits kind w sc (emit_lifeline layout y sc n w)) ->
  (forall m sc e w, emits kind w sc (emit_edge m sc e w)) ->
  exists new arrows,
    r_elements (fst (synthesize diagram layout w)) = map (reconcile arrows) new /\
    forallb kind new = true.
Proof.
  intros Hsg Hnode Hline Hedge. unfold synthesize, bind.
  pose proof (foldM_emits kind (emit_subgraph layout) Hsg
                (subgraphs diagram) empty_scene w) as H1.
  destruct (foldM (emit_subgraph layout) (subgraphs diagram) empty_scene w) as [sc1 w1].
  pose proof (foldM_emits kind (emit_node diagram layout) Hnode (nodes diagram) sc1 w1) as H2.
  destruct (foldM (emit_node diagram layout) (nodes diagram) sc1 w1) as [sc2 w2].
  set (third := if is_sequence (type diagram) then _ else ret sc2).
  assert (H3 : emits kind w2 sc2 (third w2)).
  { subst third. destruct (is_sequence (type diagram)); [|apply emits_refl].
    apply foldM_emits. intros sc a w0. apply Hline. }
  destruct (third w2) as [sc3 w3]. clear third.
  match goal with |- context [emit_edge ?m] => set (parsedEdgeMap := m) end.
  pose proof (foldM_emits kind (emit_edge parsedEdgeMap) (Hedge parsedEdgeMap)
                (l_edges layout) sc3 w3) as H4.
  destruct (foldM (emit_edge parsedEdgeMap) (l_edges layout) sc3 w3) as [sc4 w4].
  pose proof (emits_trans kind _ _ _ _
                (emits_trans kind _ _ _ _ (emits_trans kind _ _ _ _ H1 H2) H3) H4)
    as (new & draws & c & Hall).
  exists new, (arrowElements sc4). simpl.
  pose proof (pr_elements _ _ _ _ _ _ _ Hall) as E. simpl in E.
  split; [now rewrite E | exact (pr_kind _ _ _ _ _ _ _ Hall)].
Qed.

Lemma convert_trace (diagram : ParsedDiagram) (w : World) :
  exists result w' frames nodes links draws arrows,
    convertToExcalidraw diagram w = Some (result, w') /\
    result = {| r_elements := map (reconcile arrows) (frames ++ nodes ++ links);
                r_textInfos := map info_of (filter is_text (frames ++ nodes ++ links)) |} /\
    forallb frame_part frames = true /\
    forallb node_part nodes = true /\
    forallb link_part links = true /\
    map seed (frames ++ nodes ++ links)
    = seq (seedCounter w) (List.length (frames ++ nodes ++ links)) /\
    seedCounter w' = seedCounter w + List.length (frames ++ nodes ++ links) /\
    map e_id (frames ++ nodes ++ links) = map (random_ids w) draws /\
    StronglySorted Nat.lt draws.
Proof.
  destruct (layoutDiagram_total diagram) as (layout & Hl & _).
  destruct (synthesize_trace diagram layout w)
    as (frames & nodes & links & draws & arrows & H).
  cbv zeta in H.
  exists (fst (synthesize diagram layout w)), (snd (synthesize diagram layout w)),
    frames, nodes, links, draws, arrows.
  split; [|exact H].
  unfold convertToExcalidraw. rewrite Hl. now destruct (synthesize diagram layout w).
Qed.

Lemma map_reconcile (f : Element -> nat) arrows l :
  (forall e, f (reconcile arrows e) = f e) ->
  map f (map (reconcile arrows) l) = map f l.
Proof. intros H. rewrite map_map. apply map_ext, H. Qed.

(** X13: the seeds of the primitives of a scene count up from the value of
    the module's seed counter, one per primitive in emission order, and the
    counter is left behind the last one: a later conversion in the same
    process goes on from there. *)
Theorem seeds_count_up (diagram : ParsedDiagram) (w : World) :
  exists result w',
    convertToExcalidraw diagram w = Some (result, w') /\
    map seed (r_elements result)
    = seq (seedCounter w) (List.length (r_elements result)) /\
    seedCounter w' = seedCounter w + List.length (r_elements result).
Proof.
  destruct (convert_trace diagram w)
    as (result & w' & frames & nodes & links & draws & arrows
        & Hc & -> & _ & _ & _ & Hs & Hn & _).
  eexists. exists w'. split; [exact Hc|]. cbn [r_elements].
  rewrite length_map. split; [|exact Hn].
  rewrite <- Hs, map_map. apply map_ext. intros e. apply reconcile_fields.
Qed.

Lemma sorted_nodup (l : list nat) : StronglySorted Nat.lt l -> NoDup l.
Proof.
  induction 1 as [|a l _ IH Ha]; constructor; [|exact IH].
  intros Hin. rewrite Forall_forall in Ha. specialize (Ha _ Hin).
  unfold Nat.lt in Ha. lia.
Qed.

Lemma nodup_map_injective {A B} (f : A -> B) (l : list A) :
  (forall x y, f x = f y -> x = y) -> NoDup l -> NoDup (map f l).
Proof.
  intros Hf. induction 1 as [|a l Ha _ IH]; simpl; constructor; [|exact IH].
  intros Hin. apply in_map_iff in Hin as (b & Hb & Hin).
  apply Hf in Hb. now subst.
Qed.

(** X14: when no two calls of the random identifier generator return the
    same string, no two primitives of a scene share an id. *)
Theorem ids_are_distinct (diagram : ParsedDiagram) (w : World) :
  collision_free w ->
  exists result w',
    convertToExcalidraw diagram w = Some (result, w') /\
    NoDup (map e_id (r_elements result)).
Proof.
  intros Hw.
  destruct (convert_trace diagram w)
    as (result & w' & frames & nodes & links & draws & arrows
        & Hc & -> & _ & _ & _ & _ & _ & Hi & Hd).
  eexists. exists w'. split; [exact Hc|]. cbn [r_elements].
  rewrite map_map.
  replace (map (fun e => e_id (reconcile arrows e)) (frames ++ nodes ++ links))
    with (map e_id (frames ++ nodes ++ links))
    by (apply map_ext; intros e; symmetry; apply reconcile_fields).
  rewrite Hi. apply nodup_map_injective; [exact Hw | now apply sorted_nodup].
Qed.

Lemma sample_world_collision_free : collision_free sample_world.
Proof.
  intros i j H. simpl in H. injection H as H.
  assert (E : NilEmpty.uint_of_string (JsString.of_nat i)
              = NilEmpty.uint_of_string (JsString.of_nat j)) by now rewrite H.
  unfold JsString.of_nat in E. rewrite !NilEmpty.usu in E. injection E as E.
  rewrite <- (Unsigned.of_to i), <- (Unsigned.of_to j). now rewrite E.
Qed.

Lemma ids_are_distinct_witness :
  collision_free sample_world /\
  exists result w',
    convertToExcalidraw (Flowchart.parseFlowchart two_routes) sample_world
    = Some (result, w') /\
    NoDup (map e_id (r_elements result)).
Proof.
  split; [exact sample_world_collision_free|].
  exact (ids_are_distinct (Flowchart.parseFlowchart two_routes) sample_world
           sample_world_collision_free).
Defined.

(** X15: the text list that a conversion returns beside the scene holds
    exactly the text primitives of the scene, in scene order, each with its
    own id and its own text. *)
Theorem textInfos_are_the_texts (diagram : ParsedDiagram) (w : World) :
  exists result w',
    convertToExcalidraw diagram w = Some (result, w') /\
    r_textInfos result = map info_of (filter is_text (r_elements result)).
Proof.
  destruct (convert_trace diagram w)
    as (result & w' & frames & nodes & links & draws & arrows & Hc & -> & _).
  eexists. exists w'. split; [exact Hc|]. cbn [r_elements r_textInfos].
  symmetry. apply reconcile_texts.
Qed.

(** X16: a scene is layered: first the frames of the subgraphs with their
    labels, then the node shapes with their labels and the lines
    (separators and lifelines), then the arrows with their labels; so every
    frame lies below every node shape, and every shape and line below every
    arrow. *)
Theorem scene_is_layered (diagram : ParsedDiagram) (w : World) :
  exists result w' frames nodes links,
    convertToExcalidraw diagram w = Some (result, w') /\
    r_elements result = frames ++ nodes ++ links /\
    forallb frame_part frames = true /\
    forallb node_part nodes = true /\
    forallb link_part links = true.
Proof.
  destruct (convert_trace diagram w)
    as (result & w' & frames & nodes & links & draws & arrows
        & Hc & -> & Hf & Hn & Hl & _).
  eexists. exists w', (map (reconcile arrows) frames), (map (reconcile arrows) nodes),
    (map (reconcile arrows) links).
  split; [exact Hc|]. cbn [r_elements]. rewrite !map_app.
  split; [reflexivity|].
  rewrite !forallb_reconcile by (intros e; apply reconcile_kind). auto.
Qed.

Lemma reconcile_spanned arrows e : well_spanned (reconcile arrows e) = well_spanned e.
Proof.
  unfold reconcile. destruct (is_shape e); [|reflexivity].
  destruct (map _ _); reflexivity.
Qed.

Lemma parts_arrows (les : list LayoutEdge) (parts : list (list Element)) :
  Forall2 edge_part les parts ->
  Forall2 arrow_of les (filter is_arrow (List.concat parts)).
Proof.
  induction 1 as [|le part les parts Hp _ IH]; [constructor|].
  cbn [List.concat]. rewrite filter_app.
  assert (Hpart : exists a, filter is_arrow part = [a] /\ arrow_of le a).
  { unfold edge_part in Hp. unfold arrow_of, is_arrow.
    destruct (2 <=? List.length (points le)).
    - destruct Hp as (a & Ha & Hp). exists a. split; [|exact Ha].
      destruct Ha as (Ha & _). destruct (truthy (le_label le)).
      + destruct Hp as (t & (Ht & _) & ->). cbn. now rewrite Ha, Ht.
      + subst part. cbn. now rewrite Ha.
    - destruct Hp as (a & Ha & ->). exists a. split; [|exact Ha].
      destruct Ha as (Ha & _). cbn. now rewrite Ha. }
  destruct Hpart as (a & -> & Ha). now constructor.
Qed.

(** X17: in every scene each line carries two relative points and each
    arrow two or more, or none; the points start at the origin, and the
    width and the height of the primitive are the distances from there to
    the last point; an arrow without points has an empty box; rectangles,
    ellipses and texts carry no points.  The arrows of the scene are those
    of the connectors of the layout, in order: a connector with two
    waypoints or more gives an arrow that stands at the first waypoint and
    carries the waypoints relative to it, a connector with fewer gives the
    fallback arrow, at the origin, without points. *)
Theorem lines_and_arrows_are_spanned (diagram : ParsedDiagram) (w : World) :
  exists result w' layout,
    convertToExcalidraw diagram w = Some (result, w') /\
    layoutDiagram diagram = Some layout /\
    forallb well_spanned (r_elements result) = true /\
    Forall2 arrow_of (l_edges layout) (filter is_arrow (r_elements result)).
Proof.
  destruct (layoutDiagram_total diagram) as (layout & Hl & _).
  destruct (synthesize_kind well_spanned diagram layout w) as (new & arrows & E & Hk).
  - intros. apply emit_subgraph_spans.
  - intros. apply emit_node_spans.
  - intros. apply emit_lifeline_spans.
  - intros. apply emit_edge_spans.
  - exists (fst (synthesize diagram layout w)), (snd (synthesize diagram layout w)), layout.
    split; [|split; [exact Hl|split]].
    + unfold convertToExcalidraw. rewrite Hl. now destruct (synthesize diagram layout w).
    + rewrite E, forallb_reconcile; [exact Hk | apply reconcile_spanned].
    + destruct (SceneFacts.synthesize_links diagram layout w)
        as (front & parts & -> & Hfront & _ & Hparts).
      rewrite filter_app.
      unfold count in Hfront. apply length_zero_iff_nil in Hfront. rewrite Hfront.
      now apply parts_arrows.
Qed.

End SceneLaws.

(** ** The convert tool *)

Module ServerLaws.
Import JsString Regex Types Directive Diagram Elements Convert Server.
Import Notions Vocabulary DirectiveFacts LayoutFacts DetectFacts.

(** X18: a text that begins with the marker [%%{excali] but holds no
    complete directive block is never classified: the detector removes
    nothing and calls itself on the same text without end, and the convert
    tool answers with the error reply of its exception handler. *)
Theorem unfinished_directive_is_an_error (mermaidSource : string)
        (outputPath : option string) (w : World) (d : Disk) :
  is_empty mermaidSource = false ->
  test no_flags re_leading_directive (trim mermaidSource) = true ->
  test no_flags re_directive_block (trim mermaidSource) = false ->
  (forall fuel, detectDiagramType fuel mermaidSource = None) /\
  convert_tool mermaidSource outputPath w d = (ConversionError, w, d).
Proof.
  intros Hne Hlead Hblock.
  assert (Hsame : replace_first no_flags re_directive_block EmptyString (trim mermaidSource)
                  = trim mermaidSource).
  { unfold replace_first. unfold test in Hblock.
    destruct (exec no_flags re_directive_block (trim mermaidSource)); [discriminate|].
    reflexivity. }
  assert (Hstuck : forall fuel, detectDiagramType fuel mermaidSource = None).
  { intros [|fuel]; [reflexivity|]. simpl. rewrite Hlead, Hsame.
    apply detect_stuck; [apply trim_idempotent | exact Hlead | exact Hsame]. }
  split; [exact Hstuck|].
  unfold convert_tool. now rewrite Hne, Hstuck.
Qed.

Lemma unfinished_directive_is_an_error_witness :
  (forall fuel, detectDiagramType fuel unfinished_marker = None) /\
  convert_tool unfinished_marker None sample_world sample_disk
  = (ConversionError, sample_world, sample_disk).
Proof.
  apply (unfinished_directive_is_an_error unfinished_marker None sample_world sample_disk);
    vm_compute; reflexivity.
Defined.

(** X19: for a non-empty text without leading directive marker in which
    some line starts with a header keyword, the conversion itself never
    fails: the tool parses the whole text with the parser of the detected
    dialect and lays out and synthesizes the scene.  Without an output path
    it answers with the converted document.  With an output path it writes
    the document there and answers with the message that names the path,
    the dialect and the numbers of nodes, edges and subgraphs; when the
    write fails it answers with the error reply of its exception handler,
    after the conversion has used up its seeds. *)
Theorem convert_tool_converts (mermaidSource : string) (w : World) (t : DiagramType) :
  is_empty mermaidSource = false ->
  test no_flags re_leading_directive (trim mermaidSource) = false ->
  classify_lines (trim mermaidSource) = Some t ->
  let parsed := parseDiagram mermaidSource t in
  exists result w',
    convertToExcalidraw parsed w = Some (result, w') /\
    type parsed = t /\
    rawMermaid parsed = mermaidSource /\
    (forall d, convert_tool mermaidSource None w d = (Converted parsed result, w', d)) /\
    (forall d, convert_tool mermaidSource (Some EmptyString) w d
               = (Converted parsed result, w', d)) /\
    (forall path d,
       is_empty path = false -> refuses d path = false ->
       convert_tool mermaidSource (Some path) w d
       = (Written (written_message path t parsed), w',
          {| refuses := refuses d; writes := writes d ++ [(path, (parsed, result))] |})) /\
    (forall path d,
       is_empty path = false -> refuses d path = true ->
       convert_tool mermaidSource (Some path) w d = (ConversionError, w', d)).
Proof.
  intros Hne Hlead Hclass parsed. subst parsed.
  destruct (layoutDiagram_total (parseDiagram mermaidSource t)) as (layout & Hl & _).
  exists (fst (synthesize (parseDiagram mermaidSource t) layout w)),
    (snd (synthesize (parseDiagram mermaidSource t) layout w)).
  assert (Hc : convertToExcalidraw (parseDiagram mermaidSource t) w
               = Some (fst (synthesize (parseDiagram mermaidSource t) layout w),
                       snd (synthesize (parseDiagram mermaidSource t) layout w))).
  { unfold convertToExcalidraw. rewrite Hl. now destruct (synthesize _ layout w). }
  assert (Htool : forall outputPath d,
             convert_tool mermaidSource outputPath w d
             = match truthy outputPath with
               | Some path =>
                   match writeFile path (parseDiagram mermaidSource t)
                                   (fst (synthesize (parseDiagram mermaidSource t) layout w))
                                   d with
                   | Some d' =>
                       (Written (written_message path t (parseDiagram mermaidSource t)),
                        snd (synthesize (parseDiagram mermaidSource t) layout w), d')
                   | None =>
                       (ConversionError,
                        snd (synthesize (parseDiagram mermaidSource t) layout w), d)
                   end
               | None =>
                   (Converted (parseDiagram mermaidSource t)
                              (fst (synthesize (parseDiagram mermaidSource t) layout w)),
                    snd (synthesize (parseDiagram mermaidSource t) layout w), d)
               end).
  { intros outputPath d. unfold convert_tool.
    rewrite Hne, (detect_plain _ _ Hlead), Hclass, Hc. reflexivity. }
  split; [exact Hc|]. split; [|split].
  - unfold classify_lines in Hclass.
    repeat match type of Hclass with
           | (if ?c then _ else _) = _ => destruct c
           end; try discriminate; injection Hclass as <-; reflexivity.
  - unfold classify_lines in Hclass.
    repeat match type of Hclass with
           | (if ?c then _ else _) = _ => destruct c
           end; try discriminate; injection Hclass as <-; reflexivity.
  - split; [|split; [|split]].
    + intros d. now rewrite Htool.
    + intros d. now rewrite Htool.
    + intros path d Hpath Hok. rewrite Htool. unfold truthy, writeFile.
      now rewrite Hpath, Hok.
    + intros path d Hpath Hbad. rewrite Htool. unfold truthy, writeFile.
      now rewrite Hpath, Hbad.
Qed.

Lemma convert_tool_converts_witness :
  let parsed := parseDiagram order_flow sequence in
  exists result w',
    convertToExcalidraw parsed sample_world = Some (result, w') /\
    map id (nodes parsed) = ["Client"; "API"] /\
    List.length (edges parsed) = 2 /\
    List.length (r_elements result) = 10 /\
    convert_tool order_flow None sample_world sample_disk
    = (Converted parsed result, w', sample_disk) /\
    convert_tool order_flow (Some "notes/order.excalidraw.md") sample_world sample_disk
    = (Written "Successfully wrote Excalidraw file to: notes/order.excalidraw.md

Type: sequence
Nodes: 2
Edges: 2",
       w',
       {| refuses := refuses sample_disk;
          writes := [("notes/order.excalidraw.md", (parsed, result))] |}) /\
    convert_tool order_flow (Some "/readonly/order.md") sample_world sample_disk
    = (ConversionError, w', sample_disk).
Proof.
  cbv zeta.
  assert (Hne : is_empty order_flow = false) by reflexivity.
  assert (Hlead : test no_flags re_leading_directive (trim order_flow) = false)
    by (vm_compute; reflexivity).
  assert (Hclass : classify_lines (trim order_flow) = Some sequence)
    by (vm_compute; reflexivity).
  destruct (convert_tool_converts order_flow sample_world sequence Hne Hlead Hclass)
    as (result & w' & Hc & _ & _ & Hnone & _ & Hwrite & Hrefuse).
  exists result, w'. split; [exact Hc|].
  split; [vm_compute; reflexivity|]. split; [vm_compute; reflexivity|]. split.
  { assert (E : option_map (fun rw => List.length (r_elements (fst rw)))
                  (convertToExcalidraw (parseDiagram order_flow sequence) sample_world)
                = Some 10) by (vm_compute; reflexivity).
    rewrite Hc in E. simpl in E. now injection E. }
  split; [apply Hnone|]. split.
  - rewrite (Hwrite "notes/order.excalidraw.md" sample_disk eq_refl eq_refl).
    reflexivity.
  - apply Hrefuse; reflexivity.
Defined.

End ServerLaws.
